(** * Event: reduced-thickness grid engine and observable extraction

    A shallow embedding of [event.cxx] (TRENTO initial-condition model,
    with the harmonic angle and radius passes added on top of it) and the
    properties of it that the specification states.

    The source computes on C++ [double] and [int].  The embedding is
    written once, over an interface [Arith] of the [double] operations the
    source uses, and is read at two instances:

    - [F64]: IEEE-754 binary64, through Rocq's primitive floats.  This is
      what the compiled program does, rounding, NaN and infinities
      included.
    - [Rarith]: the real numbers, i.e. the arithmetic the algorithms were
      designed in: no rounding.  The conversion to [int] keeps its 32-bit
      range there too.

    [std::pow] and [std::atan2] come from libm and have no counterpart in
    the primitive floats; they are the separate interface [Libm].

    Properties of the control flow (which cells are visited, what is
    stored where, which indices are used) are proved for every instance.
    Identities and bounds between real quantities are proved at [Rarith];
    where binary64 departs from them, the departure is shown at [F64].

    Contents: the model; the definitions used in the statements; lemmas on
    loops, grids, the two instances and the passes; the properties. *)

From Stdlib Require Import ZArith List Bool Lia FinFun Permutation.
From Stdlib Require Import Floats Uint63.
From Stdlib Require Import Reals Lra Psatz.
Import ListNotations.

Set Warnings "-inexact-float".
Local Open Scope Z_scope.

(** ** The arithmetic interface *)

Declare Scope dbl_scope.
Delimit Scope dbl_scope with D.

Class Arith (D : Type) : Type := {
  d_of_int : Z -> D;          (* static_cast<double>(int); literals 0., 2., 3. ... *)
  d_to_int : D -> Z;          (* static_cast<int>(double) *)
  d_half : D;                 (* .5 *)
  d_tiny : D;                 (* 1e-12 *)
  d_pi : D;                   (* M_PI *)
  d_add : D -> D -> D;
  d_sub : D -> D -> D;
  d_mul : D -> D -> D;
  d_div : D -> D -> D;
  d_ltb : D -> D -> bool;     (* a < b *)
  d_sqrt : D -> D;            (* std::sqrt *)
  d_fabs : D -> D;            (* std::fabs *)
  d_ceil : D -> D;            (* std::ceil *)
  d_fmax : D -> D -> D        (* std::fmax *)
}.

Class Libm (D : Type) : Type := {
  d_pow : D -> D -> D;        (* std::pow *)
  d_atan2 : D -> D -> D       (* atan2 *)
}.

Notation "a + b" := (d_add a b) : dbl_scope.
Notation "a - b" := (d_sub a b) : dbl_scope.
Notation "a * b" := (d_mul a b) : dbl_scope.
Notation "a / b" := (d_div a b) : dbl_scope.
Notation "a <? b" := (d_ltb a b) : dbl_scope.
Notation "a >? b" := (d_ltb b a) : dbl_scope.
Notation "# z" := (d_of_int z) (at level 5, format "# z") : dbl_scope.

(** ** Option monad: [None] is an access outside an array's extents *)

Notation "x <- e ;; k" :=
  (match e with Some x => k | None => None end)
  (at level 61, e at next level, right associativity).
Notation "' p <- e ;; k" :=
  (match e with Some p => k | None => None end)
  (at level 61, p pattern, e at next level, right associativity).

Fixpoint foldM {S A : Type} (f : S -> A -> option S) (l : list A) (s : S)
  : option S :=
  match l with
  | [] => Some s
  | a :: l' => s' <- f s a ;; foldM f l' s'
  end.

(** [for (auto i = lo; i <= hi; ++i)] visits [range_incl lo hi]. *)
Definition range_incl (lo hi : Z) : list Z :=
  map (fun k => lo + Z.of_nat k) (seq 0 (Z.to_nat (hi - lo + 1))).

(** [for (int i = 0; i < n; ++i)] visits [range_upto n]. *)
Definition range_upto (n : Z) : list Z := range_incl 0 (n - 1).

(** Two nested loops, rows outside and columns inside. *)
Definition loop2 {S : Type} (ys xs : list Z) (body : S -> Z -> Z -> option S)
  (s : S) : option S :=
  foldM (fun s iy => foldM (fun s ix => body s iy ix) xs s) ys s.

(** The index pairs in the order the nested loops visit them. *)
Definition rect_indices (ys xs : list Z) : list (Z * Z) :=
  flat_map (fun iy => map (fun ix => (iy, ix)) xs) ys.

Definition grid_indices (n : Z) : list (Z * Z) :=
  rect_indices (range_upto n) (range_upto n).

(** Update of element [n] of a list; [None] when there is no such element. *)
Fixpoint list_modify {A : Type} (f : A -> option A) (n : nat) (l : list A)
  : option (list A) :=
  match l, n with
  | [], _ => None
  | a :: t, O => option_map (fun a' => a' :: t) (f a)
  | a :: t, S k => option_map (cons a) (list_modify f k t)
  end.

(** Limit a value to a range.  Used to constrain grid indices. *)
Definition clip (value min max : Z) : Z :=
  if value <? min then min
  else if value >? max then max
  else value.

Section Model.

Context {D : Type} {AD : Arith D}.
Local Open Scope dbl_scope.

Definition TINY : D := d_tiny.

(** *** Generalized means *)

Definition positive_pmean {L : Libm D} (p a b : D) : D :=
  d_pow (d_half * (d_pow a p + d_pow b p)) (#1 / p).

Definition negative_pmean {L : Libm D} (p a b : D) : D :=
  if (a <? TINY) || (b <? TINY) then #0
  else positive_pmean p a b.

Definition geometric_mean (a b : D) : D := d_sqrt (a * b).

(** *** Grids: [boost::multi_array<double, 2>], indexed [g[iy][ix]] *)

Definition Grid : Type := list (list D).

Definition make_grid (n : Z) : Grid :=
  repeat (repeat #0 (Z.to_nat n)) (Z.to_nat n).

(** [std::fill(g.origin(), g.origin() + g.num_elements(), v)] *)
Definition grid_fill (g : Grid) (v : D) : Grid :=
  map (map (fun _ => v)) g.

Definition grid_get (g : Grid) (iy ix : Z) : option D :=
  if (iy <? 0)%Z || (ix <? 0)%Z then None
  else row <- nth_error g (Z.to_nat iy) ;; nth_error row (Z.to_nat ix).

Definition grid_modify (f : D -> D) (g : Grid) (iy ix : Z) : option Grid :=
  if (iy <? 0)%Z || (ix <? 0)%Z then None
  else list_modify
         (list_modify (fun v => Some (f v)) (Z.to_nat ix)) (Z.to_nat iy) g.

(** [g[iy][ix] = v] and [g[iy][ix] += v] *)
Definition grid_set (g : Grid) (iy ix : Z) (v : D) : option Grid :=
  grid_modify (fun _ => v) g iy ix.
Definition grid_add (g : Grid) (iy ix : Z) (v : D) : option Grid :=
  grid_modify (fun old => old + v) g iy ix.

(** A grid of extents [n] x [n], as the constructor allocates them. *)
Definition grid_wf (n : Z) (g : Grid) : Prop :=
  length g = Z.to_nat n /\ Forall (fun row => length row = Z.to_nat n) g.

(** *** Collaborators (nucleus.h, nucleon.h; not part of this file) *)

Record NucleonData : Type := {
  nucleon_x : D;
  nucleon_y : D;
  is_participant : bool
}.

Definition Nucleus : Type := list NucleonData.

(** [boundary] returns {xmin, xmax, ymin, ymax}. *)
Record NucleonCommon : Type := {
  boundary : NucleonData -> D * D * D * D;
  thickness : NucleonData -> D -> D -> D
}.

(** *** Configuration and event state *)

Record VarMap : Type := {
  cfg_normalization : D;
  cfg_grid_step : D;
  cfg_grid_max : D;
  cfg_reduced_thickness : D
}.

Record Event : Type := {
  norm_ : D;
  dxy_ : D;
  nsteps_ : Z;
  xymax_ : D;
  TA_ : Grid;
  TB_ : Grid;
  TR_ : Grid;
  gen_mean_ : D -> D -> D;     (* the mean captured by compute_reduced_thickness_ *)
  npart_ : Z;
  multiplicity_ : D;
  ixcm_ : D;
  iycm_ : D;
  eccentricity_ : list (Z * D)  (* eccentricity_[k] = v is (k, v) :: _ *)
}.

Definition set_TA (ev : Event) (g : Grid) (np : Z) : Event :=
  {| norm_ := norm_ ev; dxy_ := dxy_ ev; nsteps_ := nsteps_ ev;
     xymax_ := xymax_ ev; TA_ := g; TB_ := TB_ ev; TR_ := TR_ ev;
     gen_mean_ := gen_mean_ ev; npart_ := np;
     multiplicity_ := multiplicity_ ev; ixcm_ := ixcm_ ev; iycm_ := iycm_ ev;
     eccentricity_ := eccentricity_ ev |}.

Definition set_TB (ev : Event) (g : Grid) (np : Z) : Event :=
  {| norm_ := norm_ ev; dxy_ := dxy_ ev; nsteps_ := nsteps_ ev;
     xymax_ := xymax_ ev; TA_ := TA_ ev; TB_ := g; TR_ := TR_ ev;
     gen_mean_ := gen_mean_ ev; npart_ := np;
     multiplicity_ := multiplicity_ ev; ixcm_ := ixcm_ ev; iycm_ := iycm_ ev;
     eccentricity_ := eccentricity_ ev |}.

Definition set_npart (ev : Event) (np : Z) : Event :=
  {| norm_ := norm_ ev; dxy_ := dxy_ ev; nsteps_ := nsteps_ ev;
     xymax_ := xymax_ ev; TA_ := TA_ ev; TB_ := TB_ ev; TR_ := TR_ ev;
     gen_mean_ := gen_mean_ ev; npart_ := np;
     multiplicity_ := multiplicity_ ev; ixcm_ := ixcm_ ev; iycm_ := iycm_ ev;
     eccentricity_ := eccentricity_ ev |}.

Definition set_reduced (ev : Event) (g : Grid) (mult ixcm iycm : D) : Event :=
  {| norm_ := norm_ ev; dxy_ := dxy_ ev; nsteps_ := nsteps_ ev;
     xymax_ := xymax_ ev; TA_ := TA_ ev; TB_ := TB_ ev; TR_ := g;
     gen_mean_ := gen_mean_ ev; npart_ := npart_ ev;
     multiplicity_ := mult; ixcm_ := ixcm; iycm_ := iycm;
     eccentricity_ := eccentricity_ ev |}.

Definition set_eccentricity (ev : Event) (e : list (Z * D)) : Event :=
  {| norm_ := norm_ ev; dxy_ := dxy_ ev; nsteps_ := nsteps_ ev;
     xymax_ := xymax_ ev; TA_ := TA_ ev; TB_ := TB_ ev; TR_ := TR_ ev;
     gen_mean_ := gen_mean_ ev; npart_ := npart_ ev;
     multiplicity_ := multiplicity_ ev; ixcm_ := ixcm_ ev; iycm_ := iycm_ ev;
     eccentricity_ := e |}.

(** *** Event::Event

    nsteps = ceil(2*max/step), then the actual grid max is nsteps*step/2.
    The mean is chosen once, from the configured exponent. *)

Definition select_mean {L : Libm D} (p : D) : D -> D -> D :=
  if d_fabs p <? TINY then geometric_mean
  else if p >? #0 then (fun a b => positive_pmean p a b)
  else (fun a b => negative_pmean p a b).

Definition ctor_nsteps (var_map : VarMap) : Z :=
  d_to_int (d_ceil (#2 * cfg_grid_max var_map / cfg_grid_step var_map)).

Definition ctor_xymax (var_map : VarMap) : D :=
  d_half * #(ctor_nsteps var_map) * cfg_grid_step var_map.

Definition Event_ctor {L : Libm D} (var_map : VarMap) : Event :=
  let nsteps := ctor_nsteps var_map in
  {| norm_ := cfg_normalization var_map;
     dxy_ := cfg_grid_step var_map;
     nsteps_ := nsteps;
     xymax_ := ctor_xymax var_map;
     TA_ := make_grid nsteps;
     TB_ := make_grid nsteps;
     TR_ := make_grid nsteps;
     gen_mean_ := select_mean (cfg_reduced_thickness var_map);
     npart_ := 0;
     multiplicity_ := #0;
     ixcm_ := #0;
     iycm_ := #0;
     eccentricity_ := [] |}.


(** *** Event::compute_nuclear_thickness

    Participants are deposited on the sub-grid inside their boundary.  The
    counter [npart_] is a C++ [int]; it is a [Z] here, its overflow (2^31
    participants) is not modelled. *)

Definition index_of (ev : Event) (coord : D) : Z :=
  clip (d_to_int ((coord + xymax_ ev) / dxy_ ev)) 0 (nsteps_ ev - 1).

(** [(i+.5)*dxy_ - xymax_] *)
Definition cell_center (ev : Event) (i : Z) : D :=
  (#i + d_half) * dxy_ ev - xymax_ ev.

Definition deposit_cell (ev : Event) (nucleon_common : NucleonCommon)
  (nucleon : NucleonData) (TX : Grid) (iy ix : Z) : option Grid :=
  grid_add TX iy ix
    (thickness nucleon_common nucleon (cell_center ev ix) (cell_center ev iy)).

Definition deposit_nucleon (ev : Event) (nucleon_common : NucleonCommon)
  (st : Grid * Z) (nucleon : NucleonData) : option (Grid * Z) :=
  let '(TX, npart) := st in
  if negb (is_participant nucleon) then Some (TX, npart)
  else
    let npart := (npart + 1)%Z in
    let '(xmin, xmax, ymin, ymax) := boundary nucleon_common nucleon in
    let ixmin := index_of ev xmin in
    let ixmax := index_of ev xmax in
    let iymin := index_of ev ymin in
    let iymax := index_of ev ymax in
    TX' <- loop2 (range_incl iymin iymax) (range_incl ixmin ixmax)
             (deposit_cell ev nucleon_common nucleon) TX ;;
    Some (TX', npart).

Definition compute_nuclear_thickness (ev : Event) (nucleus : Nucleus)
  (nucleon_common : NucleonCommon) (TX : Grid) (npart : Z)
  : option (Grid * Z) :=
  foldM (deposit_nucleon ev nucleon_common) nucleus (grid_fill TX #0, npart).

(** *** Event::compute_reduced_thickness *)

Record ReducedAcc : Type := {
  ra_TR : Grid;
  ra_sum : D;
  ra_ixcm : D;
  ra_iycm : D
}.

Definition reduced_cell (ev : Event) (gen_mean : D -> D -> D)
  (acc : ReducedAcc) (iy ix : Z) : option ReducedAcc :=
  a <- grid_get (TA_ ev) iy ix ;;
  b <- grid_get (TB_ ev) iy ix ;;
  let t := norm_ ev * gen_mean a b in
  TR' <- grid_set (ra_TR acc) iy ix t ;;
  Some {| ra_TR := TR';
          ra_sum := ra_sum acc + t;
          ra_ixcm := ra_ixcm acc + t * #ix;
          ra_iycm := ra_iycm acc + t * #iy |}.

Definition reduced_loop (ev : Event) (gen_mean : D -> D -> D)
  : option ReducedAcc :=
  loop2 (range_upto (nsteps_ ev)) (range_upto (nsteps_ ev))
    (reduced_cell ev gen_mean)
    {| ra_TR := TR_ ev; ra_sum := #0; ra_ixcm := #0; ra_iycm := #0 |}.

Definition compute_reduced_thickness (gen_mean : D -> D -> D) (ev : Event)
  : option Event :=
  acc <- reduced_loop ev gen_mean ;;
  Some (set_reduced ev (ra_TR acc)
          (dxy_ ev * dxy_ ev * ra_sum acc)
          (ra_ixcm acc / ra_sum acc)
          (ra_iycm acc / ra_sum acc)).

(** *** Event::compute_observables *)

(** (x, y) relative to the centre of mass and the cached powers of x, y, r. *)
Record CellPowers : Type := {
  cx : D; cx2 : D; cx3 : D; cx4 : D;
  cy : D; cy2 : D; cy3 : D; cy4 : D;
  cr2 : D; cr : D; cr4 : D;
  cxy : D; cx2y2 : D
}.

Definition powers_of (x y : D) : CellPowers :=
  let x2 := x * x in
  let y2 := y * y in
  let r2 := x2 + y2 in
  {| cx := x; cx2 := x2; cx3 := x2 * x; cx4 := x2 * x2;
     cy := y; cy2 := y2; cy3 := y2 * y; cy4 := y2 * y2;
     cr2 := r2; cr := d_sqrt r2; cr4 := r2 * r2;
     cxy := x * y; cx2y2 := x2 * y2 |}.

Definition cell_powers (ev : Event) (iy ix : Z) : CellPowers :=
  powers_of (#ix - ixcm_ ev) (#iy - iycm_ ev).

(** Harmonic orders 2 to 5. *)
Inductive Order : Type := n2 | n3 | n4 | n5.

Definition order_num (n : Order) : Z :=
  match n with n2 => 2 | n3 => 3 | n4 => 4 | n5 => 5 end.

(** The terms added to [re], [im] and [wt] for a cell of value [t]. *)
Definition re_term (n : Order) (t : D) (c : CellPowers) : D :=
  match n with
  | n2 => t * (cy2 c - cx2 c)
  | n3 => t * (cy3 c - #3 * cy c * cx2 c)
  | n4 => t * (cx4 c + cy4 c - #6 * cx2y2 c)
  | n5 => t * cy c * (#5 * cx4 c - #10 * cx2y2 c + cy4 c)
  end.

Definition im_term (n : Order) (t : D) (c : CellPowers) : D :=
  match n with
  | n2 => t * #2 * cxy c
  | n3 => t * (#3 * cx c * cy2 c - cx3 c)
  | n4 => t * #4 * cxy c * (cy2 c - cx2 c)
  | n5 => t * cx c * (cx4 c - #10 * cx2y2 c + #5 * cy4 c)
  end.

Definition wt_term (n : Order) (t : D) (c : CellPowers) : D :=
  match n with
  | n2 => t * cr2 c
  | n3 => t * cr2 c * cr c
  | n4 => t * cr4 c
  | n5 => t * cr4 c * cr c
  end.

(** EccentricityAccumulator, EccentricityAngleAccumulator and
    RadiusAccumulator have the same three fields. *)
Record Accumulator : Type := {
  re : D;   (* real part *)
  im : D;   (* imaginary part *)
  wt : D    (* weight *)
}.

Definition acc0 : Accumulator := {| re := #0; im := #0; wt := #0 |}.

Definition ecc_finish (a : Accumulator) : D :=
  d_sqrt (re a * re a + im a * im a) / d_fmax (wt a) TINY.

Definition angle_finish {L : Libm D} (a : Accumulator) : D :=
  wt a * (d_atan2 (im a) (re a) + d_pi).

Definition radius_finish (a : Accumulator) : D :=
  d_fmax (wt a) TINY.

(** The state of one pass: four accumulators, the entropy sum (Si, Sia,
    Sir) and the [total_ent] declared outside the loop (third pass only). *)
Record Harmonics : Type := {
  h2 : Accumulator;
  h3 : Accumulator;
  h4 : Accumulator;
  h5 : Accumulator;
  hS : D;
  hT : D
}.

Definition acc_of (h : Harmonics) (n : Order) : Accumulator :=
  match n with n2 => h2 h | n3 => h3 h | n4 => h4 h | n5 => h5 h end.

Definition harmonics0 : Harmonics :=
  {| h2 := acc0; h3 := acc0; h4 := acc0; h5 := acc0; hS := #0; hT := #0 |}.

(** [e.re += ..; e.im += ..; e.wt += ..] *)
Definition acc_add (n : Order) (t : D) (c : CellPowers) (a : Accumulator)
  : Accumulator :=
  {| re := re a + re_term n t c;
     im := im a + im_term n t c;
     wt := wt a + wt_term n t c |}.

(** [a.re += ..; a.im += ..; a.wt = 1./n] *)
Definition acc_angle (n : Order) (t : D) (c : CellPowers) (a : Accumulator)
  : Accumulator :=
  {| re := re a + re_term n t c;
     im := im a + im_term n t c;
     wt := #1 / #(order_num n) |}.

(** Loop bodies after the [t < TINY] test.  In the first two passes
    [total_ent] is a local of the body and is lost at its end. *)
Definition ecc_step {L : Libm D} (ev : Event) (h : Harmonics) (iy ix : Z)
  (t : D) : Harmonics :=
  let c := cell_powers ev iy ix in
  {| h2 := acc_add n2 t c (h2 h); h3 := acc_add n3 t c (h3 h);
     h4 := acc_add n4 t c (h4 h); h5 := acc_add n5 t c (h5 h);
     hS := hS h + d_pow t (#4 / #3);
     hT := hT h |}.

Definition angle_step {L : Libm D} (ev : Event) (h : Harmonics) (iy ix : Z)
  (t : D) : Harmonics :=
  let c := cell_powers ev iy ix in
  {| h2 := acc_angle n2 t c (h2 h); h3 := acc_angle n3 t c (h3 h);
     h4 := acc_angle n4 t c (h4 h); h5 := acc_angle n5 t c (h5 h);
     hS := hS h + d_pow t (#4 / #3);
     hT := hT h |}.

Definition radius_step {L : Libm D} (ev : Event) (h : Harmonics) (iy ix : Z)
  (t : D) : Harmonics :=
  let c := cell_powers ev iy ix in
  {| h2 := acc_add n2 t c (h2 h); h3 := acc_add n3 t c (h3 h);
     h4 := acc_add n4 t c (h4 h); h5 := acc_add n5 t c (h5 h);
     hS := hS h + d_pow t (#4 / #3);
     hT := hT h + t |}.

(** One pass over the grid: cells with [t < TINY] are skipped. *)
Definition pass_cell (ev : Event)
  (step : Harmonics -> Z -> Z -> D -> Harmonics)
  (h : Harmonics) (iy ix : Z) : option Harmonics :=
  t <- grid_get (TR_ ev) iy ix ;;
  if t <? TINY then Some h else Some (step h iy ix t).

Definition pass (ev : Event) (step : Harmonics -> Z -> Z -> D -> Harmonics)
  : option Harmonics :=
  loop2 (range_upto (nsteps_ ev)) (range_upto (nsteps_ ev))
    (pass_cell ev step) harmonics0.

Definition compute_observables {L : Libm D} (ev : Event) : option Event :=
  e <- pass ev (ecc_step ev) ;;
  let ecc :=
    (5, ecc_finish (h4 e)) :: (4, ecc_finish (h3 e))
    :: (3, ecc_finish (h2 e)) :: (2, dxy_ ev * dxy_ ev * hS e)
    :: eccentricity_ ev in
  a <- pass ev (angle_step ev) ;;
  let ecc :=
    (8, angle_finish (h4 a)) :: (7, angle_finish (h3 a))
    :: (6, angle_finish (h2 a)) :: ecc in
  R <- pass ev (radius_step ev) ;;
  let ecc :=
    (11, dxy_ ev * dxy_ ev * radius_finish (h4 R) / hT R)
    :: (10, dxy_ ev * dxy_ ev * radius_finish (h3 R) / hT R)
    :: (9, dxy_ ev * dxy_ ev * radius_finish (h2 R) / hT R) :: ecc in
  Some (set_eccentricity ev ecc).

(** [eccentricity_[k]]: the latest value stored under [k]. *)
Definition ecc_lookup (k : Z) (e : list (Z * D)) : option D :=
  match find (fun kv => (fst kv =? k)%Z) e with
  | Some kv => Some (snd kv)
  | None => None
  end.

(** *** Event::compute *)

Definition compute {L : Libm D} (ev : Event) (nucleusA nucleusB : Nucleus)
  (nucleon_common : NucleonCommon) : option Event :=
  let ev := set_npart ev 0 in
  '(TA, np) <- compute_nuclear_thickness ev nucleusA nucleon_common
                 (TA_ ev) (npart_ ev) ;;
  let ev := set_TA ev TA np in
  '(TB, np) <- compute_nuclear_thickness ev nucleusB nucleon_common
                 (TB_ ev) (npart_ ev) ;;
  let ev := set_TB ev TB np in
  ev <- compute_reduced_thickness (gen_mean_ ev) ev ;;
  compute_observables ev.

End Model.

Arguments Grid D : clear implicits.
Arguments NucleonData D : clear implicits.
Arguments Nucleus D : clear implicits.
Arguments NucleonCommon D : clear implicits.
Arguments VarMap D : clear implicits.
Arguments Event D : clear implicits.
Arguments ReducedAcc D : clear implicits.
Arguments CellPowers D : clear implicits.
Arguments Accumulator D : clear implicits.
Arguments Harmonics D : clear implicits.

(** ** Instance 1: binary64 *)

Module F64ops.

Local Open Scope float_scope.

(** int -> double is exact: every 32-bit integer is a binary64 value. *)
Definition of_int (z : Z) : float :=
  match z with
  | Z0 => 0
  | Zpos _ => of_uint63 (Uint63.of_Z z)
  | Zneg p => - of_uint63 (Uint63.of_Z (Zpos p))
  end.

Definition INT_MIN : Z := (- 2 ^ 31)%Z.

(** The integer part of a finite value [m * 2^e], sign apart. *)
Definition trunc_abs (m : positive) (e : Z) : Z :=
  if (0 <=? e)%Z then Z.shiftl (Zpos m) e else Z.shiftr (Zpos m) (- e).

(** double -> int truncates toward zero.  A value that does not fit (or
    NaN) is undefined behaviour in C++; it is given the result of the
    x86-64 conversion instruction, INT_MIN. *)
Definition to_int (f : float) : Z :=
  match Prim2SF f with
  | S754_zero _ => 0%Z
  | S754_finite s m e =>
      let a := trunc_abs m e in
      let v := if s then (- a)%Z else a in
      if ((INT_MIN <=? v) && (v <? 2 ^ 31))%Z then v else INT_MIN
  | _ => INT_MIN
  end.

(** std::ceil: integral values, infinities and NaN are returned as they
    are; the others have an exponent below 0 and an integer part below
    2^53, which converts back exactly. *)
Definition ceil (f : float) : float :=
  match Prim2SF f with
  | S754_finite s m e =>
      if (0 <=? e)%Z then f
      else
        let q := Z.shiftr (Zpos m) (- e) in
        let exact := (Z.shiftl q (- e) =? Zpos m)%Z in
        if s then (if (q =? 0)%Z then (- 0) else of_int (- q))
        else of_int (if exact then q else (q + 1)%Z)
  | _ => f
  end.

(** std::fmax: a NaN argument is treated as missing data. *)
Definition fmax (a b : float) : float :=
  if is_nan a then b
  else if is_nan b then a
  else if a <? b then b else a.

End F64ops.

#[export] Instance F64 : Arith float := {|
  d_of_int := F64ops.of_int;
  d_to_int := F64ops.to_int;
  d_half := 0.5%float;
  d_tiny := 1e-12%float;
  d_pi := 0x1.921fb54442d18p+1%float;
  d_add := PrimFloat.add;
  d_sub := PrimFloat.sub;
  d_mul := PrimFloat.mul;
  d_div := PrimFloat.div;
  d_ltb := PrimFloat.ltb;
  d_sqrt := PrimFloat.sqrt;
  d_fabs := PrimFloat.abs;
  d_ceil := F64ops.ceil;
  d_fmax := F64ops.fmax
|}.

(** ** Instance 2: real numbers *)

Module Rops.

Local Open Scope R_scope.

Definition ltb (a b : R) : bool := if Rlt_dec a b then true else false.

Definition floor (x : R) : Z := Int_part x.

(** The least integer not below [x]. *)
Definition ceilZ (x : R) : Z := (- floor (- x))%Z.

(** Truncation toward zero. *)
Definition trunc (x : R) : Z :=
  if Rle_dec 0 x then floor x else ceilZ x.

(** double -> int: truncation, for a value whose integer part fits the
    32-bit [int]; otherwise INT_MIN, as in [F64ops.to_int]. *)
Definition to_int (x : R) : Z :=
  let v := trunc x in
  if ((F64ops.INT_MIN <=? v) && (v <? 2 ^ 31))%Z then v
  else F64ops.INT_MIN.

Definition ceil (x : R) : R := IZR (ceilZ x).

(** atan2(y, x): the angle of the point (x, y), in (-PI, PI]. *)
Definition atan2 (y x : R) : R :=
  if Rlt_dec 0 x then atan (y / x)
  else if Rlt_dec x 0 then
    (if Rle_dec 0 y then atan (y / x) + PI else atan (y / x) - PI)
  else if Rlt_dec 0 y then PI / 2
  else if Rlt_dec y 0 then - (PI / 2)
  else 0.

(** pow(a, b) for a positive base; 0 otherwise (the source raises
    non-negative thickness values only). *)
Definition pow (a b : R) : R :=
  if Rlt_dec 0 a then Rpower a b else 0.

End Rops.

#[export] Instance Rarith : Arith R := {|
  d_of_int := IZR;
  d_to_int := Rops.to_int;
  d_half := (1 / 2)%R;
  d_tiny := (1 / 10 ^ 12)%R;
  d_pi := PI;
  d_add := Rplus;
  d_sub := Rminus;
  d_mul := Rmult;
  d_div := Rdiv;
  d_ltb := Rops.ltb;
  d_sqrt := sqrt;
  d_fabs := Rabs;
  d_ceil := Rops.ceil;
  d_fmax := Rmax
|}.

#[export] Instance Rlibm : Libm R := {|
  d_pow := Rops.pow;
  d_atan2 := Rops.atan2
|}.


(** ** Definitions used to state the properties *)

Section SpecDefs.

Context {D : Type} {AD : Arith D}.
Local Open Scope dbl_scope.

(** Cell (iy, ix) lies inside an [n] x [n] grid. *)
Definition in_grid (n iy ix : Z) : Prop := 0 <= iy < n /\ 0 <= ix < n.

(** The three fields of an event have its extents. *)
Definition event_wf (ev : Event D) : Prop :=
  grid_wf (nsteps_ ev) (TA_ ev) /\ grid_wf (nsteps_ ev) (TB_ ev)
  /\ grid_wf (nsteps_ ev) (TR_ ev).

(** The value of a cell, when it is known to exist. *)
Definition grid_at (g : Grid D) (iy ix : Z) : D :=
  match grid_get g iy ix with Some v => v | None => #0 end.

(** The sum of all cells of a field, in storage (row-major) order. *)
Definition grid_sum (g : Grid D) : D := fold_left d_add (concat g) #0.

(** What compute_reduced_thickness stores in cell [p] = (iy, ix). *)
Definition reduced_value (ev : Event D) (gen_mean : D -> D -> D)
  (p : Z * Z) : D :=
  norm_ ev * gen_mean (grid_at (TA_ ev) (fst p) (snd p))
                      (grid_at (TB_ ev) (fst p) (snd p)).

Definition reduced_body (ev : Event D) (gen_mean : D -> D -> D)
  (acc : ReducedAcc D) (p : Z * Z) : option (ReducedAcc D) :=
  reduced_cell ev gen_mean acc (fst p) (snd p).

(** The index bounds (ixmin, ixmax, iymin, iymax) of a nucleon's sub-grid:
    each boundary coordinate c becomes (c + xymax)/dxy, converted to an
    int and clipped to [0, nsteps-1]. *)
Definition support_rect (ev : Event D) (nucleon_common : NucleonCommon D)
  (nucleon : NucleonData D) : Z * Z * Z * Z :=
  let '(xmin, xmax, ymin, ymax) := boundary nucleon_common nucleon in
  (clip (d_to_int ((xmin + xymax_ ev) / dxy_ ev)) 0 (nsteps_ ev - 1),
   clip (d_to_int ((xmax + xymax_ ev) / dxy_ ev)) 0 (nsteps_ ev - 1),
   clip (d_to_int ((ymin + xymax_ ev) / dxy_ ev)) 0 (nsteps_ ev - 1),
   clip (d_to_int ((ymax + xymax_ ev) / dxy_ ev)) 0 (nsteps_ ev - 1)).

(** Cell (iy, ix) lies in the index rectangle, both ends included. *)
Definition in_rect (r : Z * Z * Z * Z) (iy ix : Z) : bool :=
  let '(ixmin, ixmax, iymin, iymax) := r in
  (iymin <=? iy)%Z && (iy <=? iymax)%Z && (ixmin <=? ix)%Z && (ix <=? ixmax)%Z.

(** What one nucleon does to the value [v] of cell (iy, ix): nothing if it
    is not a participant or the cell is outside its rectangle, otherwise
    its thickness at the cell centre
    ((ix + 1/2) dxy - xymax, (iy + 1/2) dxy - xymax) is added. *)
Definition deposited (ev : Event D) (nucleon_common : NucleonCommon D)
  (iy ix : Z) (v : D) (nucleon : NucleonData D) : D :=
  if is_participant nucleon
     && in_rect (support_rect ev nucleon_common nucleon) iy ix
  then v + thickness nucleon_common nucleon
             ((#ix + d_half) * dxy_ ev - xymax_ ev)
             ((#iy + d_half) * dxy_ ev - xymax_ ev)
  else v.

Definition count_participants (nucleus : Nucleus D) : Z :=
  Z.of_nat (length (filter is_participant nucleus)).

(** A cell of a field: its indices (iy, ix) and its value. *)
Definition Cell : Type := (Z * Z) * D.

Definition cell_value (c : Cell) : D := snd c.

(** The cells of the [n] x [n] field [g], in the order of the loops. *)
Definition grid_cells (n : Z) (g : Grid D) : list Cell :=
  map (fun p => (p, grid_at g (fst p) (snd p))) (grid_indices n).

(** The cells a pass does not skip: those whose value is not below TINY. *)
Definition included (c : Cell) : bool := negb (cell_value c <? TINY).

Definition included_cells (ev : Event D) : list Cell :=
  filter included (grid_cells (nsteps_ ev) (TR_ ev)).

(** The sum of [f] over a list of cells, from 0 and in the list's order. *)
Definition cell_sum (f : Cell -> D) (cells : list Cell) : D :=
  fold_left (fun s c => s + f c) cells #0.

(** The terms that a value [t] at the point (x, y) contributes to the
    moment of order [n], written out in x and y with the products in the
    order in which the source forms them (x2 = x*x, x3 = x2*x, x4 = x2*x2,
    r2 = x2 + y2, r = sqrt(r2), r4 = r2*r2): the real part, the imaginary
    part and the weight t r^n. *)
Definition moment_re (n : Order) (t x y : D) : D :=
  match n with
  | n2 => t * (y * y - x * x)
  | n3 => t * (y * y * y - #3 * y * (x * x))
  | n4 => t * (x * x * (x * x) + y * y * (y * y) - #6 * (x * x * (y * y)))
  | n5 => t * y * (#5 * (x * x * (x * x)) - #10 * (x * x * (y * y))
                   + y * y * (y * y))
  end.

Definition moment_im (n : Order) (t x y : D) : D :=
  match n with
  | n2 => t * #2 * (x * y)
  | n3 => t * (#3 * x * (y * y) - x * x * x)
  | n4 => t * #4 * (x * y) * (y * y - x * x)
  | n5 => t * x * (x * x * (x * x) - #10 * (x * x * (y * y))
                   + #5 * (y * y * (y * y)))
  end.

Definition moment_wt (n : Order) (t x y : D) : D :=
  match n with
  | n2 => t * (x * x + y * y)
  | n3 => t * (x * x + y * y) * d_sqrt (x * x + y * y)
  | n4 => t * ((x * x + y * y) * (x * x + y * y))
  | n5 => t * ((x * x + y * y) * (x * x + y * y)) * d_sqrt (x * x + y * y)
  end.

(** The terms a cell contributes at order [n]: its value at the point
    (ix - ixcm, iy - iycm), the cell's indices relative to the centroid. *)
Definition cell_re (ev : Event D) (n : Order) (c : Cell) : D :=
  moment_re n (cell_value c)
    (#(snd (fst c)) - ixcm_ ev) (#(fst (fst c)) - iycm_ ev).
Definition cell_im (ev : Event D) (n : Order) (c : Cell) : D :=
  moment_im n (cell_value c)
    (#(snd (fst c)) - ixcm_ ev) (#(fst (fst c)) - iycm_ ev).
Definition cell_wt (ev : Event D) (n : Order) (c : Cell) : D :=
  moment_wt n (cell_value c)
    (#(snd (fst c)) - ixcm_ ev) (#(fst (fst c)) - iycm_ ev).

(** A loop body applied to a cell. *)
Definition on_cell (step : Harmonics D -> Z -> Z -> D -> Harmonics D)
  (h : Harmonics D) (c : Cell) : Harmonics D :=
  step h (fst (fst c)) (snd (fst c)) (cell_value c).

(** The observables of an event. *)
Inductive ObsKind : Type := Magnitude | Angle | Radius.

Inductive Observable : Type :=
  | Entropy
  | Harmonic (k : ObsKind) (n : Order).

(** The slot [k] and the observable of each statement
    [eccentricity_[k] = ...] of compute_observables, in program order. *)
Definition observable_layout : list (Z * Observable) :=
  [ (2, Entropy);
    (3, Harmonic Magnitude n2); (4, Harmonic Magnitude n3);
    (5, Harmonic Magnitude n4);
    (6, Harmonic Angle n2); (7, Harmonic Angle n3); (8, Harmonic Angle n4);
    (9, Harmonic Radius n2); (10, Harmonic Radius n3);
    (11, Harmonic Radius n4) ].

(** An observable has a slot of its own in the output vector. *)
Definition addressable (o : Observable) : Prop :=
  exists k, In (k, o) observable_layout.

(** The value of an observable, from the results [e], [a], [R] of the
    magnitude, angle and radius passes. *)
Definition observable_value {L : Libm D} (ev : Event D)
  (e a R : Harmonics D) (o : Observable) : D :=
  match o with
  | Entropy => dxy_ ev * dxy_ ev * hS e
  | Harmonic Magnitude n => ecc_finish (acc_of e n)
  | Harmonic Angle n => angle_finish (acc_of a n)
  | Harmonic Radius n =>
      dxy_ ev * dxy_ ev * radius_finish (acc_of R n) / hT R
  end.

End SpecDefs.

Arguments Cell D : clear implicits.

(** The one law of the order that the selection of the mean relies on: a
    negative exponent is not positive.  Both instances satisfy it. *)
Class ArithOrder (D : Type) {AD : Arith D} : Prop := {
  ltb_neg_not_pos : forall p : D, (p <? #0)%D = true -> (p >? #0)%D = false
}.

(** ** Sample inputs, in binary64 and in real numbers *)

Module Sample.

Local Open Scope float_scope.

(** A 2 x 2 grid of step 0.5 over [-0.5, 0.5]^2. *)
Definition event : Event float :=
  {| norm_ := 2; dxy_ := 0.5; nsteps_ := 2; xymax_ := 0.5;
     TA_ := [[1; 2]; [3; 4]];
     TB_ := [[4; 3]; [2; 1]];
     TR_ := make_grid 2;
     gen_mean_ := geometric_mean;
     npart_ := 0; multiplicity_ := 0; ixcm_ := 0; iycm_ := 0;
     eccentricity_ := [] |}.

(** Nucleons deposit 1.5 on a square of half-width 0.25 around them. *)
Definition common : NucleonCommon float :=
  {| boundary := fun n =>
       (nucleon_x n - 0.25, nucleon_x n + 0.25,
        nucleon_y n - 0.25, nucleon_y n + 0.25);
     thickness := fun n x y => 1.5 |}.

Definition nucleus : Nucleus float :=
  [ {| nucleon_x := -0.25; nucleon_y := -0.25; is_participant := true |};
    {| nucleon_x := 0.25; nucleon_y := 0.25; is_participant := false |};
    {| nucleon_x := 0.25; nucleon_y := -0.25; is_participant := true |} ].

(** The same event with nothing deposited: both thickness fields are 0. *)
Definition empty_event : Event float :=
  {| norm_ := 2; dxy_ := 0.5; nsteps_ := 2; xymax_ := 0.5;
     TA_ := make_grid 2;
     TB_ := make_grid 2;
     TR_ := make_grid 2;
     gen_mean_ := geometric_mean;
     npart_ := 0; multiplicity_ := 0; ixcm_ := 0; iycm_ := 0;
     eccentricity_ := [] |}.

(** Two nucleons that miss: neither is a participant. *)
Definition spectators : Nucleus float :=
  [ {| nucleon_x := -0.25; nucleon_y := -0.25; is_participant := false |};
    {| nucleon_x := 0.25; nucleon_y := 0.25; is_participant := false |} ].

(** A binary64 configuration whose step divides the half-width: 0.9 / 0.15. *)
Definition coarse_config : VarMap float :=
  {| cfg_normalization := 1; cfg_grid_step := 0.15;
     cfg_grid_max := 0.9; cfg_reduced_thickness := 0 |}.

(** A binary64 configuration whose quotient 2 * 10 / 1e-9 does not fit
    an int. *)
Definition fine_config : VarMap float :=
  {| cfg_normalization := 1; cfg_grid_step := 1e-9;
     cfg_grid_max := 10; cfg_reduced_thickness := 0 |}.

(** A binary64 configuration with a positive step and a positive
    half-width whose quotient rounds to 0: step 1e10, half-width 2^-1074
    (the least positive double). *)
Definition degenerate_config : VarMap float :=
  {| cfg_normalization := 1; cfg_grid_step := 1e10;
     cfg_grid_max := 0x1p-1074; cfg_reduced_thickness := 0 |}.

(** The event that the constructor makes of it: no step, empty fields. *)
Definition degenerate_event : Event float :=
  {| norm_ := 1; dxy_ := 1e10; nsteps_ := 0; xymax_ := 0;
     TA_ := []; TB_ := []; TR_ := [];
     gen_mean_ := geometric_mean;
     npart_ := 0; multiplicity_ := 0; ixcm_ := 0; iycm_ := 0;
     eccentricity_ := [] |}.

Definition participant : NucleonData float :=
  {| nucleon_x := 0; nucleon_y := 0; is_participant := true |}.

(** Two nuclei that overlap in two cells on a diagonal. *)
Definition skew_event : Event float :=
  {| norm_ := 1; dxy_ := 0.5; nsteps_ := 2; xymax_ := 0.5;
     TA_ := [[0; 0.5]; [0.2; 0]];
     TB_ := [[0; 0.5]; [0.2; 0]];
     TR_ := make_grid 2;
     gen_mean_ := geometric_mean;
     npart_ := 0; multiplicity_ := 0; ixcm_ := 0; iycm_ := 0;
     eccentricity_ := [] |}.

(** A configuration in real numbers: step 1/5, half-width 10. *)
Definition real_config : VarMap R :=
  {| cfg_normalization := 1%R; cfg_grid_step := (1 / 5)%R;
     cfg_grid_max := 10%R; cfg_reduced_thickness := 0%R |}.

(** An event in real numbers whose reduced field has an empty cell. *)
Definition real_event : Event R :=
  {| norm_ := 1%R; dxy_ := (1 / 5)%R; nsteps_ := 2; xymax_ := (1 / 5)%R;
     TA_ := make_grid 2;
     TB_ := make_grid 2;
     TR_ := [[1%R; 0%R]; [2%R; 3%R]];
     gen_mean_ := geometric_mean;
     npart_ := 2; multiplicity_ := (6 / 25)%R;
     ixcm_ := (1 / 2)%R; iycm_ := (5 / 6)%R;
     eccentricity_ := [] |}.

End Sample.

(** [n] is the ceiling of the real number [q]. *)
Definition is_ceil (n : Z) (q : R) : Prop := (IZR n - 1 < q <= IZR n)%R.

(** The naive formulation of the moment of order [n] of a cell of value
    [t], at distance [r] and angle [phi]: t r^n cos(n phi), t r^n sin(n phi). *)
Definition trig_re (n : Order) (t r phi : R) : R :=
  (t * r ^ Z.to_nat (order_num n) * cos (IZR (order_num n) * phi))%R.

Definition trig_im (n : Order) (t r phi : R) : R :=
  (t * r ^ Z.to_nat (order_num n) * sin (IZR (order_num n) * phi))%R.

(** The distance of the point (x, y) from the origin. *)
Definition radius (x y : R) : R := sqrt (x * x + y * y).

(** ** The collision-density table

    [TAB_], [ncoll_] and [Tab_integr_] are members of Event that only
    clear_TAB, compute_ncoll and accumulate_TAB use; they are kept in a
    record of their own.  accumulate_TAB is not embedded: its loop body
    names a variable [nucleon] that is not declared. *)

Section ModelNcoll.

Context {D : Type} {AD : Arith D}.
Local Open Scope dbl_scope.

Record NcollTable : Type := {
  TAB_ : Grid D;
  ncoll_ : Z;
  Tab_integr_ : D
}.

(** Event::clear_TAB *)
Definition clear_TAB (ev : Event D) (tb : NcollTable) : option NcollTable :=
  TAB' <- loop2 (range_upto (nsteps_ ev)) (range_upto (nsteps_ ev))
            (fun g iy ix => grid_set g iy ix #1) (TAB_ tb) ;;
  Some {| TAB_ := TAB'; ncoll_ := 0; Tab_integr_ := Tab_integr_ tb |}.

(** Event::compute_ncoll *)
Definition compute_ncoll (ev : Event D) (tb : NcollTable)
  : option NcollTable :=
  let ncoll := (ncoll_ tb + 1)%Z in
  st <- loop2 (range_upto (nsteps_ ev)) (range_upto (nsteps_ ev))
          (fun (st : Grid D * D) iy ix =>
             g <- grid_add (fst st) iy ix #1 ;;
             Some (g, snd st + #1))
          (TAB_ tb, #0) ;;
  Some {| TAB_ := fst st; ncoll_ := ncoll;
          Tab_integr_ := dxy_ ev * dxy_ ev * snd st |}.

(** [k] calls of compute_ncoll. *)
Fixpoint compute_ncoll_times (k : nat) (ev : Event D) (tb : NcollTable)
  : option NcollTable :=
  match k with
  | O => Some tb
  | S k' => tb' <- compute_ncoll ev tb ;; compute_ncoll_times k' ev tb'
  end.

End ModelNcoll.

Arguments NcollTable D : clear implicits.

(** ** Definitions used to state the further properties *)

Section ExtraDefs.

Context {D : Type} {AD : Arith D}.
Local Open Scope dbl_scope.

(** Two events were constructed from the same configuration: they differ
    at most in the state that a computation leaves behind. *)
Definition same_config (ev ev' : Event D) : Prop :=
  norm_ ev = norm_ ev' /\ dxy_ ev = dxy_ ev' /\ nsteps_ ev = nsteps_ ev' /\
  xymax_ ev = xymax_ ev' /\ gen_mean_ ev = gen_mean_ ev'.

(** A nucleon's index rectangle covers the cell (iy, ix). *)
Definition covers (ev : Event D) (nucleon_common : NucleonCommon D)
  (nucleon : NucleonData D) (iy ix : Z) : bool :=
  is_participant nucleon
  && in_rect (support_rect ev nucleon_common nucleon) iy ix.

End ExtraDefs.

(** ** Further sample inputs, in real numbers *)

Module SampleR.

Local Open Scope R_scope.

(** A 2 x 2 grid of step 1/2 over [-1/2, 1/2]^2. *)
Definition event : Event R :=
  {| norm_ := 1; dxy_ := 1 / 2; nsteps_ := 2; xymax_ := 1 / 2;
     TA_ := [[1; 2]; [3; 4]];
     TB_ := [[4; 3]; [2; 1]];
     TR_ := make_grid 2;
     gen_mean_ := geometric_mean;
     npart_ := 0; multiplicity_ := 0; ixcm_ := 0; iycm_ := 0;
     eccentricity_ := [] |}.

Definition common : NucleonCommon R :=
  {| boundary := fun n =>
       (nucleon_x n - 1 / 4, nucleon_x n + 1 / 4,
        nucleon_y n - 1 / 4, nucleon_y n + 1 / 4);
     thickness := fun n x y => 3 / 2 |}.

Definition left_nucleon : NucleonData R :=
  {| nucleon_x := - (1 / 4); nucleon_y := - (1 / 4); is_participant := true |}.

Definition right_nucleon : NucleonData R :=
  {| nucleon_x := 1 / 4; nucleon_y := - (1 / 4); is_participant := true |}.

Definition nucleus : Nucleus R := [left_nucleon; right_nucleon].

Definition nucleus_reversed : Nucleus R := [right_nucleon; left_nucleon].

(** The same event as another computation left it. *)
Definition used_event : Event R :=
  {| norm_ := 1; dxy_ := 1 / 2; nsteps_ := 2; xymax_ := 1 / 2;
     TA_ := [[5; 0]; [0; 7]];
     TB_ := [[0; 1]; [1; 0]];
     TR_ := [[2; 2]; [2; 2]];
     gen_mean_ := geometric_mean;
     npart_ := 5; multiplicity_ := 2; ixcm_ := 1 / 2; iycm_ := 1 / 2;
     eccentricity_ := [(3%Z, 1 / 3); (0%Z, 4)] |}.

(** An event whose mean is selected by the exponent -1, and a nucleus
    that misses it. *)
Definition harmonic_event : Event R :=
  {| norm_ := 3; dxy_ := 1 / 2; nsteps_ := 2; xymax_ := 1 / 2;
     TA_ := make_grid 2; TB_ := make_grid 2; TR_ := make_grid 2;
     gen_mean_ := select_mean (-1);
     npart_ := 0; multiplicity_ := 0; ixcm_ := 0; iycm_ := 0;
     eccentricity_ := [] |}.

Definition spectators : Nucleus R :=
  [ {| nucleon_x := 0; nucleon_y := 0; is_participant := false |} ].

(** A collision table that an earlier event has used. *)
Definition table : NcollTable R :=
  {| TAB_ := [[5; 7]; [0; 1]]; ncoll_ := 9; Tab_integr_ := 3 |}.

End SampleR.

(** ** Loops and index ranges *)

Lemma fold_left_ext {S A : Type} (f g : S -> A -> S) (l : list A) (s : S) :
  (forall s a, f s a = g s a) -> fold_left f l s = fold_left g l s.
Proof.
  intros Hfg. revert s. induction l as [|a l IH]; intros s; simpl.
  - reflexivity.
  - rewrite Hfg. apply IH.
Qed.

Lemma foldM_cons {S A : Type} (f : S -> A -> option S) (a : A) (l : list A)
  (s : S) :
  foldM f (a :: l) s = (s' <- f s a ;; foldM f l s').
Proof. reflexivity. Qed.

Lemma foldM_app {S A : Type} (f : S -> A -> option S) (l1 l2 : list A) (s : S) :
  foldM f (l1 ++ l2) s = (s' <- foldM f l1 s ;; foldM f l2 s').
Proof.
  revert s. induction l1 as [|a l1 IH]; intros s; simpl.
  - reflexivity.
  - destruct (f s a) as [s1|]; [apply IH | reflexivity].
Qed.

Lemma foldM_map {S A B : Type} (f : S -> B -> option S) (g : A -> B)
  (l : list A) (s : S) :
  foldM f (map g l) s = foldM (fun s a => f s (g a)) l s.
Proof.
  revert s. induction l as [|a l IH]; intros s; simpl.
  - reflexivity.
  - destruct (f s (g a)); [apply IH | reflexivity].
Qed.

(** The nested loops visit [rect_indices] in order. *)
Lemma loop2_flat {S : Type} (ys xs : list Z) (body : S -> Z -> Z -> option S)
  (s : S) :
  loop2 ys xs body s =
  foldM (fun s p => body s (fst p) (snd p)) (rect_indices ys xs) s.
Proof.
  unfold loop2, rect_indices. revert s.
  induction ys as [|iy ys IH]; intros s; simpl.
  - reflexivity.
  - rewrite foldM_app, foldM_map. simpl.
    destruct (foldM (fun s0 ix => body s0 iy ix) xs s); [apply IH | reflexivity].
Qed.

Lemma range_incl_In (lo hi i : Z) :
  In i (range_incl lo hi) <-> lo <= i <= hi.
Proof.
  unfold range_incl. rewrite in_map_iff. split.
  - intros (k & <- & Hk). apply in_seq in Hk. lia.
  - intros Hi. exists (Z.to_nat (i - lo)). split; [lia|].
    apply in_seq. lia.
Qed.

Lemma range_incl_NoDup (lo hi : Z) : NoDup (range_incl lo hi).
Proof.
  unfold range_incl. apply Injective_map_NoDup.
  - intros a b Hab. lia.
  - apply seq_NoDup.
Qed.

Lemma range_upto_In (n i : Z) : In i (range_upto n) <-> 0 <= i < n.
Proof. unfold range_upto. rewrite range_incl_In. lia. Qed.

Lemma rect_indices_In (ys xs : list Z) (iy ix : Z) :
  In (iy, ix) (rect_indices ys xs) <-> In iy ys /\ In ix xs.
Proof.
  unfold rect_indices. rewrite in_flat_map. split.
  - intros (y & Hy & Hin). apply in_map_iff in Hin.
    destruct Hin as (x & Heq & Hx). inversion Heq; subst. auto.
  - intros [Hy Hx]. exists iy. split; [assumption|].
    apply in_map_iff. exists ix. auto.
Qed.

Lemma rect_indices_NoDup (ys xs : list Z) :
  NoDup ys -> NoDup xs -> NoDup (rect_indices ys xs).
Proof.
  intros Hys Hxs. unfold rect_indices.
  induction Hys as [|y ys Hy Hys IH]; simpl.
  - constructor.
  - apply NoDup_app.
    + apply Injective_map_NoDup; [|assumption].
      intros a b Hab. inversion Hab. reflexivity.
    + exact IH.
    + intros [jy jx] Hin1 Hin2.
      apply in_map_iff in Hin1. destruct Hin1 as (x & Heq & _).
      inversion Heq; subst.
      apply (proj1 (rect_indices_In ys xs jy jx)) in Hin2. tauto.
Qed.

Lemma clip_range (v lo hi : Z) : lo <= hi -> lo <= clip v lo hi <= hi.
Proof.
  intros H. unfold clip.
  destruct (v <? lo) eqn:E1; [lia|].
  destruct (v >? hi) eqn:E2; lia.
Qed.

(** ** Lists and grids updated by index *)

Lemma list_modify_spec {A : Type} (f : A -> option A) (l : list A) (n : nat)
  (a a' : A) :
  nth_error l n = Some a -> f a = Some a' ->
  exists l', list_modify f n l = Some l' /\ length l' = length l /\
    forall k, nth_error l' k = if Nat.eqb k n then Some a' else nth_error l k.
Proof.
  revert n. induction l as [|b l IH]; intros n Hn Hf.
  - destruct n; discriminate.
  - destruct n as [|n]; simpl in *.
    + inversion Hn; subst. rewrite Hf. simpl. eexists. split; [reflexivity|].
      split; [reflexivity|]. intros [|k]; reflexivity.
    + destruct (IH n Hn Hf) as (l' & -> & Hlen & Hnth). simpl.
      eexists. split; [reflexivity|]. split; [simpl; congruence|].
      intros [|k]; simpl; [reflexivity | apply Hnth].
Qed.

Section GridFacts.

Context {D : Type} {AD : Arith D}.
Local Open Scope dbl_scope.

Lemma grid_get_wf (n : Z) (g : Grid D) (iy ix : Z) :
  grid_wf n g -> in_grid n iy ix -> exists v, grid_get g iy ix = Some v.
Proof.
  intros [Hlen Hrows] [Hy Hx]. unfold grid_get.
  replace ((iy <? 0) || (ix <? 0))%Z with false
    by (symmetry; apply orb_false_iff; split; apply Z.ltb_ge; lia).
  destruct (nth_error g (Z.to_nat iy)) as [row|] eqn:Erow.
  - rewrite Forall_forall in Hrows.
    pose proof (Hrows row (nth_error_In _ _ Erow)) as Hrow.
    destruct (nth_error row (Z.to_nat ix)) as [v|] eqn:Ev; [eauto|].
    apply nth_error_None in Ev. lia.
  - apply nth_error_None in Erow. lia.
Qed.

Lemma grid_get_in_grid (n : Z) (g : Grid D) (iy ix : Z) (v : D) :
  grid_wf n g -> grid_get g iy ix = Some v -> in_grid n iy ix.
Proof.
  intros [Hlen Hrows]. unfold grid_get.
  destruct ((iy <? 0) || (ix <? 0))%Z eqn:E; [discriminate|].
  apply orb_false_iff in E. destruct E as [Ey Ex].
  apply Z.ltb_ge in Ey, Ex.
  destruct (nth_error g (Z.to_nat iy)) as [row|] eqn:Erow; [|discriminate].
  intros Hv. rewrite Forall_forall in Hrows.
  pose proof (Hrows row (nth_error_In _ _ Erow)) as Hrow.
  assert (Z.to_nat iy < length g)%nat by (apply nth_error_Some; congruence).
  assert (Z.to_nat ix < length row)%nat by (apply nth_error_Some; congruence).
  unfold in_grid. lia.
Qed.

(** A write inside the extents succeeds, keeps the extents, changes the
    cell it addresses and no other. *)
Lemma grid_modify_wf (f : D -> D) (n : Z) (g : Grid D) (iy ix : Z) :
  grid_wf n g -> in_grid n iy ix ->
  exists g', grid_modify f g iy ix = Some g' /\ grid_wf n g' /\
    (forall v, grid_get g iy ix = Some v -> grid_get g' iy ix = Some (f v)) /\
    (forall jy jx, (jy, jx) <> (iy, ix) ->
       grid_get g' jy jx = grid_get g jy jx).
Proof.
  intros Hwf Hin. destruct (grid_get_wf n g iy ix Hwf Hin) as [v Hv].
  destruct Hwf as [Hlen Hrows]. destruct Hin as [Hy Hx].
  unfold grid_modify, grid_get in *.
  replace ((iy <? 0) || (ix <? 0))%Z with false in *
    by (symmetry; apply orb_false_iff; split; apply Z.ltb_ge; lia).
  destruct (nth_error g (Z.to_nat iy)) as [row|] eqn:Erow; [|discriminate].
  destruct (list_modify_spec (fun v => Some (f v)) row (Z.to_nat ix) v (f v)
              Hv eq_refl) as (row' & Hrow' & Hlen' & Hnth').
  destruct (list_modify_spec
              (list_modify (fun v => Some (f v)) (Z.to_nat ix))
              g (Z.to_nat iy) row row' Erow Hrow') as (g' & Hg' & Hleng & Hnthg).
  exists g'. split; [exact Hg'|]. split; [|split].
  - split; [congruence|]. apply Forall_forall. intros r Hr.
    apply In_nth_error in Hr. destruct Hr as [k Hk].
    rewrite Hnthg in Hk. rewrite Forall_forall in Hrows.
    destruct (Nat.eqb k (Z.to_nat iy)).
    + inversion Hk; subst. rewrite Hlen'.
      apply Hrows. eapply nth_error_In; eassumption.
    + apply Hrows. eapply nth_error_In; eassumption.
  - intros v0 Hv0. rewrite Hnthg, Nat.eqb_refl, Hnth', Nat.eqb_refl.
    congruence.
  - intros jy jx Hne.
    destruct ((jy <? 0) || (jx <? 0))%Z eqn:E; [reflexivity|].
    apply orb_false_iff in E. destruct E as [Ey Ex].
    apply Z.ltb_ge in Ey, Ex.
    rewrite Hnthg.
    destruct (Nat.eqb (Z.to_nat jy) (Z.to_nat iy)) eqn:Ejy.
    + apply Nat.eqb_eq in Ejy. rewrite Ejy, Erow, Hnth'.
      destruct (Nat.eqb (Z.to_nat jx) (Z.to_nat ix)) eqn:Ejx; [|reflexivity].
      apply Nat.eqb_eq in Ejx. exfalso. apply Hne. f_equal; lia.
    + reflexivity.
Qed.

Lemma grid_fill_wf (n : Z) (g : Grid D) (v : D) :
  grid_wf n g -> grid_wf n (grid_fill g v).
Proof.
  intros [Hlen Hrows]. unfold grid_fill. split.
  - rewrite length_map. exact Hlen.
  - apply Forall_map. eapply Forall_impl; [|exact Hrows].
    intros row Hrow. simpl. rewrite length_map. exact Hrow.
Qed.

Lemma grid_fill_get (n : Z) (g : Grid D) (v : D) (iy ix : Z) :
  grid_wf n g -> in_grid n iy ix -> grid_get (grid_fill g v) iy ix = Some v.
Proof.
  intros Hwf Hin. destruct (grid_get_wf n g iy ix Hwf Hin) as [w Hw].
  destruct Hin as [Hy Hx]. unfold grid_get, grid_fill in *.
  replace ((iy <? 0) || (ix <? 0))%Z with false in *
    by (symmetry; apply orb_false_iff; split; apply Z.ltb_ge; lia).
  rewrite nth_error_map.
  destruct (nth_error g (Z.to_nat iy)) as [row|]; [|discriminate]. simpl.
  rewrite nth_error_map. rewrite Hw. reflexivity.
Qed.

Lemma make_grid_wf (n : Z) : grid_wf n (make_grid n).
Proof.
  unfold make_grid. split.
  - apply repeat_length.
  - apply Forall_forall. intros row Hrow. apply repeat_spec in Hrow.
    subst. apply repeat_length.
Qed.

End GridFacts.

Lemma index_eq_dec (p q : Z * Z) : {p = q} + {p <> q}.
Proof. decide equality; apply Z.eq_dec. Defined.

Section ReducedFacts.

Context {D : Type} {AD : Arith D}.
Local Open Scope dbl_scope.

Lemma map_nth_seq_id {A : Type} (l : list A) (d : A) :
  map (fun k => nth k l d) (seq 0 (length l)) = l.
Proof.
  induction l as [|a l IH]; simpl.
  - reflexivity.
  - f_equal. rewrite <- seq_shift, map_map. exact IH.
Qed.

Lemma range_upto_seq (n : Z) :
  range_upto n = map Z.of_nat (seq 0 (Z.to_nat n)).
Proof.
  unfold range_upto, range_incl.
  replace (n - 1 - 0 + 1)%Z with n by lia. reflexivity.
Qed.

(** Reading the cells in loop order gives the storage order. *)
Lemma grid_cells_concat (n : Z) (g : Grid D) :
  grid_wf n g ->
  map (fun p => grid_at g (fst p) (snd p)) (grid_indices n) = concat g.
Proof.
  intros [Hlen Hrows]. unfold grid_indices, rect_indices.
  rewrite range_upto_seq. rewrite <- Hlen.
  rewrite flat_map_concat_map, concat_map, !map_map.
  f_equal.
  etransitivity; [|apply (map_nth_seq_id g [])].
  apply map_ext_in. intros k Hk. apply in_seq in Hk.
  rewrite !map_map. simpl.
  assert (Hrow : length (nth k g []) = length g).
  { rewrite Forall_forall in Hrows. rewrite Hlen. apply Hrows.
    apply nth_In. lia. }
  etransitivity; [|apply (map_nth_seq_id (nth k g []) #0)]. rewrite Hrow.
  apply map_ext_in. intros j Hj. apply in_seq in Hj.
  unfold grid_at, grid_get.
  replace ((Z.of_nat k <? 0) || (Z.of_nat j <? 0))%Z with false
    by (symmetry; apply orb_false_iff; split; apply Z.ltb_ge; lia).
  rewrite !Nat2Z.id.
  rewrite (nth_error_nth' g [] (n:=k)) by lia.
  rewrite (nth_error_nth' (nth k g []) #0 (n:=j)) by lia.
  reflexivity.
Qed.

Variable ev : Event D.
Variable gen_mean : D -> D -> D.

Lemma reduced_fold (n : Z) (l : list (Z * Z)) :
  grid_wf n (TA_ ev) -> grid_wf n (TB_ ev) ->
  (forall p, In p l -> in_grid n (fst p) (snd p)) ->
  forall acc, grid_wf n (ra_TR acc) ->
  exists acc', foldM (reduced_body ev gen_mean) l acc = Some acc' /\
    grid_wf n (ra_TR acc') /\
    ra_sum acc' = fold_left d_add (map (reduced_value ev gen_mean) l) (ra_sum acc) /\
    ra_ixcm acc' =
      fold_left (fun s p => s + (reduced_value ev gen_mean) p * #(snd p)) l (ra_ixcm acc) /\
    ra_iycm acc' =
      fold_left (fun s p => s + (reduced_value ev gen_mean) p * #(fst p)) l (ra_iycm acc) /\
    (forall p, In p l ->
       grid_get (ra_TR acc') (fst p) (snd p) = Some ((reduced_value ev gen_mean) p)) /\
    (forall p, ~ In p l ->
       grid_get (ra_TR acc') (fst p) (snd p)
       = grid_get (ra_TR acc) (fst p) (snd p)).
Proof.
  intros HA HB. induction l as [|q l IH]; intros Hin acc Hwf.
  - exists acc. simpl. split; [reflexivity|]. split; [exact Hwf|].
    repeat (split; [reflexivity|]). split; [intros p []|reflexivity].
  - assert (Hq : in_grid n (fst q) (snd q)) by (apply Hin; left; reflexivity).
    destruct (grid_get_wf n _ _ _ HA Hq) as [a Ha].
    destruct (grid_get_wf n _ _ _ HB Hq) as [b Hb].
    destruct (grid_modify_wf (fun _ => (reduced_value ev gen_mean) q) n _ _ _ Hwf Hq)
      as (g1 & Hg1 & Hwf1 & Hsame & Hother).
    destruct (grid_get_wf n _ _ _ Hwf Hq) as [old Hold].
    specialize (Hsame old Hold).
    assert (Hstep : (reduced_body ev gen_mean) acc q = Some
              {| ra_TR := g1;
                 ra_sum := ra_sum acc + (reduced_value ev gen_mean) q;
                 ra_ixcm := ra_ixcm acc + (reduced_value ev gen_mean) q * #(snd q);
                 ra_iycm := ra_iycm acc + (reduced_value ev gen_mean) q * #(fst q) |}).
    { unfold reduced_body, reduced_cell, grid_set.
      rewrite Ha, Hb.
      assert (Hval : norm_ ev * gen_mean a b = (reduced_value ev gen_mean) q).
      { unfold reduced_value, grid_at. rewrite Ha, Hb. reflexivity. }
      rewrite Hval, Hg1. reflexivity. }
    destruct (IH (fun p Hp => Hin p (or_intror Hp))
                {| ra_TR := g1;
                   ra_sum := ra_sum acc + (reduced_value ev gen_mean) q;
                   ra_ixcm := ra_ixcm acc + (reduced_value ev gen_mean) q * #(snd q);
                   ra_iycm := ra_iycm acc + (reduced_value ev gen_mean) q * #(fst q) |}
                Hwf1)
      as (acc' & Hfold & Hwf' & Hsum & Hix & Hiy & Hset & Hkeep).
    exists acc'. simpl. rewrite Hstep. split; [exact Hfold|].
    split; [exact Hwf'|]. simpl in *.
    split; [exact Hsum|]. split; [exact Hix|]. split; [exact Hiy|]. split.
    + intros p [Hp | Hp]; [subst p | auto].
      destruct (in_dec index_eq_dec q l) as [Hql|Hql]; [auto|].
      rewrite (Hkeep q Hql). exact Hsame.
    + intros p Hp. rewrite (Hkeep p) by tauto.
      apply Hother. intros Heq. apply Hp. left.
      destruct p, q; simpl in *. symmetry. exact Heq.
Qed.

Lemma grid_indices_in_grid (n : Z) (p : Z * Z) :
  In p (grid_indices n) <-> in_grid n (fst p) (snd p).
Proof.
  destruct p as [iy ix]. unfold grid_indices, in_grid.
  rewrite rect_indices_In, !range_upto_In. reflexivity.
Qed.

(** The whole double loop, for grids of the event's extents. *)
Lemma reduced_loop_spec :
  grid_wf (nsteps_ ev) (TA_ ev) -> grid_wf (nsteps_ ev) (TB_ ev) ->
  grid_wf (nsteps_ ev) (TR_ ev) ->
  exists acc, reduced_loop ev gen_mean = Some acc /\
    grid_wf (nsteps_ ev) (ra_TR acc) /\
    (forall iy ix, in_grid (nsteps_ ev) iy ix ->
       grid_get (ra_TR acc) iy ix = Some ((reduced_value ev gen_mean) (iy, ix))) /\
    concat (ra_TR acc) = map (reduced_value ev gen_mean) (grid_indices (nsteps_ ev)) /\
    ra_sum acc = grid_sum (ra_TR acc) /\
    ra_ixcm acc =
      fold_left (fun s p => s + (reduced_value ev gen_mean) p * #(snd p))
        (grid_indices (nsteps_ ev)) #0 /\
    ra_iycm acc =
      fold_left (fun s p => s + (reduced_value ev gen_mean) p * #(fst p))
        (grid_indices (nsteps_ ev)) #0.
Proof.
  intros HA HB HR. unfold reduced_loop. rewrite loop2_flat.
  destruct (reduced_fold (nsteps_ ev) (grid_indices (nsteps_ ev)) HA HB
              (fun p Hp => proj1 (grid_indices_in_grid _ p) Hp)
              {| ra_TR := TR_ ev; ra_sum := #0; ra_ixcm := #0; ra_iycm := #0 |}
              HR)
    as (acc & Hfold & Hwf & Hsum & Hix & Hiy & Hset & _).
  unfold reduced_body in Hfold. simpl in Hsum, Hix, Hiy.
  exists acc. split; [exact Hfold|]. split; [exact Hwf|].
  split.
  { intros iy ix Hin. apply (Hset (iy, ix)).
    apply grid_indices_in_grid. exact Hin. }
  assert (Hcells : concat (ra_TR acc)
                   = map (reduced_value ev gen_mean) (grid_indices (nsteps_ ev))).
  { rewrite <- (grid_cells_concat _ _ Hwf). apply map_ext_in.
    intros p Hp. unfold grid_at. rewrite (Hset p Hp). reflexivity. }
  split; [exact Hcells|]. split; [|split; assumption].
  unfold grid_sum. rewrite Hcells. exact Hsum.
Qed.

End ReducedFacts.


Section ThicknessFacts.

Context {D : Type} {AD : Arith D}.
Local Open Scope dbl_scope.

Variable ev : Event D.
Variable nucleon_common : NucleonCommon D.

Lemma index_of_range (coord : D) :
  0 < nsteps_ ev -> 0 <= index_of ev coord <= nsteps_ ev - 1.
Proof. intros Hn. unfold index_of. apply clip_range. lia. Qed.

Lemma support_rect_range (nucleon : NucleonData D) :
  0 < nsteps_ ev ->
  let '(ixmin, ixmax, iymin, iymax) :=
    support_rect ev nucleon_common nucleon in
  0 <= ixmin <= nsteps_ ev - 1 /\ 0 <= ixmax <= nsteps_ ev - 1 /\
  0 <= iymin <= nsteps_ ev - 1 /\ 0 <= iymax <= nsteps_ ev - 1.
Proof.
  intros Hn. unfold support_rect.
  destruct (boundary nucleon_common nucleon) as [[[xmin xmax] ymin] ymax].
  repeat split; apply index_of_range; exact Hn.
Qed.

Lemma in_rect_indices (ixmin ixmax iymin iymax iy ix : Z) :
  In (iy, ix) (rect_indices (range_incl iymin iymax) (range_incl ixmin ixmax))
  <-> in_rect (ixmin, ixmax, iymin, iymax) iy ix = true.
Proof.
  rewrite rect_indices_In, !range_incl_In. unfold in_rect.
  rewrite !andb_true_iff, !Z.leb_le. tauto.
Qed.

(** The cells of a rectangle inside the grid each receive the thickness
    once; the other cells keep their value. *)
Lemma deposit_cells (nucleon : NucleonData D) (l : list (Z * Z)) :
  NoDup l ->
  (forall p, In p l -> in_grid (nsteps_ ev) (fst p) (snd p)) ->
  forall TX, grid_wf (nsteps_ ev) TX ->
  exists TX',
    foldM (fun g p => deposit_cell ev nucleon_common nucleon g (fst p) (snd p))
      l TX = Some TX' /\
    grid_wf (nsteps_ ev) TX' /\
    (forall iy ix v, grid_get TX iy ix = Some v ->
       (In (iy, ix) l ->
        grid_get TX' iy ix =
        Some (v + thickness nucleon_common nucleon
                    (cell_center ev ix) (cell_center ev iy))) /\
       (~ In (iy, ix) l -> grid_get TX' iy ix = Some v)).
Proof.
  intros Hnd. induction Hnd as [|q l Hq Hnd IH]; intros Hin TX Hwf.
  - exists TX. simpl. split; [reflexivity|]. split; [exact Hwf|].
    intros iy ix v Hv. split; [intros []|intros _; exact Hv].
  - assert (Hqin : in_grid (nsteps_ ev) (fst q) (snd q))
      by (apply Hin; left; reflexivity).
    destruct (grid_modify_wf
                (fun old => old + thickness nucleon_common nucleon
                                    (cell_center ev (snd q))
                                    (cell_center ev (fst q)))
                _ _ _ _ Hwf Hqin)
      as (g1 & Hg1 & Hwf1 & Hsame & Hother).
    destruct (IH (fun p Hp => Hin p (or_intror Hp)) g1 Hwf1)
      as (TX' & Hfold & Hwf' & Hcells).
    exists TX'. simpl foldM. unfold deposit_cell at 1, grid_add. rewrite Hg1.
    split; [exact Hfold|]. split; [exact Hwf'|].
    intros iy ix v Hv.
    destruct (index_eq_dec q (iy, ix)) as [Heq | Hne].
    + subst q. simpl in *. split.
      * intros _. apply (Hcells iy ix _ (Hsame v Hv)). exact Hq.
      * intros Hl. exfalso. apply Hl. left. reflexivity.
    + assert (Hv1 : grid_get g1 iy ix = Some v).
      { rewrite Hother; [exact Hv|]. intros Heq. apply Hne.
        destruct q; simpl in *. symmetry. exact Heq. }
      destruct (Hcells iy ix v Hv1) as [Hyes Hno]. split.
      * intros [Hl|Hl]; [contradiction | exact (Hyes Hl)].
      * intros Hl. apply Hno. intros Hl'. apply Hl. right. exact Hl'.
Qed.

(** One iteration of the loop over the nucleons. *)
Lemma deposit_nucleon_spec (nucleon : NucleonData D) (TX : Grid D) (np : Z) :
  0 < nsteps_ ev -> grid_wf (nsteps_ ev) TX ->
  exists TX',
    deposit_nucleon ev nucleon_common (TX, np) nucleon
    = Some (TX', if is_participant nucleon then np + 1 else np)%Z /\
    grid_wf (nsteps_ ev) TX' /\
    (forall iy ix v, grid_get TX iy ix = Some v ->
       grid_get TX' iy ix
       = Some (deposited ev nucleon_common iy ix v nucleon)).
Proof.
  intros Hn Hwf. unfold deposit_nucleon, deposited.
  destruct (is_participant nucleon); simpl.
  - pose proof (support_rect_range nucleon Hn) as Hr.
    unfold support_rect in *.
    destruct (boundary nucleon_common nucleon) as [[[xmin xmax] ymin] ymax].
    fold (index_of ev xmin) (index_of ev xmax) (index_of ev ymin)
      (index_of ev ymax) in *.
    destruct Hr as (Hx1 & Hx2 & Hy1 & Hy2).
    rewrite loop2_flat.
    destruct (deposit_cells nucleon
                (rect_indices
                   (range_incl (index_of ev ymin) (index_of ev ymax))
                   (range_incl (index_of ev xmin) (index_of ev xmax))))
      with (TX := TX) as (TX' & Hfold & Hwf' & Hcells).
    + apply rect_indices_NoDup; apply range_incl_NoDup.
    + intros [iy ix] Hp. apply rect_indices_In in Hp.
      rewrite !range_incl_In in Hp. unfold in_grid. simpl. lia.
    + exact Hwf.
    + exists TX'. rewrite Hfold. split; [reflexivity|].
      split; [exact Hwf'|]. intros iy ix v Hv.
      destruct (Hcells iy ix v Hv) as [Hyes Hno].
      destruct (in_rect (index_of ev xmin, index_of ev xmax,
                         index_of ev ymin, index_of ev ymax) iy ix) eqn:Hr.
      * apply Hyes. apply in_rect_indices. exact Hr.
      * apply Hno. rewrite in_rect_indices. congruence.
  - exists TX. auto.
Qed.

(** The loop over the nucleons, from any grid of the right extents. *)
Lemma deposit_nucleus_spec (nucleus : Nucleus D) :
  0 < nsteps_ ev ->
  forall TX np, grid_wf (nsteps_ ev) TX ->
  exists TX',
    foldM (deposit_nucleon ev nucleon_common) nucleus (TX, np)
    = Some (TX', np + count_participants nucleus)%Z /\
    grid_wf (nsteps_ ev) TX' /\
    (forall iy ix v, grid_get TX iy ix = Some v ->
       grid_get TX' iy ix
       = Some (fold_left (deposited ev nucleon_common iy ix) nucleus v)).
Proof.
  intros Hn. unfold count_participants.
  induction nucleus as [|nucleon nucleus IH]; intros TX np Hwf.
  - exists TX. simpl. rewrite Z.add_0_r. auto.
  - destruct (deposit_nucleon_spec nucleon TX np Hn Hwf)
      as (TX1 & Hstep & Hwf1 & Hcells1).
    destruct (IH TX1 (if is_participant nucleon then np + 1 else np)%Z Hwf1)
      as (TX' & Hfold & Hwf' & Hcells).
    exists TX'. rewrite foldM_cons, Hstep, Hfold. split.
    + f_equal. f_equal. simpl.
      destruct (is_participant nucleon); simpl length; lia.
    + split; [exact Hwf'|]. intros iy ix v Hv. simpl.
      apply Hcells. apply Hcells1. exact Hv.
Qed.

End ThicknessFacts.

(** ** The two instances and the order of their values *)

#[export] Instance F64_order : ArithOrder float.
Proof.
  constructor. intros p. simpl. rewrite !FloatAxioms.ltb_spec.
  change (Prim2SF (F64ops.of_int 0)) with (S754_zero false).
  destruct (Prim2SF p) as [s|s| |s m e]; try destruct s;
    simpl; intros H; try discriminate H; reflexivity.
Qed.

Lemma Rltb_true (a b : R) : Rops.ltb a b = true <-> (a < b)%R.
Proof.
  unfold Rops.ltb. destruct (Rlt_dec a b); split; intros H;
    try discriminate; try reflexivity; try assumption; contradiction.
Qed.

Lemma Rltb_false (a b : R) : Rops.ltb a b = false <-> (b <= a)%R.
Proof.
  unfold Rops.ltb. destruct (Rlt_dec a b); split; intros H;
    try discriminate; try reflexivity; lra.
Qed.

#[export] Instance R_order : ArithOrder R.
Proof.
  constructor. intros p. simpl. rewrite Rltb_true, Rltb_false. lra.
Qed.

(** ** Rounding of real numbers to integers *)

Lemma Rfloor_IZR (z : Z) : Rops.floor (IZR z) = z.
Proof.
  unfold Rops.floor. symmetry. apply Int_part_spec. lra.
Qed.

Lemma Rceil_is_ceil (q : R) : is_ceil (Rops.ceilZ q) q.
Proof.
  unfold is_ceil, Rops.ceilZ, Rops.floor.
  destruct (base_Int_part (- q)) as [H1 H2].
  rewrite opp_IZR. lra.
Qed.

Lemma Rtrunc_IZR (z : Z) : Rops.trunc (IZR z) = z.
Proof.
  unfold Rops.trunc, Rops.ceilZ.
  destruct (Rle_dec 0 (IZR z)).
  - apply Rfloor_IZR.
  - rewrite <- opp_IZR, Rfloor_IZR. lia.
Qed.

(** The conversion truncates what fits the 32-bit [int] ... *)
Lemma Rto_int_fits (x : R) :
  -2147483648 <= Rops.trunc x < 2147483648 ->
  Rops.to_int x = Rops.trunc x.
Proof.
  intros [Hlo Hhi]. unfold Rops.to_int. cbv zeta.
  change F64ops.INT_MIN with (-2147483648). change (2 ^ 31) with 2147483648.
  rewrite (proj2 (Z.leb_le _ _) Hlo), (proj2 (Z.ltb_lt _ _) Hhi).
  reflexivity.
Qed.

(** ... and gives INT_MIN for what does not. *)
Lemma Rto_int_overflow (x : R) :
  2147483648 <= Rops.trunc x -> Rops.to_int x = -2147483648.
Proof.
  intros Hhi. unfold Rops.to_int. cbv zeta.
  change F64ops.INT_MIN with (-2147483648). change (2 ^ 31) with 2147483648.
  rewrite (proj2 (Z.ltb_ge _ _) Hhi), andb_false_r.
  reflexivity.
Qed.

Lemma Rto_int_IZR (z : Z) :
  -2147483648 <= z < 2147483648 -> Rops.to_int (IZR z) = z.
Proof.
  intros Hz. rewrite Rto_int_fits; rewrite Rtrunc_IZR; [reflexivity|exact Hz].
Qed.

(** ** The angle of a point: atan2 and polar coordinates *)

Section Polar.

Local Open Scope R_scope.

Lemma sqrt_sum_squares_factor (X Y : R) :
  X <> 0 -> sqrt (X * X + Y * Y) = Rabs X * sqrt (1 + (Y / X)²).
Proof.
  intros HX.
  replace (X * X + Y * Y) with (X² * (1 + (Y / X)²))
    by (unfold Rsqr; field; exact HX).
  rewrite sqrt_mult.
  - rewrite sqrt_Rsqr_abs. reflexivity.
  - apply Rle_0_sqr.
  - pose proof (Rle_0_sqr (Y / X)). lra.
Qed.

Lemma sqrt_one_plus_sqr_pos (u : R) : 0 < sqrt (1 + u²).
Proof. apply sqrt_lt_R0. pose proof (Rle_0_sqr u). lra. Qed.

(** With r = sqrt(X^2 + Y^2) and a = atan2(Y, X): r cos a = X, r sin a = Y. *)
Lemma atan2_polar (Y X : R) :
  sqrt (X * X + Y * Y) * cos (Rops.atan2 Y X) = X /\
  sqrt (X * X + Y * Y) * sin (Rops.atan2 Y X) = Y.
Proof.
  unfold Rops.atan2.
  pose proof (sqrt_one_plus_sqr_pos (Y / X)) as Hq.
  destruct (Rlt_dec 0 X) as [Hpos|Hnpos].
  - rewrite sqrt_sum_squares_factor by lra.
    rewrite cos_atan, sin_atan, Rabs_pos_eq by lra.
    split; field; lra.
  - destruct (Rlt_dec X 0) as [Hneg|Hnneg].
    + rewrite sqrt_sum_squares_factor by lra.
      rewrite Rabs_left by lra.
      destruct (Rle_dec 0 Y).
      * rewrite neg_cos, neg_sin, cos_atan, sin_atan. split; field; lra.
      * unfold Rminus. rewrite cos_plus, sin_plus, cos_neg, sin_neg.
        rewrite cos_PI, sin_PI, cos_atan, sin_atan. split; field; lra.
    + assert (HX : X = 0) by lra. subst X.
      replace (0 * 0 + Y * Y) with (Y * Y) by ring.
      destruct (Rlt_dec 0 Y) as [HY|HY].
      * rewrite sqrt_square by lra. rewrite cos_PI2, sin_PI2. lra.
      * destruct (Rlt_dec Y 0) as [HY'|HY'].
        -- replace (Y * Y) with (- Y * - Y) by ring.
           rewrite sqrt_square by lra.
           rewrite cos_neg, sin_neg, cos_PI2, sin_PI2. lra.
        -- assert (HY0 : Y = 0) by lra. subst Y.
           rewrite Rmult_0_l, sqrt_0. lra.
Qed.

End Polar.

(** ** Multiple-angle formulas *)

Section MultipleAngle.

Local Open Scope R_scope.

Variable a : R.

Lemma cos_3a : cos (3 * a) = cos a ^ 3 - 3 * cos a * sin a ^ 2.
Proof.
  replace (3 * a) with (2 * a + a) by ring.
  rewrite cos_plus, cos_2a, sin_2a. ring.
Qed.

Lemma sin_3a : sin (3 * a) = 3 * cos a ^ 2 * sin a - sin a ^ 3.
Proof.
  replace (3 * a) with (2 * a + a) by ring.
  rewrite sin_plus, cos_2a, sin_2a. ring.
Qed.

Lemma cos_4a : cos (4 * a) = cos a ^ 4 - 6 * cos a ^ 2 * sin a ^ 2 + sin a ^ 4.
Proof.
  replace (4 * a) with (2 * (2 * a)) by ring.
  rewrite cos_2a, cos_2a, sin_2a. ring.
Qed.

Lemma sin_4a : sin (4 * a) = 4 * sin a * cos a * (cos a ^ 2 - sin a ^ 2).
Proof.
  replace (4 * a) with (2 * (2 * a)) by ring.
  rewrite sin_2a, cos_2a, sin_2a. ring.
Qed.

Lemma cos_5a :
  cos (5 * a) = cos a ^ 5 - 10 * cos a ^ 3 * sin a ^ 2 + 5 * cos a * sin a ^ 4.
Proof.
  replace (5 * a) with (4 * a + a) by ring.
  rewrite cos_plus, cos_4a, sin_4a. ring.
Qed.

Lemma sin_5a :
  sin (5 * a) = 5 * cos a ^ 4 * sin a - 10 * cos a ^ 2 * sin a ^ 3 + sin a ^ 5.
Proof.
  replace (5 * a) with (4 * a + a) by ring.
  rewrite sin_plus, cos_4a, sin_4a. ring.
Qed.

End MultipleAngle.

(** The polynomial terms of the source are the real and imaginary parts of
    t (y + i x)^n: in polar form, with the angle counted from the y axis. *)
Lemma moment_terms_polar (n : Order) (t x y r c s : R) :
  (r * c = y)%R -> (r * s = x)%R ->
  re_term n t (powers_of x y)
  = (t * r ^ Z.to_nat (order_num n)
     * match n with
       | n2 => c ^ 2 - s ^ 2
       | n3 => c ^ 3 - 3 * c * s ^ 2
       | n4 => c ^ 4 - 6 * c ^ 2 * s ^ 2 + s ^ 4
       | n5 => c ^ 5 - 10 * c ^ 3 * s ^ 2 + 5 * c * s ^ 4
       end)%R /\
  im_term n t (powers_of x y)
  = (t * r ^ Z.to_nat (order_num n)
     * match n with
       | n2 => 2 * s * c
       | n3 => 3 * c ^ 2 * s - s ^ 3
       | n4 => 4 * s * c * (c ^ 2 - s ^ 2)
       | n5 => 5 * c ^ 4 * s - 10 * c ^ 2 * s ^ 3 + s ^ 5
       end)%R.
Proof.
  intros Hy Hx. subst x y. destruct n; simpl; split; ring.
Qed.

(** What the polynomial terms are, in real arithmetic: the parts of
    t (y + i x)^n, that is t r^n cos(n psi) and t r^n sin(n psi) for the
    angle psi = atan2(x, y) counted from the y axis. *)
Lemma moment_terms_trig (n : Order) (t x y : R) :
  re_term n t (powers_of x y) = trig_re n t (radius x y) (Rops.atan2 x y) /\
  im_term n t (powers_of x y) = trig_im n t (radius x y) (Rops.atan2 x y).
Proof.
  destruct (atan2_polar x y) as [Hy Hx].
  replace (y * y + x * x)%R with (x * x + y * y)%R in Hy, Hx by ring.
  fold (radius x y) in Hy, Hx.
  destruct (moment_terms_polar n t x y _ _ _ Hy Hx) as [Hre Him].
  rewrite Hre, Him. unfold trig_re, trig_im.
  destruct n; simpl order_num.
  - rewrite cos_2a, sin_2a. split; ring.
  - rewrite cos_3a, sin_3a. split; ring.
  - rewrite cos_4a, sin_4a. split; ring.
  - rewrite cos_5a, sin_5a. split; ring.
Qed.

(** ** The passes of compute_observables *)

Section PassFacts.

Context {D : Type} {AD : Arith D}.
Local Open Scope dbl_scope.

Variable ev : Event D.

(** A loop that reads a cell and may skip it is a fold over the cells that
    are not skipped. *)
Lemma pass_fold (step : Harmonics D -> Z -> Z -> D -> Harmonics D)
  (l : list (Z * Z)) (h : Harmonics D) :
  grid_wf (nsteps_ ev) (TR_ ev) ->
  (forall p, In p l -> in_grid (nsteps_ ev) (fst p) (snd p)) ->
  foldM (fun h p => pass_cell ev step h (fst p) (snd p)) l h
  = Some (fold_left (on_cell step)
            (filter included
               (map (fun p => (p, grid_at (TR_ ev) (fst p) (snd p))) l)) h).
Proof.
  intros Hwf. revert h. induction l as [|p l IH]; intros h Hin.
  - reflexivity.
  - destruct (grid_get_wf _ _ _ _ Hwf (Hin p (or_introl eq_refl))) as [t Ht].
    assert (Hat : grid_at (TR_ ev) (fst p) (snd p) = t)
      by (unfold grid_at; rewrite Ht; reflexivity).
    rewrite foldM_cons. unfold pass_cell at 1. rewrite Ht.
    change (map ?f (p :: l)) with (f p :: map f l). cbv beta.
    rewrite Hat.
    change (filter included ((p, t) :: ?m))
      with (if included (p, t) then (p, t) :: filter included m
            else filter included m).
    unfold included at 1, cell_value at 1.
    change (snd (p, t)) with t.
    destruct (t <? TINY); simpl negb; cbv iota.
    + apply IH. intros q Hq. apply Hin. right. exact Hq.
    + change (fold_left ?f ((p, t) :: ?m) h) with (fold_left f m (f h (p, t))).
      unfold on_cell at 2, cell_value.
      change (fst (p, t)) with p. change (snd (p, t)) with t.
      apply IH. intros q Hq. apply Hin. right. exact Hq.
Qed.

Lemma pass_spec (step : Harmonics D -> Z -> Z -> D -> Harmonics D) :
  grid_wf (nsteps_ ev) (TR_ ev) ->
  pass ev step
  = Some (fold_left (on_cell step) (included_cells ev) harmonics0).
Proof.
  intros Hwf. unfold pass. rewrite loop2_flat.
  apply (pass_fold step (grid_indices (nsteps_ ev)) harmonics0 Hwf).
  intros p Hp. apply grid_indices_in_grid. exact Hp.
Qed.

Lemma included_not_below (c : Cell D) (l : list (Cell D)) :
  In c (filter included l) -> (cell_value c <? TINY) = false.
Proof.
  intros Hc. apply filter_In in Hc. destruct Hc as [_ Hc].
  unfold included in Hc. apply negb_true_iff in Hc. exact Hc.
Qed.

Context {L : Libm D}.

(** The accumulators after the first and the third pass over cells [l]. *)
Lemma sum_step_fold (total : bool) (l : list (Cell D)) (h : Harmonics D)
  (n : Order) :
  let step := if total then radius_step ev else ecc_step ev in
  let h' := fold_left (on_cell step) l h in
  re (acc_of h' n)
  = fold_left (fun s c => s + cell_re ev n c) l (re (acc_of h n)) /\
  im (acc_of h' n)
  = fold_left (fun s c => s + cell_im ev n c) l (im (acc_of h n)) /\
  wt (acc_of h' n)
  = fold_left (fun s c => s + cell_wt ev n c) l (wt (acc_of h n)) /\
  hS h'
  = fold_left (fun s c => s + d_pow (cell_value c) (#4 / #3)) l (hS h) /\
  hT h'
  = if total then fold_left (fun s c => s + cell_value c) l (hT h)
    else hT h.
Proof.
  revert h. induction l as [|c l IH]; intros h; simpl.
  - destruct total; repeat split.
  - specialize (IH (on_cell (if total then radius_step ev else ecc_step ev)
                      h c)).
    simpl in IH. destruct IH as (Hre & Him & Hwt & HS & HT).
    rewrite Hre, Him, Hwt, HS, HT.
    destruct total, n; repeat split.
Qed.


End PassFacts.

(** ** Moduli of the moments, in real arithmetic *)

(** The written-out terms are the terms the loop bodies add. *)
Lemma moment_terms_model {D : Type} {AD : Arith D} (n : Order) (t x y : D) :
  re_term n t (powers_of x y) = moment_re n t x y /\
  im_term n t (powers_of x y) = moment_im n t x y /\
  wt_term n t (powers_of x y) = moment_wt n t x y.
Proof. destruct n; repeat split. Qed.

Section Moduli.

Local Open Scope R_scope.

(** A cell contributes a complex term of modulus t r^n, its weight. *)
Lemma term_modulus (n : Order) (t x y : R) :
  re_term n t (powers_of x y) * re_term n t (powers_of x y)
  + im_term n t (powers_of x y) * im_term n t (powers_of x y)
  = wt_term n t (powers_of x y) * wt_term n t (powers_of x y).
Proof.
  assert (Hr : sqrt (x * x + y * y) * sqrt (x * x + y * y) = x * x + y * y)
    by (apply sqrt_sqrt; nra).
  destruct n; simpl.
  - ring.
  - replace (t * (x * x + y * y) * sqrt (x * x + y * y)
             * (t * (x * x + y * y) * sqrt (x * x + y * y)))
      with (t * t * (x * x + y * y) * (x * x + y * y)
            * (sqrt (x * x + y * y) * sqrt (x * x + y * y))) by ring.
    rewrite Hr. ring.
  - ring.
  - replace (t * ((x * x + y * y) * (x * x + y * y)) * sqrt (x * x + y * y)
             * (t * ((x * x + y * y) * (x * x + y * y))
                * sqrt (x * x + y * y)))
      with (t * t * (x * x + y * y) * (x * x + y * y)
            * (x * x + y * y) * (x * x + y * y)
            * (sqrt (x * x + y * y) * sqrt (x * x + y * y))) by ring.
    rewrite Hr. ring.
Qed.

Lemma wt_term_nonneg (n : Order) (t x y : R) :
  0 <= t -> 0 <= wt_term n t (powers_of x y).
Proof.
  intros Ht.
  assert (H2 : 0 <= x * x + y * y) by nra.
  pose proof (sqrt_pos (x * x + y * y)) as Hs.
  destruct n; simpl.
  - apply Rmult_le_pos; assumption.
  - repeat apply Rmult_le_pos; assumption.
  - repeat apply Rmult_le_pos; assumption.
  - repeat apply Rmult_le_pos; assumption.
Qed.

(** The weight is t r^n for the distance r of the cell from the centroid. *)
Lemma wt_term_power (n : Order) (t x y : R) :
  wt_term n t (powers_of x y) = t * radius x y ^ Z.to_nat (order_num n).
Proof.
  unfold radius.
  assert (Hr : sqrt (x * x + y * y) * sqrt (x * x + y * y) = x * x + y * y)
    by (apply sqrt_sqrt; nra).
  destruct n; simpl; set (r := sqrt (x * x + y * y)) in *; rewrite <- Hr;
    ring.
Qed.

(** In real arithmetic the written-out weight is t r^n. *)
Lemma moment_wt_power (n : Order) (t x y : R) :
  moment_wt n t x y = t * radius x y ^ Z.to_nat (order_num n).
Proof.
  rewrite <- (proj2 (proj2 (moment_terms_model n t x y))).
  apply wt_term_power.
Qed.

(** Triangle inequality, squared: adding a term of modulus M to a moment
    of modulus at most W gives a moment of modulus at most W + M. *)
Lemma modulus_add (a b W A B M : R) :
  0 <= W -> 0 <= M -> a * a + b * b <= W * W -> A * A + B * B = M * M ->
  (a + A) * (a + A) + (b + B) * (b + B) <= (W + M) * (W + M).
Proof.
  intros HW HM Hab HAB.
  assert (Hcs : a * A + b * B <= W * M).
  { destruct (Rle_dec (a * A + b * B) 0) as [Hneg|Hpos].
    - pose proof (Rmult_le_pos W M HW HM). lra.
    - apply Rnot_le_lt in Hpos.
      assert (Hsq : (a * A + b * B) * (a * A + b * B) <= (W * M) * (W * M)).
      { assert (H1 : (a * A + b * B) * (a * A + b * B)
                     <= (a * a + b * b) * (A * A + B * B))
          by (pose proof (Rle_0_sqr (a * B - b * A)) as Hs;
              unfold Rsqr in Hs; nra).
        assert (H2 : (a * a + b * b) * (A * A + B * B) <= (W * W) * (M * M)).
        { rewrite HAB. apply Rmult_le_compat_r; [nra | exact Hab]. }
        lra. }
      pose proof (Rmult_le_pos W M HW HM) as HWM.
      apply Rsqr_incr_0_var; [|exact HWM]. unfold Rsqr. exact Hsq. }
  nra.
Qed.

End Moduli.

Section EccentricityBound.

Local Open Scope R_scope.

Variable ev : Event R.

Lemma TINY_pos : 0 < (TINY : R).
Proof.
  unfold TINY. simpl. lra.
Qed.

Lemma included_nonneg (c : Cell R) (l : list (Cell R)) :
  In c (filter included l) -> 0 <= cell_value c.
Proof.
  intros Hc. apply included_not_below in Hc. simpl in Hc.
  apply Rltb_false in Hc. pose proof TINY_pos. lra.
Qed.

(** The modulus of the accumulated moment never exceeds the accumulated
    weight. *)
Lemma moment_bound (n : Order) (l : list (Cell R)) :
  (forall c, In c l -> 0 <= cell_value c) ->
  forall a b W, 0 <= W -> a * a + b * b <= W * W ->
  let a' := fold_left (fun s c => (s + cell_re ev n c)%D) l a in
  let b' := fold_left (fun s c => (s + cell_im ev n c)%D) l b in
  let W' := fold_left (fun s c => (s + cell_wt ev n c)%D) l W in
  0 <= W' /\ a' * a' + b' * b' <= W' * W'.
Proof.
  induction l as [|c l IH]; intros Hl a b W HW Hab; simpl.
  - split; assumption.
  - assert (Hc : 0 <= cell_value c) by (apply Hl; left; reflexivity).
    pose proof (wt_term_nonneg n (cell_value c)
                  (IZR (snd (fst c)) - ixcm_ ev)
                  (IZR (fst (fst c)) - iycm_ ev) Hc) as HM.
    pose proof (term_modulus n (cell_value c)
                  (IZR (snd (fst c)) - ixcm_ ev)
                  (IZR (fst (fst c)) - iycm_ ev)) as Hmod.
    destruct (moment_terms_model n (cell_value c)
                (IZR (snd (fst c)) - ixcm_ ev)
                (IZR (fst (fst c)) - iycm_ ev)) as (Er & Ei & Ew).
    rewrite Ew in HM. rewrite Er, Ei, Ew in Hmod.
    apply IH.
    + intros c' Hc'. apply Hl. right. exact Hc'.
    + change (0 <= W + moment_wt n (cell_value c)
                       (IZR (snd (fst c)) - ixcm_ ev)
                       (IZR (fst (fst c)) - iycm_ ev)).
      lra.
    + apply modulus_add; assumption.
Qed.

Lemma ecc_finish_bound (a : Accumulator R) :
  0 <= wt a -> re a * re a + im a * im a <= wt a * wt a ->
  0 <= ecc_finish a <= 1.
Proof.
  intros HW Hab. unfold ecc_finish. simpl.
  pose proof TINY_pos as HT.
  assert (Hmax : 0 < Rmax (wt a) TINY)
    by (pose proof (Rmax_r (wt a) TINY); lra).
  assert (Hs : sqrt (re a * re a + im a * im a) <= wt a).
  { rewrite <- (sqrt_square (wt a)) by exact HW.
    apply sqrt_le_1_alt. exact Hab. }
  pose proof (sqrt_pos (re a * re a + im a * im a)) as Hs0.
  pose proof (Rmax_l (wt a) TINY) as Hl.
  split.
  - unfold Rdiv. apply Rmult_le_pos; [exact Hs0|].
    left. apply Rinv_0_lt_compat. exact Hmax.
  - apply (Rmult_le_reg_r (Rmax (wt a) TINY)); [exact Hmax|].
    unfold Rdiv. rewrite Rmult_assoc, Rinv_l by lra. lra.
Qed.

End EccentricityBound.

(** ** The observable vector *)

Section ObservableFacts.

Context {D : Type} {AD : Arith D} {L : Libm D}.

Variable ev : Event D.

(** compute_observables runs the three passes and stores the observables
    of [observable_layout], the first statement first. *)
Lemma compute_observables_spec :
  grid_wf (nsteps_ ev) (TR_ ev) ->
  exists e a R,
    pass ev (ecc_step ev) = Some e /\
    pass ev (angle_step ev) = Some a /\
    pass ev (radius_step ev) = Some R /\
    compute_observables ev
    = Some (set_eccentricity ev
              (rev (map (fun ko => (fst ko, observable_value ev e a R (snd ko)))
                      observable_layout)
               ++ eccentricity_ ev)).
Proof.
  intros Hwf. unfold compute_observables.
  rewrite !pass_spec by exact Hwf.
  eexists. eexists. eexists.
  split; [reflexivity|]. split; [reflexivity|]. split; [reflexivity|].
  reflexivity.
Qed.

Lemma observable_layout_slots :
  map fst observable_layout = [2; 3; 4; 5; 6; 7; 8; 9; 10; 11].
Proof. reflexivity. Qed.

(** Every slot of the layout holds, after the pass, the observable the
    layout names. *)
Lemma observable_lookup (e a R : Harmonics D) (old : list (Z * D))
  (k : Z) (o : Observable) :
  In (k, o) observable_layout ->
  ecc_lookup k
    (rev (map (fun ko => (fst ko, observable_value ev e a R (snd ko)))
            observable_layout) ++ old)
  = Some (observable_value ev e a R o).
Proof.
  intros Hin. unfold observable_layout in Hin. simpl in Hin.
  repeat (destruct Hin as [Heq | Hin];
          [inversion Heq; subst; reflexivity|]).
  contradiction.
Qed.

End ObservableFacts.

(** ** The extents of the fields are an invariant of the event *)

Section EventInvariant.

Context {D : Type} {AD : Arith D} {L : Libm D}.

Lemma Event_ctor_wf (var_map : VarMap D) : event_wf (Event_ctor var_map).
Proof. repeat split; simpl; apply make_grid_wf. Qed.

(** On a grid that is not empty Event::compute returns, and the fields
    keep their extents: the event can be used again. *)
Lemma compute_preserves_wf (ev : Event D) (nucleusA nucleusB : Nucleus D)
  (nucleon_common : NucleonCommon D) :
  0 < nsteps_ ev -> event_wf ev ->
  exists ev',
    compute ev nucleusA nucleusB nucleon_common = Some ev' /\
    nsteps_ ev' = nsteps_ ev /\ event_wf ev' /\
    npart_ ev' = count_participants nucleusA + count_participants nucleusB.
Proof.
  intros Hn (HA & HB & HR). unfold compute.
  destruct (deposit_nucleus_spec (set_npart ev 0) nucleon_common nucleusA Hn
              (grid_fill (TA_ ev) (#0)%D) 0 (grid_fill_wf _ _ _ HA))
    as (TA & HTA & HwfA & _).
  unfold compute_nuclear_thickness. simpl TA_. simpl npart_.
  rewrite HTA.
  destruct (deposit_nucleus_spec
              (set_TA (set_npart ev 0) TA (0 + count_participants nucleusA))
              nucleon_common nucleusB Hn
              (grid_fill (TB_ ev) (#0)%D) (0 + count_participants nucleusA)
              (grid_fill_wf _ _ _ HB))
    as (TB & HTB & HwfB & _).
  simpl TB_. simpl npart_. rewrite HTB.
  set (ev2 := set_TB (set_TA (set_npart ev 0) TA
                        (0 + count_participants nucleusA)) TB
                (0 + count_participants nucleusA
                 + count_participants nucleusB)).
  destruct (reduced_loop_spec ev2 (gen_mean_ ev2) HwfA HwfB HR)
    as (acc & Hloop & HwfR & _).
  unfold compute_reduced_thickness. rewrite Hloop.
  set (ev3 := set_reduced ev2 (ra_TR acc) _ _ _).
  destruct (compute_observables_spec ev3 HwfR)
    as (e & a & R & _ & _ & _ & Hobs).
  rewrite Hobs. eexists. split; [reflexivity|]. simpl.
  split; [reflexivity|]. split; [|lia].
  repeat split; simpl; first [apply HwfA | apply HwfB | apply HwfR].
Qed.

End EventInvariant.

(** ** Division by zero and the tolerance floor, in binary64 *)

Section FloatFacts.

Local Open Scope float_scope.

Lemma is_zero_spec (s : float) :
  (s =? 0) = true -> exists b, Prim2SF s = S754_zero b.
Proof.
  rewrite FloatAxioms.eqb_spec.
  change (Prim2SF 0) with (S754_zero false).
  destruct (Prim2SF s) as [b|b| |b m e]; try destruct b;
    simpl; intros H; try discriminate H; eauto.
Qed.

(** A quotient by zero is NaN or an infinity, never a finite number. *)
Lemma div_by_zero_not_finite (x s : float) :
  (s =? 0) = true -> is_finite (x / s) = false.
Proof.
  intros Hs. destruct (is_zero_spec s Hs) as [b Hb].
  assert (Hq : x / s = nan \/ x / s = infinity \/ x / s = neg_infinity).
  { pose proof (FloatAxioms.div_spec x s) as Hd. rewrite Hb in Hd.
    destruct (Prim2SF x) as [bx|bx| |bx m e]; simpl in Hd.
    - left. apply Prim2SF_inj. rewrite Hd. reflexivity.
    - right. destruct (xorb bx b); [right|left];
        apply Prim2SF_inj; rewrite Hd; reflexivity.
    - left. apply Prim2SF_inj. rewrite Hd. reflexivity.
    - right. destruct (xorb bx b); [right|left];
        apply Prim2SF_inj; rewrite Hd; reflexivity. }
  destruct Hq as [-> | [-> | ->]]; reflexivity.
Qed.

(** The floored weight fmax(wt, 1e-12) is never zero. *)
Lemma fmax_tiny_not_zero (w : float) :
  (F64ops.fmax w 1e-12 =? 0) = false.
Proof.
  unfold F64ops.fmax.
  destruct (is_nan w) eqn:Hnan; [reflexivity|].
  change (is_nan 1e-12) with false. cbv iota.
  destruct (w <? 1e-12) eqn:Hlt; [reflexivity|].
  unfold is_nan in Hnan. apply negb_false_iff in Hnan.
  rewrite FloatAxioms.eqb_spec in *. rewrite FloatAxioms.ltb_spec in Hlt.
  change (Prim2SF 0) with (S754_zero false).
  revert Hlt. set (tiny := Prim2SF 1e-12). vm_compute in tiny. subst tiny.
  destruct (Prim2SF w) as [b|b| |b m e]; try destruct b;
    simpl; intros H; try discriminate H; try reflexivity;
    simpl in Hnan; discriminate Hnan.
Qed.

End FloatFacts.

(** ** The sample event *)

Lemma sample_grid_wf (g : Grid float) :
  length g = 2%nat ->
  Forall (fun row => length row = 2%nat) g ->
  grid_wf (nsteps_ Sample.event) g.
Proof. intros Hlen Hrows. split; assumption. Defined.

(** ** Running the model in binary64 *)

Example clip_examples :
  clip 5 0 3 = 3 /\ clip (-2) 0 3 = 0 /\ clip 2 0 3 = 2.
Proof. repeat split. Qed.

Example to_int_truncates :
  F64ops.to_int (-3.7)%float = -3 /\ F64ops.to_int 3.7%float = 3 /\
  F64ops.to_int (-0.5)%float = 0 /\ F64ops.to_int 2147483647.5%float = 2147483647.
Proof. repeat split; vm_compute; reflexivity. Qed.

Example ceil_rounds_up :
  F64ops.ceil 3.2%float = 4%float /\ F64ops.ceil (-3.7)%float = (-3)%float /\
  F64ops.ceil 12%float = 12%float /\ F64ops.ceil 1e-320%float = 1%float.
Proof. repeat split; vm_compute; reflexivity. Qed.

(** The first and the third nucleon of the sample are participants: the
    first covers the whole grid, the third its right column. *)
Example sample_thickness :
  compute_nuclear_thickness Sample.event Sample.nucleus Sample.common
    (TA_ Sample.event) 0
  = Some ([[1.5; 3]; [1.5; 3]]%float, 2).
Proof. vm_compute. reflexivity. Qed.

Example sample_reduced_thickness :
  exists ev,
    compute_reduced_thickness geometric_mean Sample.event = Some ev /\
    TR_ ev = [[4; 4.898979485566356]; [4.898979485566356; 4]]%float /\
    ixcm_ ev = 0.5%float /\ iycm_ ev = 0.5%float.
Proof.
  eexists. split; [vm_compute; reflexivity|].
  repeat split; vm_compute; reflexivity.
Qed.


(** * The properties *)

(** C1.  For thickness fields A and B of the event's extents,
    compute_reduced_thickness stores norm * gen_mean(A[iy][ix], B[iy][ix])
    in every cell (ix, iy) of the reduced field, and the multiplicity it
    reports is dxy * dxy times the sum of the cells of that field: summing
    the output field again gives the reported multiplicity.  This holds in
    every arithmetic, binary64 included, the sum being taken in the order
    of the loops. *)
Theorem compute_reduced_thickness_field_and_multiplicity
  {D : Type} {AD : Arith D} (ev : Event D) (gen_mean : D -> D -> D) :
  grid_wf (nsteps_ ev) (TA_ ev) ->
  grid_wf (nsteps_ ev) (TB_ ev) ->
  grid_wf (nsteps_ ev) (TR_ ev) ->
  exists ev',
    compute_reduced_thickness gen_mean ev = Some ev' /\
    (forall iy ix, in_grid (nsteps_ ev) iy ix ->
       exists a b,
         grid_get (TA_ ev) iy ix = Some a /\
         grid_get (TB_ ev) iy ix = Some b /\
         grid_get (TR_ ev') iy ix = Some (norm_ ev * gen_mean a b)%D) /\
    multiplicity_ ev' = (dxy_ ev * dxy_ ev * grid_sum (TR_ ev'))%D.
Proof.
  intros HA HB HR.
  destruct (reduced_loop_spec ev gen_mean HA HB HR)
    as (acc & Hloop & Hwf & Hset & _ & Hsum & _).
  unfold compute_reduced_thickness. rewrite Hloop.
  eexists. split; [reflexivity|]. simpl. split.
  - intros iy ix Hin.
    destruct (grid_get_wf _ _ _ _ HA Hin) as [a Ha].
    destruct (grid_get_wf _ _ _ _ HB Hin) as [b Hb].
    exists a, b. split; [exact Ha|]. split; [exact Hb|].
    rewrite (Hset iy ix Hin). unfold reduced_value, grid_at. simpl.
    rewrite Ha, Hb. reflexivity.
  - rewrite Hsum. reflexivity.
Qed.

Lemma compute_reduced_thickness_field_and_multiplicity_witness :
  exists ev',
    compute_reduced_thickness geometric_mean Sample.event = Some ev' /\
    (forall iy ix, in_grid (nsteps_ Sample.event) iy ix ->
       exists a b,
         grid_get (TA_ Sample.event) iy ix = Some a /\
         grid_get (TB_ Sample.event) iy ix = Some b /\
         grid_get (TR_ ev') iy ix
         = Some (norm_ Sample.event * geometric_mean a b)%D) /\
    multiplicity_ ev'
    = (dxy_ Sample.event * dxy_ Sample.event * grid_sum (TR_ ev'))%D.
Proof.
  apply (compute_reduced_thickness_field_and_multiplicity
           Sample.event geometric_mean);
    apply sample_grid_wf; simpl; repeat constructor.
Defined.

(** C2, as the specification states it, fails in binary64: for two nuclei
    without participants both thickness fields are 0, the reduced-thickness
    sum is 0, the multiplicity is 0, and both centroid coordinates are NaN
    (0/0); no fallback centroid is produced. *)
Lemma zero_sum_centroid_counterexample :
  exists TA TB ev',
    compute_nuclear_thickness Sample.event Sample.spectators Sample.common
      (TA_ Sample.event) 0 = Some (TA, 0) /\
    compute_nuclear_thickness Sample.event Sample.spectators Sample.common
      (TB_ Sample.event) 0 = Some (TB, 0) /\
    compute_reduced_thickness geometric_mean
      (set_TB (set_TA Sample.event TA 0) TB 0) = Some ev' /\
    grid_sum (TR_ ev') = 0%float /\
    multiplicity_ ev' = 0%float /\
    ixcm_ ev' = nan /\
    iycm_ ev' = nan.
Proof.
  eexists. eexists. eexists.
  split; [vm_compute; reflexivity|].
  split; [vm_compute; reflexivity|].
  split; [vm_compute; reflexivity|].
  repeat split; vm_compute; reflexivity.
Qed.

(** C2, amended.  In binary64, if the reduced-thickness sum over all cells
    is zero, compute_reduced_thickness reports the multiplicity
    dxy * dxy * sum and divides by the sum all the same: both centroid
    coordinates are then NaN or infinite, never a finite fallback.  The
    1e-12 floor guards the weight of the eccentricity magnitudes only:
    their denominator fmax(wt, 1e-12) is never zero. *)
Theorem zero_sum_centroid_not_finite
  (ev : Event float) (gen_mean : float -> float -> float) :
  grid_wf (nsteps_ ev) (TA_ ev) ->
  grid_wf (nsteps_ ev) (TB_ ev) ->
  grid_wf (nsteps_ ev) (TR_ ev) ->
  (exists ev',
     compute_reduced_thickness gen_mean ev = Some ev' /\
     multiplicity_ ev' = (dxy_ ev * dxy_ ev * grid_sum (TR_ ev'))%float /\
     ((grid_sum (TR_ ev') =? 0)%float = true ->
      is_finite (ixcm_ ev') = false /\ is_finite (iycm_ ev') = false)) /\
  (forall a : Accumulator float,
     ecc_finish a
     = (PrimFloat.sqrt (re a * re a + im a * im a)
        / F64ops.fmax (wt a) 1e-12)%float /\
     (F64ops.fmax (wt a) 1e-12 =? 0)%float = false).
Proof.
  intros HA HB HR. split.
  - destruct (reduced_loop_spec ev gen_mean HA HB HR)
      as (acc & Hloop & _ & _ & _ & Hsum & _).
    unfold compute_reduced_thickness. rewrite Hloop.
    eexists. split; [reflexivity|]. simpl.
    rewrite Hsum. split; [reflexivity|].
    intros Hz. split; apply div_by_zero_not_finite; exact Hz.
  - intros a. split; [reflexivity | apply fmax_tiny_not_zero].
Qed.

Lemma zero_sum_centroid_not_finite_witness :
  grid_wf (nsteps_ Sample.empty_event) (TA_ Sample.empty_event) /\
  grid_wf (nsteps_ Sample.empty_event) (TB_ Sample.empty_event) /\
  grid_wf (nsteps_ Sample.empty_event) (TR_ Sample.empty_event) /\
  exists ev',
    compute_reduced_thickness geometric_mean Sample.empty_event = Some ev' /\
    multiplicity_ ev'
    = (dxy_ Sample.empty_event * dxy_ Sample.empty_event
       * grid_sum (TR_ ev'))%float /\
    ((grid_sum (TR_ ev') =? 0)%float = true ->
     is_finite (ixcm_ ev') = false /\ is_finite (iycm_ ev') = false).
Proof.
  assert (Hwf : forall g, length g = 2%nat ->
                  Forall (fun row : list float => length row = 2%nat) g ->
                  grid_wf (nsteps_ Sample.empty_event) g)
    by (intros g Hl Hr; split; assumption).
  assert (HA : grid_wf (nsteps_ Sample.empty_event) (TA_ Sample.empty_event))
    by (apply Hwf; simpl; repeat constructor).
  assert (HB : grid_wf (nsteps_ Sample.empty_event) (TB_ Sample.empty_event))
    by (apply Hwf; simpl; repeat constructor).
  assert (HR : grid_wf (nsteps_ Sample.empty_event) (TR_ Sample.empty_event))
    by (apply Hwf; simpl; repeat constructor).
  split; [exact HA|]. split; [exact HB|]. split; [exact HR|].
  exact (proj1 (zero_sum_centroid_not_finite Sample.empty_event
                  geometric_mean HA HB HR)).
Defined.

(** The whole computation on that event, whatever libm is: no participant,
    multiplicity 0, a NaN centroid, magnitudes 0 (the floored division),
    and an infinite radius in slot 9 (the division by the total entropy
    is not guarded either). *)
Lemma event_without_participants (L : Libm float) :
  exists ev',
    compute Sample.event Sample.spectators Sample.spectators Sample.common
    = Some ev' /\
    npart_ ev' = 0 /\
    multiplicity_ ev' = 0%float /\
    ixcm_ ev' = nan /\
    iycm_ ev' = nan /\
    ecc_lookup 3 (eccentricity_ ev') = Some 0%float /\
    ecc_lookup 9 (eccentricity_ ev') = Some infinity.
Proof.
  eexists. split; [vm_compute; reflexivity|].
  repeat split; vm_compute; reflexivity.
Qed.

(** C3, as the specification states it, fails: the magnitude of order 5
    has no slot in the output vector (e5 is accumulated, and never
    stored); neither have the angle and the radius of order 5. *)
Lemma order_5_not_addressable_counterexample :
  ~ addressable (Harmonic Magnitude n5) /\
  ~ addressable (Harmonic Angle n5) /\
  ~ addressable (Harmonic Radius n5).
Proof.
  unfold addressable, observable_layout.
  repeat split; intros [k Hin]; simpl in Hin;
    repeat (destruct Hin as [Heq | Hin]; [discriminate Heq|]);
    contradiction.
Qed.

(** C3, amended.  After compute_observables the output vector contains,
    for every harmonic order n in {2, 3, 4}, the eccentricity magnitude,
    the participant-plane angle and the radius measure of order n, and the
    integrated-entropy scalar, each in a slot of its own (slots 2 to 11,
    all different); it holds in every arithmetic. *)
Theorem observable_vector_layout
  {D : Type} {AD : Arith D} {L : Libm D} (ev : Event D) :
  grid_wf (nsteps_ ev) (TR_ ev) ->
  (forall k n, n <> n5 -> addressable (Harmonic k n)) /\
  addressable Entropy /\
  NoDup (map fst observable_layout) /\
  exists ev' e a R,
    compute_observables ev = Some ev' /\
    pass ev (ecc_step ev) = Some e /\
    pass ev (angle_step ev) = Some a /\
    pass ev (radius_step ev) = Some R /\
    forall k o, In (k, o) observable_layout ->
      ecc_lookup k (eccentricity_ ev') = Some (observable_value ev e a R o).
Proof.
  intros Hwf. split; [|split; [|split]].
  - intros k n Hn. unfold addressable, observable_layout.
    destruct k, n; try contradiction; eexists; simpl; eauto 12.
  - exists 2. simpl. auto.
  - rewrite observable_layout_slots.
    repeat (constructor; [simpl; intuition discriminate|]). constructor.
  - destruct (compute_observables_spec ev Hwf)
      as (e & a & R & He & Ha & HR & Hev).
    eexists. exists e, a, R. split; [exact Hev|].
    split; [exact He|]. split; [exact Ha|]. split; [exact HR|].
    intros k o Hin. simpl eccentricity_. apply observable_lookup. exact Hin.
Qed.

Lemma observable_vector_layout_witness :
  grid_wf (nsteps_ Sample.real_event) (TR_ Sample.real_event) /\
  exists ev',
    compute_observables Sample.real_event = Some ev' /\
    exists v, ecc_lookup 3 (eccentricity_ ev') = Some v.
Proof.
  assert (Hwf : grid_wf (nsteps_ Sample.real_event) (TR_ Sample.real_event))
    by (split; simpl; repeat constructor).
  split; [exact Hwf|].
  destruct (observable_vector_layout Sample.real_event Hwf)
    as (_ & _ & _ & ev' & e & a & R & Hev & _ & _ & _ & Hk).
  exists ev'. split; [exact Hev|].
  eexists. apply (Hk 3 (Harmonic Magnitude n2)). simpl. auto.
Defined.






(** C6.  The code breaks the claim, and with it the comment above its own
    loop body, which takes phi = arctan2(y, x), real = cos(n phi),
    imag = sin(n phi).  For the cell at (x, y) = (1, 0) relative to the
    centroid, with t = 1, the loop body adds t (y^2 - x^2) = -1 to the real
    part of order 2 and t 2 x y = 0 to the imaginary part, while
    t r^2 cos(2 phi) = 1 and t r^2 sin(2 phi) = 0 for phi = atan2(0, 1). *)
Theorem moment_terms_against_documented_angle :
  re_term n2 1%R (powers_of 1%R 0%R) = (-1)%R /\
  im_term n2 1%R (powers_of 1%R 0%R) = 0%R /\
  trig_re n2 1%R (radius 1 0) (Rops.atan2 0 1) = 1%R /\
  trig_im n2 1%R (radius 1 0) (Rops.atan2 0 1) = 0%R.
Proof.
  assert (Ha : Rops.atan2 0 1 = 0%R).
  { unfold Rops.atan2. destruct (Rlt_dec 0 1) as [_|Hn]; [|lra].
    replace (0 / 1)%R with 0%R by field. apply atan_0. }
  assert (Hr : radius 1 0 = 1%R).
  { unfold radius. replace (1 * 1 + 0 * 0)%R with (1 * 1)%R by ring.
    apply sqrt_square. lra. }
  split; [simpl; ring|]. split; [simpl; ring|].
  unfold trig_re, trig_im. rewrite Ha, Hr. simpl order_num.
  rewrite Rmult_0_r, cos_0, sin_0. split; simpl; ring.
Qed.



(** C8, as the specification states it, fails on a grid without cells.
    For the step 1e10 and the half-width 2^-1074, both positive, the
    constructor computes nsteps = 0; the index derived from the boundary
    coordinate 0.25 is then clip(0, 0, -1) = -1, which is not in
    [0, nsteps-1], and the deposition of a participant accesses
    TX[-1][-1], outside the array. *)
Lemma deposition_index_out_of_range_counterexample :
  ctor_nsteps Sample.degenerate_config = 0 /\
  ctor_xymax Sample.degenerate_config = 0%float /\
  clip (d_to_int ((0.25 + xymax_ Sample.degenerate_event)
                  / dxy_ Sample.degenerate_event)%float)
    0 (nsteps_ Sample.degenerate_event - 1) = -1 /\
  grid_get (TA_ Sample.degenerate_event) (-1) (-1) = None /\
  compute_nuclear_thickness Sample.degenerate_event [Sample.participant]
    Sample.common (TA_ Sample.degenerate_event) 0 = None.
Proof. repeat split; vm_compute; reflexivity. Qed.

(** C8, amended.  On a grid with at least one step, every index derived
    from a boundary value, clip(int((coordinate + xymax)/dxy), 0,
    nsteps-1), lies in [0, nsteps-1], whatever the deposition rule returns
    (also for boundaries outside the physical domain, and whatever the
    double-to-int conversion makes of them), so every cell of a nucleon's
    index rectangle is a cell of the grid and the deposition never accesses
    an array outside its extents. *)
Theorem deposition_indices_in_range
  {D : Type} {AD : Arith D} (ev : Event D) (nucleus : Nucleus D)
  (nucleon_common : NucleonCommon D) (TX : Grid D) (npart : Z) :
  0 < nsteps_ ev ->
  grid_wf (nsteps_ ev) TX ->
  (forall coord,
     0 <= clip (d_to_int ((coord + xymax_ ev) / dxy_ ev)%D) 0
            (nsteps_ ev - 1)
       <= nsteps_ ev - 1) /\
  (forall nucleon iy ix,
     in_rect (support_rect ev nucleon_common nucleon) iy ix = true ->
     in_grid (nsteps_ ev) iy ix) /\
  compute_nuclear_thickness ev nucleus nucleon_common TX npart <> None.
Proof.
  intros Hn Hwf. split; [|split].
  - intros coord. apply (index_of_range ev coord). exact Hn.
  - intros nucleon iy ix Hr.
    pose proof (support_rect_range ev nucleon_common nucleon Hn) as Hb.
    destruct (support_rect ev nucleon_common nucleon)
      as [[[ixmin ixmax] iymin] iymax].
    unfold in_rect in Hr. rewrite !andb_true_iff, !Z.leb_le in Hr.
    unfold in_grid. lia.
  - unfold compute_nuclear_thickness.
    destruct (deposit_nucleus_spec ev nucleon_common nucleus Hn
                (grid_fill TX (#0)%D) npart (grid_fill_wf _ _ _ Hwf))
      as (TX' & Hfold & _).
    rewrite Hfold. discriminate.
Qed.

Lemma deposition_indices_in_range_witness :
  0 < nsteps_ Sample.event /\
  grid_wf (nsteps_ Sample.event) (TA_ Sample.event) /\
  (forall coord,
     0 <= clip (d_to_int ((coord + xymax_ Sample.event)
                          / dxy_ Sample.event)%D) 0
            (nsteps_ Sample.event - 1)
       <= nsteps_ Sample.event - 1) /\
  (forall nucleon iy ix,
     in_rect (support_rect Sample.event Sample.common nucleon) iy ix = true ->
     in_grid (nsteps_ Sample.event) iy ix) /\
  compute_nuclear_thickness Sample.event Sample.nucleus Sample.common
    (TA_ Sample.event) 0 <> None.
Proof.
  assert (Hn : 0 < nsteps_ Sample.event) by reflexivity.
  assert (Hwf : grid_wf (nsteps_ Sample.event) (TA_ Sample.event))
    by (apply sample_grid_wf; simpl; repeat constructor).
  split; [exact Hn|]. split; [exact Hwf|].
  exact (deposition_indices_in_range Sample.event Sample.nucleus
           Sample.common (TA_ Sample.event) 0 Hn Hwf).
Defined.

(** C9, as the specification states it, fails in binary64.  For the step
    0.15 and the half-width 0.9 the constructor computes nsteps = 12 and
    xymax = .5 * 12 * 0.15, which rounds to 0.8999999999999999, below the
    configured 0.9.  For the step 1e-9 and the half-width 10 the quotient
    2e10 does not fit the int that holds nsteps: the conversion gives
    INT_MIN, not ceil(2 m / s), and xymax is negative. *)
Lemma grid_construction_binary64_counterexample :
  (ctor_nsteps Sample.coarse_config = 12 /\
   ctor_xymax Sample.coarse_config = 0.8999999999999999%float /\
   (ctor_xymax Sample.coarse_config
    <? cfg_grid_max Sample.coarse_config)%float = true) /\
  (ctor_nsteps Sample.fine_config = -2147483648 /\
   (ctor_xymax Sample.fine_config <? 0)%float = true).
Proof. repeat split; vm_compute; reflexivity. Qed.

(** C9, amended.  In real arithmetic, for a configured step s > 0 and a
    configured half-width m > 0 whose quotient 2 m / s is at most
    2^31 - 1, so that the number of steps fits the int that holds it, the
    constructor produces nsteps = ceil(2 m / s) and the half-width
    xymax = nsteps s / 2, and xymax >= m. *)
Theorem grid_construction {L : Libm R} (var_map : VarMap R) :
  let s := cfg_grid_step var_map in
  let m := cfg_grid_max var_map in
  let ev := Event_ctor var_map in
  (0 < s)%R -> (0 < m)%R -> (2 * m / s <= 2147483647)%R ->
  is_ceil (nsteps_ ev) (2 * m / s)%R /\
  xymax_ ev = (IZR (nsteps_ ev) * s / 2)%R /\
  (m <= xymax_ ev)%R.
Proof.
  intros s m ev Hs Hm Hq.
  destruct (Rceil_is_ceil (2 * m / s)) as [Hlo Hhi].
  assert (Hpos : (0 < 2 * m / s)%R) by (apply Rdiv_lt_0_compat; lra).
  assert (Hn : nsteps_ ev = Rops.ceilZ (2 * m / s)).
  { unfold ev, Event_ctor, ctor_nsteps. simpl. unfold Rops.ceil.
    apply Rto_int_IZR. split.
    - apply le_IZR. lra.
    - apply lt_IZR. lra. }
  assert (Hc : is_ceil (nsteps_ ev) (2 * m / s)%R)
    by (rewrite Hn; apply Rceil_is_ceil).
  assert (Hx : xymax_ ev = (IZR (nsteps_ ev) * s / 2)%R).
  { unfold ev at 1. unfold Event_ctor. simpl. unfold ctor_xymax. simpl.
    fold s. change (ctor_nsteps var_map) with (nsteps_ ev). lra. }
  split; [exact Hc|]. split; [exact Hx|].
  rewrite Hx. destruct Hc as [_ Hc].
  assert (H2m : (2 * m <= IZR (nsteps_ ev) * s)%R).
  { apply (Rmult_le_compat_r s) in Hc; [|lra].
    replace (2 * m / s * s)%R with (2 * m)%R in Hc by (field; lra).
    exact Hc. }
  lra.
Qed.

Lemma grid_construction_witness :
  (0 < cfg_grid_step Sample.real_config)%R /\
  (0 < cfg_grid_max Sample.real_config)%R /\
  (2 * cfg_grid_max Sample.real_config / cfg_grid_step Sample.real_config
   <= 2147483647)%R /\
  is_ceil (nsteps_ (Event_ctor Sample.real_config)) (2 * 10 / (1 / 5))%R /\
  xymax_ (Event_ctor Sample.real_config)
  = (IZR (nsteps_ (Event_ctor Sample.real_config)) * (1 / 5) / 2)%R /\
  (10 <= xymax_ (Event_ctor Sample.real_config))%R.
Proof.
  assert (Hs : (0 < cfg_grid_step Sample.real_config)%R) by (simpl; lra).
  assert (Hm : (0 < cfg_grid_max Sample.real_config)%R) by (simpl; lra).
  assert (Hq : (2 * cfg_grid_max Sample.real_config
                / cfg_grid_step Sample.real_config <= 2147483647)%R).
  { simpl. replace (2 * 10 / (1 / 5))%R with 100%R by field. lra. }
  split; [exact Hs|]. split; [exact Hm|]. split; [exact Hq|].
  exact (grid_construction Sample.real_config Hs Hm Hq).
Defined.

(** C10, as it is stated, fails in binary64: for two cells on a diagonal
    the moment of order 4 and its weight are equal in real arithmetic, and
    the computed magnitude is 1.0000000000000004, whatever libm is. *)
Lemma eccentricity_magnitude_binary64_counterexample :
  exists ev,
    compute_reduced_thickness geometric_mean Sample.skew_event = Some ev /\
    forall L : Libm float,
    exists e,
      pass ev (ecc_step ev) = Some e /\
      ecc_finish (acc_of e n4) = 1.0000000000000004%float /\
      (1 <? ecc_finish (acc_of e n4))%float = true.
Proof.
  eexists. split; [vm_compute; reflexivity|].
  intros L. eexists. split; [vm_compute; reflexivity|].
  split; vm_compute; reflexivity.
Qed.

(** C10, amended.  In real arithmetic, for every reduced-thickness field
    each eccentricity magnitude of the magnitude pass lies in [0, 1]: every
    included cell contributes a complex term of modulus t r^n, so the
    modulus sqrt(re_n^2 + im_n^2) of the accumulated moment never exceeds
    the accumulated weight wt_n, the sum of t r^n, and the division by
    fmax(wt_n, 1e-12) cannot push the ratio above 1; with no included cell
    the magnitude is 0.  The magnitudes stored in the output vector (slots
    3 to 5) are these, so in real arithmetic they are in [0, 1]; in
    binary64 a computed magnitude can exceed 1, as shown above. *)
Theorem eccentricity_magnitude_in_unit_interval
  {L : Libm R} (ev : Event R) :
  grid_wf (nsteps_ ev) (TR_ ev) ->
  exists e,
    pass ev (ecc_step ev) = Some e /\
    (forall n,
       wt (acc_of e n)
       = cell_sum (fun c => cell_value c
                            * radius (IZR (snd (fst c)) - ixcm_ ev)
                                     (IZR (fst (fst c)) - iycm_ ev)
                              ^ Z.to_nat (order_num n))%R
           (included_cells ev) /\
       (sqrt (re (acc_of e n) * re (acc_of e n)
              + im (acc_of e n) * im (acc_of e n)) <= wt (acc_of e n))%R /\
       (0 <= ecc_finish (acc_of e n) <= 1)%R) /\
    (included_cells ev = [] -> forall n, ecc_finish (acc_of e n) = 0%R) /\
    (exists ev', compute_observables ev = Some ev' /\
       forall k, 3 <= k <= 5 ->
         exists v, ecc_lookup k (eccentricity_ ev') = Some v
                   /\ (0 <= v <= 1)%R).
Proof.
  intros Hwf.
  destruct (compute_observables_spec ev Hwf)
    as (e & a & R & He & _ & _ & Hev).
  assert (He' : e = fold_left (on_cell (ecc_step ev)) (included_cells ev)
                     harmonics0)
    by (rewrite pass_spec in He by exact Hwf; congruence).
  exists e. split; [exact He|]. clear He.
  assert (Hbound : forall n,
            (0 <= wt (acc_of e n))%R /\
            (re (acc_of e n) * re (acc_of e n)
             + im (acc_of e n) * im (acc_of e n)
             <= wt (acc_of e n) * wt (acc_of e n))%R).
  { intros n. rewrite He'.
    destruct (sum_step_fold ev false (included_cells ev) harmonics0 n)
      as (Hre & Him & Hwt & _).
    simpl in Hre, Him, Hwt. rewrite Hre, Him, Hwt.
    apply (moment_bound ev n (included_cells ev)).
    - intros c Hc. eapply included_nonneg. exact Hc.
    - destruct n; simpl; lra.
    - destruct n; simpl; lra. }
  split; [|split].
  - intros n. destruct (Hbound n) as [HW Hab]. split; [|split].
    + rewrite He'.
      destruct (sum_step_fold ev false (included_cells ev) harmonics0 n)
        as (_ & _ & Hwt & _).
      simpl in Hwt. rewrite Hwt. unfold cell_sum.
      replace (wt (acc_of harmonics0 n)) with 0%R by (destruct n; reflexivity).
      apply fold_left_ext. intros s c. unfold cell_wt.
      rewrite <- (proj2 (proj2 (moment_terms_model n (cell_value c)
                                  (IZR (snd (fst c)) - ixcm_ ev)%R
                                  (IZR (fst (fst c)) - iycm_ ev)%R))).
      rewrite wt_term_power. reflexivity.
    + apply Rle_trans with (sqrt (wt (acc_of e n) * wt (acc_of e n))).
      * apply sqrt_le_1_alt. exact Hab.
      * rewrite sqrt_square by exact HW. apply Rle_refl.
    + apply ecc_finish_bound; assumption.
  - intros Hnil n. rewrite He', Hnil. simpl.
    destruct n; simpl; unfold ecc_finish; simpl;
      (replace (0 * 0 + 0 * 0)%R with 0%R by ring); rewrite sqrt_0;
      unfold Rdiv; apply Rmult_0_l.
  - eexists. split; [exact Hev|]. intros k Hk.
    assert (Hcases : k = 3 \/ k = 4 \/ k = 5) by lia.
    destruct Hcases as [-> | [-> | ->]].
    + exists (ecc_finish (acc_of e n2)). split.
      * refine (observable_lookup ev e a R (eccentricity_ ev) 3
                  (Harmonic Magnitude n2) _).
        simpl. auto.
      * apply ecc_finish_bound; apply (Hbound n2).
    + exists (ecc_finish (acc_of e n3)). split.
      * refine (observable_lookup ev e a R (eccentricity_ ev) 4
                  (Harmonic Magnitude n3) _).
        simpl. auto.
      * apply ecc_finish_bound; apply (Hbound n3).
    + exists (ecc_finish (acc_of e n4)). split.
      * refine (observable_lookup ev e a R (eccentricity_ ev) 5
                  (Harmonic Magnitude n4) _).
        simpl. auto.
      * apply ecc_finish_bound; apply (Hbound n4).
Qed.

Lemma eccentricity_magnitude_in_unit_interval_witness :
  grid_wf (nsteps_ Sample.real_event) (TR_ Sample.real_event) /\
  exists e,
    pass Sample.real_event (ecc_step Sample.real_event) = Some e /\
    forall n, (0 <= ecc_finish (acc_of e n) <= 1)%R.
Proof.
  assert (Hwf : grid_wf (nsteps_ Sample.real_event) (TR_ Sample.real_event))
    by (split; simpl; repeat constructor).
  split; [exact Hwf|].
  destruct (eccentricity_magnitude_in_unit_interval Sample.real_event Hwf)
    as (e & He & Hn & _).
  exists e. split; [exact He|].
  intros n. exact (proj2 (proj2 (Hn n))).
Defined.

(** * Further properties of the code *)

(** ** More on lists, loops and grids *)

Lemma foldM_ext {S A : Type} (f g : S -> A -> option S) (l : list A) (s : S) :
  (forall s a, f s a = g s a) -> foldM f l s = foldM g l s.
Proof.
  intros Hfg. revert s. induction l as [|a l IH]; intros s; simpl.
  - reflexivity.
  - rewrite Hfg. destruct (g s a); [apply IH | reflexivity].
Qed.

Lemma nth_error_ext_eq {A : Type} (l l' : list A) :
  (forall k, nth_error l k = nth_error l' k) -> l = l'.
Proof.
  revert l'. induction l as [|a l IH]; intros [|a' l'] H.
  - reflexivity.
  - specialize (H 0%nat). discriminate H.
  - specialize (H 0%nat). discriminate H.
  - pose proof (H 0%nat) as H0. simpl in H0. inversion H0; subst.
    f_equal. apply IH. intros k. exact (H (S k)).
Qed.

Section GridExt.

Context {D : Type} {AD : Arith D}.

(** Two grids of the same extents with the same cells are the same grid. *)
Lemma grid_ext (n : Z) (g g' : Grid D) :
  grid_wf n g -> grid_wf n g' ->
  (forall iy ix, in_grid n iy ix -> grid_get g iy ix = grid_get g' iy ix) ->
  g = g'.
Proof.
  intros [Hlen Hrows] [Hlen' Hrows'] Hcells.
  apply nth_error_ext_eq. intros k.
  destruct (nth_error g k) as [row|] eqn:Erow.
  - assert (Hk : (k < length g)%nat) by (apply nth_error_Some; congruence).
    destruct (nth_error g' k) as [row'|] eqn:Erow';
      [|apply nth_error_None in Erow'; lia].
    f_equal. apply nth_error_ext_eq. intros j.
    rewrite Forall_forall in Hrows, Hrows'.
    pose proof (Hrows row (nth_error_In _ _ Erow)) as Hr.
    pose proof (Hrows' row' (nth_error_In _ _ Erow')) as Hr'.
    destruct (Nat.lt_ge_cases j (Z.to_nat n)) as [Hj|Hj].
    + assert (Hin : in_grid n (Z.of_nat k) (Z.of_nat j))
        by (unfold in_grid; lia).
      specialize (Hcells _ _ Hin). unfold grid_get in Hcells.
      replace ((Z.of_nat k <? 0) || (Z.of_nat j <? 0))%Z with false in Hcells
        by (symmetry; apply orb_false_iff; split; apply Z.ltb_ge; lia).
      rewrite !Nat2Z.id, Erow, Erow' in Hcells. exact Hcells.
    + assert (H1 : nth_error row j = None) by (apply nth_error_None; lia).
      assert (H2 : nth_error row' j = None) by (apply nth_error_None; lia).
      congruence.
  - apply nth_error_None in Erow. symmetry. apply nth_error_None. lia.
Qed.

(** Wiping a grid gives a result that depends on its extents only. *)
Lemma grid_fill_extents (n : Z) (g g' : Grid D) (v : D) :
  grid_wf n g -> grid_wf n g' -> grid_fill g v = grid_fill g' v.
Proof.
  intros Hwf Hwf'. apply (grid_ext n).
  - apply grid_fill_wf. exact Hwf.
  - apply grid_fill_wf. exact Hwf'.
  - intros iy ix Hin.
    rewrite (grid_fill_get n g v iy ix Hwf Hin).
    rewrite (grid_fill_get n g' v iy ix Hwf' Hin). reflexivity.
Qed.

End GridExt.

(** ** Deposition: what the source shows beyond the stated properties *)

Section ThicknessMore.

Context {D : Type} {AD : Arith D}.
Local Open Scope dbl_scope.

Variable ev : Event D.
Variable nucleon_common : NucleonCommon D.

(** The nucleons that do not cover a cell do not matter for it. *)
Lemma deposited_fold_filter (iy ix : Z) (nucleus : Nucleus D) (v : D) :
  fold_left (deposited ev nucleon_common iy ix) nucleus v
  = fold_left
      (fun v nucleon =>
         v + thickness nucleon_common nucleon
               (cell_center ev ix) (cell_center ev iy))
      (filter (fun nucleon => covers ev nucleon_common nucleon iy ix) nucleus)
      v.
Proof.
  revert v. induction nucleus as [|nucleon nucleus IH]; intros v; simpl.
  - reflexivity.
  - unfold deposited at 2, covers at 1.
    destruct (is_participant nucleon
              && in_rect (support_rect ev nucleon_common nucleon) iy ix);
      simpl; apply IH.
Qed.

End ThicknessMore.



(** X2.  Deposition is local.  On a grid that is not empty, every cell
    ends as the sum, from 0 and in nucleus order, of the thickness of
    exactly the participants whose index rectangle covers it; a cell that
    no participant covers is 0. *)
Theorem deposition_is_local
  {D : Type} {AD : Arith D} (ev : Event D) (nucleus : Nucleus D)
  (nucleon_common : NucleonCommon D) (TX : Grid D) (npart : Z) :
  0 < nsteps_ ev ->
  grid_wf (nsteps_ ev) TX ->
  exists TX' npart',
    compute_nuclear_thickness ev nucleus nucleon_common TX npart
    = Some (TX', npart') /\
    forall iy ix, in_grid (nsteps_ ev) iy ix ->
      grid_get TX' iy ix
      = Some (fold_left
                (fun v nucleon =>
                   (v + thickness nucleon_common nucleon
                          (cell_center ev ix) (cell_center ev iy))%D)
                (filter (fun nucleon =>
                           covers ev nucleon_common nucleon iy ix) nucleus)
                (#0)%D) /\
      ((forall nucleon, In nucleon nucleus ->
          covers ev nucleon_common nucleon iy ix = false) ->
       grid_get TX' iy ix = Some (#0)%D).
Proof.
  intros Hn Hwf. unfold compute_nuclear_thickness.
  destruct (deposit_nucleus_spec ev nucleon_common nucleus Hn
              (grid_fill TX (#0)%D) npart (grid_fill_wf _ _ _ Hwf))
    as (TX' & Hfold & _ & Hcells).
  exists TX'. eexists. split; [exact Hfold|].
  intros iy ix Hin.
  assert (Hcell : grid_get TX' iy ix
                  = Some (fold_left
                            (fun v nucleon =>
                               (v + thickness nucleon_common nucleon
                                      (cell_center ev ix)
                                      (cell_center ev iy))%D)
                            (filter (fun nucleon =>
                                       covers ev nucleon_common nucleon iy ix)
                               nucleus)
                            (#0)%D)).
  { rewrite <- deposited_fold_filter. apply Hcells.
    apply (grid_fill_get (nsteps_ ev)); assumption. }
  split; [exact Hcell|].
  intros Hnone. rewrite Hcell. f_equal.
  replace (filter (fun nucleon => covers ev nucleon_common nucleon iy ix)
             nucleus) with (@nil (NucleonData D)); [reflexivity|].
  symmetry. clear Hcell Hcells Hfold.
  induction nucleus as [|nucleon nucleus IH]; [reflexivity|].
  simpl. rewrite (Hnone nucleon (or_introl eq_refl)).
  apply IH. intros n Hn'. apply Hnone. right. exact Hn'.
Qed.

Lemma deposition_is_local_witness :
  0 < nsteps_ Sample.event /\
  grid_wf (nsteps_ Sample.event) (TA_ Sample.event) /\
  exists TX' npart',
    compute_nuclear_thickness Sample.event Sample.nucleus Sample.common
      (TA_ Sample.event) 0 = Some (TX', npart') /\
    grid_get TX' 0 0
    = Some (fold_left
              (fun v nucleon =>
                 (v + thickness Sample.common nucleon
                        (cell_center Sample.event 0)
                        (cell_center Sample.event 0))%D)
              (filter (fun nucleon =>
                         covers Sample.event Sample.common nucleon 0 0)
                 Sample.nucleus)
              (#0)%D).
Proof.
  assert (Hn : 0 < nsteps_ Sample.event) by reflexivity.
  assert (Hwf : grid_wf (nsteps_ Sample.event) (TA_ Sample.event))
    by (apply sample_grid_wf; simpl; repeat constructor).
  split; [exact Hn|]. split; [exact Hwf|].
  destruct (deposition_is_local Sample.event Sample.nucleus Sample.common
              (TA_ Sample.event) 0 Hn Hwf) as (TX' & np & Hrun & Hcells).
  exists TX', np. split; [exact Hrun|].
  apply (Hcells 0 0). unfold in_grid. simpl. lia.
Defined.

Section ThicknessOrder.

Local Open Scope R_scope.

Variable ev : Event R.
Variable nucleon_common : NucleonCommon R.

Lemma deposited_fold_perm (iy ix : Z) (nucleus nucleus' : Nucleus R) :
  Permutation nucleus nucleus' ->
  forall v,
    fold_left (deposited ev nucleon_common iy ix) nucleus v
    = fold_left (deposited ev nucleon_common iy ix) nucleus' v.
Proof.
  induction 1 as [|x l l' _ IH|x y l|l l' l'' _ IH1 _ IH2]; intros v; simpl.
  - reflexivity.
  - apply IH.
  - f_equal. unfold deposited.
    destruct (is_participant y
              && in_rect (support_rect ev nucleon_common y) iy ix);
      destruct (is_participant x
                && in_rect (support_rect ev nucleon_common x) iy ix);
      simpl; ring.
  - rewrite IH1. apply IH2.
Qed.

Lemma count_participants_perm (nucleus nucleus' : Nucleus R) :
  Permutation nucleus nucleus' ->
  count_participants nucleus = count_participants nucleus'.
Proof.
  intros Hp. unfold count_participants. f_equal.
  apply Permutation_length. induction Hp; simpl.
  - constructor.
  - destruct (is_participant x); [constructor|]; assumption.
  - destruct (is_participant x), (is_participant y);
      try apply Permutation_refl. apply perm_swap.
  - eapply Permutation_trans; eassumption.
Qed.

End ThicknessOrder.

(** X3.  In real arithmetic the deposition does not depend on the order of
    the nucleons: two nuclei that are permutations of each other give the
    same thickness grid and the same participant count. *)
Theorem deposition_order_independent
  (ev : Event R) (nucleus nucleus' : Nucleus R)
  (nucleon_common : NucleonCommon R) (TX : Grid R) (npart : Z) :
  0 < nsteps_ ev ->
  grid_wf (nsteps_ ev) TX ->
  Permutation nucleus nucleus' ->
  compute_nuclear_thickness ev nucleus nucleon_common TX npart
  = compute_nuclear_thickness ev nucleus' nucleon_common TX npart
  /\ compute_nuclear_thickness ev nucleus nucleon_common TX npart <> None.
Proof.
  intros Hn Hwf Hp. unfold compute_nuclear_thickness.
  destruct (deposit_nucleus_spec ev nucleon_common nucleus Hn
              (grid_fill TX (#0)%D) npart (grid_fill_wf _ _ _ Hwf))
    as (T1 & H1 & Hwf1 & Hc1).
  destruct (deposit_nucleus_spec ev nucleon_common nucleus' Hn
              (grid_fill TX (#0)%D) npart (grid_fill_wf _ _ _ Hwf))
    as (T2 & H2 & Hwf2 & Hc2).
  rewrite H1, H2. split; [|discriminate].
  rewrite (count_participants_perm nucleus nucleus' Hp).
  f_equal. f_equal. apply (grid_ext (nsteps_ ev)); try assumption.
  intros iy ix Hin.
  pose proof (grid_fill_get (nsteps_ ev) TX (#0)%D iy ix Hwf Hin) as H0.
  rewrite (Hc1 iy ix _ H0), (Hc2 iy ix _ H0). f_equal.
  apply deposited_fold_perm. exact Hp.
Qed.

Lemma sampleR_grid_wf (g : Grid R) :
  length g = 2%nat ->
  Forall (fun row => length row = 2%nat) g ->
  grid_wf (nsteps_ SampleR.event) g.
Proof. intros Hlen Hrows. split; assumption. Defined.

Lemma deposition_order_independent_witness :
  0 < nsteps_ SampleR.event /\
  grid_wf (nsteps_ SampleR.event) (TA_ SampleR.event) /\
  Permutation SampleR.nucleus SampleR.nucleus_reversed /\
  compute_nuclear_thickness SampleR.event SampleR.nucleus SampleR.common
    (TA_ SampleR.event) 0
  = compute_nuclear_thickness SampleR.event SampleR.nucleus_reversed
      SampleR.common (TA_ SampleR.event) 0.
Proof.
  assert (Hn : 0 < nsteps_ SampleR.event) by reflexivity.
  assert (Hwf : grid_wf (nsteps_ SampleR.event) (TA_ SampleR.event))
    by (apply sampleR_grid_wf; simpl; repeat constructor).
  assert (Hp : Permutation SampleR.nucleus SampleR.nucleus_reversed)
    by apply perm_swap.
  split; [exact Hn|]. split; [exact Hwf|]. split; [exact Hp|].
  exact (proj1 (deposition_order_independent SampleR.event SampleR.nucleus
                  SampleR.nucleus_reversed SampleR.common
                  (TA_ SampleR.event) 0 Hn Hwf Hp)).
Defined.

(** X4.  clip, on a range that is not empty, is the identity on the
    range, is monotone and is idempotent; so index bounds that are ordered
    before clipping are ordered after it. *)
Theorem clip_identity_monotone_idempotent (v w lo hi : Z) :
  lo <= hi ->
  (lo <= v <= hi -> clip v lo hi = v) /\
  (v <= w -> clip v lo hi <= clip w lo hi) /\
  clip (clip v lo hi) lo hi = clip v lo hi.
Proof.
  intros H. unfold clip.
  destruct (v <? lo) eqn:E1; destruct (v >? hi) eqn:E2;
    destruct (w <? lo) eqn:E3; destruct (w >? hi) eqn:E4;
    repeat split; intros;
    repeat match goal with
           | |- context [if ?b then _ else _] => destruct b eqn:?
           end; lia.
Qed.

Lemma clip_identity_monotone_idempotent_witness :
  0 <= 3 /\
  (0 <= 2 <= 3 -> clip 2 0 3 = 2) /\
  (2 <= 7 -> clip 2 0 3 <= clip 7 0 3) /\
  clip (clip 2 0 3) 0 3 = clip 2 0 3.
Proof.
  assert (H : 0 <= 3) by lia.
  split; [exact H|].
  exact (clip_identity_monotone_idempotent 2 7 0 3 H).
Defined.

(** ** Coordinates and indices, in real arithmetic *)

Section Coordinates.

Local Open Scope R_scope.

Lemma clip_cases (v lo hi : Z) :
  ((v < lo)%Z -> clip v lo hi = lo) /\
  ((lo <= v)%Z -> (hi < v)%Z -> clip v lo hi = hi) /\
  ((lo <= v <= hi)%Z -> clip v lo hi = v).
Proof.
  unfold clip. rewrite Z.gtb_ltb.
  destruct (Z.ltb_spec v lo); destruct (Z.ltb_spec hi v);
    repeat split; intros; lia || reflexivity.
Qed.

Lemma Rtrunc_floor (q : R) (i : Z) :
  0 <= q -> IZR i <= q < IZR i + 1 -> Rops.trunc q = i.
Proof.
  intros Hq Hi. unfold Rops.trunc, Rops.floor.
  destruct (Rle_dec 0 q) as [_|Hn]; [|contradiction].
  symmetry. apply Int_part_spec. lra.
Qed.

Lemma Rtrunc_neg (q : R) : q < 0 -> (Rops.trunc q <= 0)%Z.
Proof.
  intros Hq. unfold Rops.trunc.
  destruct (Rle_dec 0 q) as [Hp|_]; [lra|].
  destruct (Rceil_is_ceil q) as [Hc _].
  apply Z.lt_succ_r. apply lt_IZR. rewrite succ_IZR. lra.
Qed.

Lemma Rtrunc_ge (q : R) (n : Z) :
  (0 <= n)%Z -> IZR n <= q -> (n <= Rops.trunc q)%Z.
Proof.
  intros Hn Hq. unfold Rops.trunc, Rops.floor.
  assert (H0 : 0 <= q) by (apply IZR_le in Hn; lra).
  destruct (Rle_dec 0 q) as [_|Hc]; [|contradiction].
  destruct (base_Int_part q) as [_ Hb].
  apply Z.lt_succ_r. apply lt_IZR. rewrite succ_IZR. lra.
Qed.

Lemma Rtrunc_lt (q : R) (n : Z) :
  0 <= q -> q < IZR n -> (Rops.trunc q < n)%Z.
Proof.
  intros H0 Hq. unfold Rops.trunc, Rops.floor.
  destruct (Rle_dec 0 q) as [_|Hc]; [|contradiction].
  destruct (base_Int_part q) as [Hb _].
  apply lt_IZR. lra.
Qed.

(** A negative quotient is converted to an index that is not positive,
    also when it does not fit an int. *)
Lemma Rto_int_neg (q : R) : q < 0 -> (Rops.to_int q <= 0)%Z.
Proof.
  intros Hq. pose proof (Rtrunc_neg q Hq) as Ht.
  unfold Rops.to_int. cbv zeta.
  change F64ops.INT_MIN with (-2147483648)%Z.
  destruct ((-2147483648 <=? Rops.trunc q)%Z
            && (Rops.trunc q <? 2 ^ 31)%Z); lia.
Qed.

Variable ev : Event R.

(** The quotient the source truncates. *)
Lemma index_quotient (c : R) (i : Z) :
  0 < dxy_ ev ->
  (IZR i * dxy_ ev - xymax_ ev <= c <-> IZR i <= (c + xymax_ ev) / dxy_ ev)
  /\ (c < IZR i * dxy_ ev - xymax_ ev <-> (c + xymax_ ev) / dxy_ ev < IZR i).
Proof.
  intros Hd.
  assert (Hq : (c + xymax_ ev) / dxy_ ev * dxy_ ev = c + xymax_ ev)
    by (field; lra).
  split; split; intros H.
  - apply (Rmult_le_reg_r (dxy_ ev)); [exact Hd|]. lra.
  - apply (Rmult_le_compat_r (dxy_ ev)) in H; lra.
  - apply (Rmult_lt_reg_r (dxy_ ev)); [exact Hd|]. lra.
  - apply (Rmult_lt_compat_r (dxy_ ev)) in H; lra.
Qed.

End Coordinates.

(** X5.  In real arithmetic, with a positive step on a grid of 1 to
    2^31 - 1 steps, the index that the deposition derives from a
    coordinate c is clip(int((c + xymax)/dxy), 0, nsteps-1) and the centre
    of cell i is (i + 1/2) dxy - xymax.  A coordinate inside the domain
    becomes the index of the cell that contains it: i when
    i*dxy - xymax <= c < (i+1)*dxy - xymax and 0 <= i < nsteps; in
    particular the centre of cell i is mapped back to i.  A coordinate left
    of the domain becomes 0.  A coordinate at or beyond the right end
    becomes nsteps-1 as long as the quotient (c + xymax)/dxy is below 2^31;
    from 2^31 on the conversion to int gives INT_MIN and the index is 0. *)
Theorem index_of_cell (ev : Event R) :
  (0 < dxy_ ev)%R -> 0 < nsteps_ ev <= 2147483647 ->
  (forall c,
     index_of ev c
     = clip (Rops.to_int ((c + xymax_ ev) / dxy_ ev)) 0 (nsteps_ ev - 1)) /\
  (forall i, cell_center ev i = ((IZR i + 1 / 2) * dxy_ ev - xymax_ ev)%R) /\
  (forall c i, 0 <= i < nsteps_ ev ->
     (IZR i * dxy_ ev - xymax_ ev <= c < (IZR i + 1) * dxy_ ev - xymax_ ev)%R ->
     index_of ev c = i) /\
  (forall i, 0 <= i < nsteps_ ev -> index_of ev (cell_center ev i) = i) /\
  (forall c, (c < - xymax_ ev)%R -> index_of ev c = 0) /\
  (forall c, (IZR (nsteps_ ev) * dxy_ ev - xymax_ ev <= c)%R ->
     ((c + xymax_ ev) / dxy_ ev < 2147483648)%R ->
     index_of ev c = nsteps_ ev - 1) /\
  (forall c, (2147483648 <= (c + xymax_ ev) / dxy_ ev)%R ->
     index_of ev c = 0).
Proof.
  intros Hd [Hn Hmax].
  assert (Hcell : forall c i, 0 <= i < nsteps_ ev ->
            (IZR i * dxy_ ev - xymax_ ev <= c
             < (IZR i + 1) * dxy_ ev - xymax_ ev)%R ->
            index_of ev c = i).
  { intros c i Hi [Hlo Hhi]. unfold index_of. simpl.
    assert (Ht : Rops.trunc ((c + xymax_ ev) / dxy_ ev) = i).
    { apply Rtrunc_floor.
      - apply (index_quotient ev c 0 Hd).
        assert (0 <= IZR i)%R by (apply IZR_le; lia).
        assert (0 <= IZR i * dxy_ ev)%R by (apply Rmult_le_pos; lra).
        lra.
      - split.
        + apply (index_quotient ev c i Hd). exact Hlo.
        + rewrite <- succ_IZR. apply (index_quotient ev c (Z.succ i) Hd).
          rewrite succ_IZR. exact Hhi. }
    rewrite Rto_int_fits; rewrite Ht; [|lia].
    apply (clip_cases i 0 (nsteps_ ev - 1)). lia. }
  split; [reflexivity|]. split; [reflexivity|].
  split; [exact Hcell|]. split; [|split; [|split]].
  - intros i Hi. apply Hcell; [exact Hi|].
    unfold cell_center. simpl. lra.
  - intros c Hc. unfold index_of. simpl.
    assert (Hq : (Rops.to_int ((c + xymax_ ev) / dxy_ ev) <= 0)%Z).
    { apply Rto_int_neg. apply (index_quotient ev c 0 Hd). lra. }
    destruct (Z_lt_le_dec (Rops.to_int ((c + xymax_ ev) / dxy_ ev)) 0)
      as [Hneg|Hz].
    + apply (clip_cases _ 0 (nsteps_ ev - 1)). exact Hneg.
    + replace (Rops.to_int ((c + xymax_ ev) / dxy_ ev)) with 0 by lia.
      apply (clip_cases 0 0 (nsteps_ ev - 1)). lia.
  - intros c Hc Hfit. unfold index_of. simpl.
    assert (Hge : (IZR (nsteps_ ev) <= (c + xymax_ ev) / dxy_ ev)%R)
      by (apply (index_quotient ev c (nsteps_ ev) Hd); exact Hc).
    assert (H0 : (0 <= (c + xymax_ ev) / dxy_ ev)%R).
    { assert (0 < IZR (nsteps_ ev))%R by (apply IZR_lt; lia). lra. }
    pose proof (Rtrunc_ge _ (nsteps_ ev) ltac:(lia) Hge) as H1.
    pose proof (Rtrunc_lt _ 2147483648 H0 Hfit) as H2.
    rewrite Rto_int_fits by lia.
    apply (clip_cases _ 0 (nsteps_ ev - 1)); lia.
  - intros c Hbig. unfold index_of. simpl.
    pose proof (Rtrunc_ge _ 2147483648 ltac:(lia) Hbig) as H1.
    rewrite Rto_int_overflow by exact H1.
    apply (clip_cases (-2147483648) 0 (nsteps_ ev - 1)). lia.
Qed.

Lemma index_of_cell_witness :
  ((0 < dxy_ SampleR.event)%R /\
   0 < nsteps_ SampleR.event <= 2147483647) /\
  (forall i, 0 <= i < nsteps_ SampleR.event ->
     index_of SampleR.event (cell_center SampleR.event i) = i) /\
  index_of SampleR.event 3000000000%R = 0.
Proof.
  assert (Hd : (0 < dxy_ SampleR.event)%R) by (simpl; lra).
  assert (Hn : 0 < nsteps_ SampleR.event <= 2147483647)
    by (simpl; lia).
  split; [split; [exact Hd | exact Hn]|].
  destruct (index_of_cell SampleR.event Hd Hn)
    as (_ & _ & _ & Hcentre & _ & _ & Hbig).
  split; [exact Hcentre|].
  apply Hbig. simpl. lra.
Defined.

(** X6.  In real arithmetic, for a positive step s and a positive
    half-width m whose quotient 2 m / s is at most 2^31 - 1 (the number of
    steps fits its int), the constructor gives a grid of 1 to 2^31 - 1
    steps that spans [-xymax, xymax] exactly (nsteps * dxy = 2 * xymax),
    and whose half-width exceeds the configured one by less than half a
    step; the three fields are allocated with extents nsteps x nsteps and
    every cell of them is 0. *)
Theorem constructed_grid {L : Libm R} (var_map : VarMap R) :
  let s := cfg_grid_step var_map in
  let m := cfg_grid_max var_map in
  let ev := Event_ctor var_map in
  (0 < s)%R -> (0 < m)%R -> (2 * m / s <= 2147483647)%R ->
  1 <= nsteps_ ev <= 2147483647 /\
  dxy_ ev = s /\
  (IZR (nsteps_ ev) * dxy_ ev = 2 * xymax_ ev)%R /\
  (xymax_ ev < m + s / 2)%R /\
  event_wf ev /\
  (forall iy ix, in_grid (nsteps_ ev) iy ix ->
     grid_get (TA_ ev) iy ix = Some 0%R /\
     grid_get (TB_ ev) iy ix = Some 0%R /\
     grid_get (TR_ ev) iy ix = Some 0%R).
Proof.
  intros s m ev Hs Hm Hfit.
  assert (Hq : (0 < 2 * m / s)%R)
    by (apply Rdiv_lt_0_compat; lra).
  destruct (Rceil_is_ceil (2 * m / s)) as [Hlo Hhi].
  assert (Hn : nsteps_ ev = Rops.ceilZ (2 * m / s)).
  { unfold ev, Event_ctor, ctor_nsteps. simpl. unfold Rops.ceil.
    apply Rto_int_IZR. split.
    - apply le_IZR. lra.
    - apply lt_IZR. lra. }
  rewrite <- Hn in Hlo, Hhi.
  assert (Hx : xymax_ ev = (IZR (nsteps_ ev) * s / 2)%R).
  { unfold ev at 1. unfold Event_ctor. simpl. unfold ctor_xymax. simpl.
    fold s. change (ctor_nsteps var_map) with (nsteps_ ev). lra. }
  assert (Hms : (2 * m / s * s = 2 * m)%R) by (field; lra).
  split; [|split; [|split; [|split; [|split]]]].
  - assert (H0 : (0 < IZR (nsteps_ ev))%R) by lra.
    apply lt_IZR in H0.
    assert (H1 : (IZR (nsteps_ ev) < 2147483648)%R) by lra.
    apply lt_IZR in H1. lia.
  - reflexivity.
  - rewrite Hx. change (dxy_ ev) with s. lra.
  - rewrite Hx.
    assert (H1 : ((IZR (nsteps_ ev) - 1) * s < 2 * m / s * s)%R)
      by (apply Rmult_lt_compat_r; lra).
    lra.
  - apply Event_ctor_wf.
  - intros iy ix Hin.
    assert (Hz : forall g, g = make_grid (nsteps_ ev) ->
                   grid_get g iy ix = Some 0%R).
    { intros g ->.
      replace (make_grid (nsteps_ ev))
        with (grid_fill (make_grid (nsteps_ ev)) 0%R).
      - apply (grid_fill_get (nsteps_ ev)); [apply make_grid_wf | exact Hin].
      - unfold grid_fill, make_grid. simpl.
        rewrite map_repeat. rewrite map_repeat. reflexivity. }
    repeat split; apply Hz; reflexivity.
Qed.

Lemma constructed_grid_witness :
  ((0 < cfg_grid_step Sample.real_config)%R /\
   (0 < cfg_grid_max Sample.real_config)%R /\
   (2 * cfg_grid_max Sample.real_config / cfg_grid_step Sample.real_config
    <= 2147483647)%R) /\
  1 <= nsteps_ (Event_ctor Sample.real_config) <= 2147483647 /\
  (xymax_ (Event_ctor Sample.real_config) < 10 + 1 / 5 / 2)%R.
Proof.
  assert (Hs : (0 < cfg_grid_step Sample.real_config)%R) by (simpl; lra).
  assert (Hm : (0 < cfg_grid_max Sample.real_config)%R) by (simpl; lra).
  assert (Hq : (2 * cfg_grid_max Sample.real_config
                / cfg_grid_step Sample.real_config <= 2147483647)%R).
  { simpl. replace (2 * 10 / (1 / 5))%R with 100%R by field. lra. }
  split; [split; [exact Hs | split; [exact Hm | exact Hq]]|].
  destruct (constructed_grid Sample.real_config Hs Hm Hq)
    as (H1 & _ & _ & H4 & _).
  split; [exact H1 | exact H4].
Defined.

(** ** Event::compute as a whole *)

Section ComputeFacts.

Context {D : Type} {AD : Arith D}.
Local Open Scope dbl_scope.

(** The deposition reads the grid parameters of the event and the extents
    of the target grid, nothing else. *)
Lemma compute_nuclear_thickness_config (ev ev' : Event D)
  (nucleus : Nucleus D) (nucleon_common : NucleonCommon D)
  (TX TX' : Grid D) (npart : Z) :
  dxy_ ev = dxy_ ev' -> xymax_ ev = xymax_ ev' -> nsteps_ ev = nsteps_ ev' ->
  grid_wf (nsteps_ ev) TX -> grid_wf (nsteps_ ev) TX' ->
  compute_nuclear_thickness ev nucleus nucleon_common TX npart
  = compute_nuclear_thickness ev' nucleus nucleon_common TX' npart.
Proof.
  intros Hd Hx Hn Hwf Hwf'. unfold compute_nuclear_thickness.
  rewrite (grid_fill_extents (nsteps_ ev) TX TX' (#0) Hwf Hwf').
  apply foldM_ext. intros [g np] nucleon.
  unfold deposit_nucleon, index_of, deposit_cell, cell_center.
  rewrite Hd, Hx, Hn. reflexivity.
Qed.

(** The reduced-thickness loop reads the two thickness fields, the
    normalization and the extents; the old reduced field is overwritten. *)
Lemma reduced_loop_config (ev ev' : Event D) (gen_mean : D -> D -> D) :
  norm_ ev = norm_ ev' -> nsteps_ ev = nsteps_ ev' ->
  TA_ ev = TA_ ev' -> TB_ ev = TB_ ev' ->
  grid_wf (nsteps_ ev) (TA_ ev) -> grid_wf (nsteps_ ev) (TB_ ev) ->
  grid_wf (nsteps_ ev) (TR_ ev) -> grid_wf (nsteps_ ev) (TR_ ev') ->
  reduced_loop ev gen_mean = reduced_loop ev' gen_mean
  /\ reduced_loop ev gen_mean <> None.
Proof.
  intros Hnorm Hn HA HB HwA HwB HwR HwR'.
  destruct (reduced_loop_spec ev gen_mean HwA HwB HwR)
    as (acc & Hloop & Hwf & Hset & _ & Hsum & Hix & Hiy).
  assert (HwA' : grid_wf (nsteps_ ev') (TA_ ev')) by (rewrite <- Hn, <- HA; exact HwA).
  assert (HwB' : grid_wf (nsteps_ ev') (TB_ ev')) by (rewrite <- Hn, <- HB; exact HwB).
  assert (HwR'' : grid_wf (nsteps_ ev') (TR_ ev')) by (rewrite <- Hn; exact HwR').
  destruct (reduced_loop_spec ev' gen_mean HwA' HwB' HwR'')
    as (acc' & Hloop' & Hwf' & Hset' & _ & Hsum' & Hix' & Hiy').
  rewrite Hloop, Hloop'. split; [|discriminate].
  assert (Hval : forall p, reduced_value ev gen_mean p
                           = reduced_value ev' gen_mean p).
  { intros p. unfold reduced_value. rewrite Hnorm, HA, HB. reflexivity. }
  assert (HTR : ra_TR acc = ra_TR acc').
  { apply (grid_ext (nsteps_ ev)); [exact Hwf | rewrite Hn; exact Hwf' |].
    intros iy ix Hin. rewrite (Hset iy ix Hin).
    rewrite Hn in Hin. rewrite (Hset' iy ix Hin). f_equal. apply Hval. }
  destruct acc as [g s cx cy], acc' as [g' s' cx' cy']. simpl in *.
  subst g'. f_equal. f_equal.
  - congruence.
  - rewrite Hix, Hix', Hn. apply fold_left_ext. intros a p.
    rewrite Hval. reflexivity.
  - rewrite Hiy, Hiy', Hn. apply fold_left_ext. intros a p.
    rewrite Hval. reflexivity.
Qed.

Context {L : Libm D}.

(** The passes read the reduced field, the centroid, the step and the
    extents. *)
Lemma compute_observables_config (ev ev' : Event D) :
  dxy_ ev = dxy_ ev' -> nsteps_ ev = nsteps_ ev' -> TR_ ev = TR_ ev' ->
  ixcm_ ev = ixcm_ ev' -> iycm_ ev = iycm_ ev' ->
  grid_wf (nsteps_ ev) (TR_ ev) ->
  exists new,
    map fst new = [11; 10; 9; 8; 7; 6; 5; 4; 3; 2] /\
    compute_observables ev
    = Some (set_eccentricity ev (new ++ eccentricity_ ev)) /\
    compute_observables ev'
    = Some (set_eccentricity ev' (new ++ eccentricity_ ev')).
Proof.
  intros Hd Hn HTR Hix Hiy Hwf.
  assert (Hwf' : grid_wf (nsteps_ ev') (TR_ ev'))
    by (rewrite <- Hn, <- HTR; exact Hwf).
  assert (Hpass : forall step step',
            (forall h iy ix t, step h iy ix t = step' h iy ix t) ->
            pass ev step = pass ev' step').
  { intros step step' Hstep. rewrite (pass_spec ev step Hwf).
    rewrite (pass_spec ev' step' Hwf'). f_equal.
    unfold included_cells. rewrite Hn, HTR.
    apply fold_left_ext. intros h c. unfold on_cell. apply Hstep. }
  assert (He : pass ev (ecc_step ev) = pass ev' (ecc_step ev')).
  { apply Hpass. intros. unfold ecc_step, cell_powers.
    rewrite Hix, Hiy. reflexivity. }
  assert (Ha : pass ev (angle_step ev) = pass ev' (angle_step ev')).
  { apply Hpass. intros. unfold angle_step, cell_powers.
    rewrite Hix, Hiy. reflexivity. }
  assert (HR : pass ev (radius_step ev) = pass ev' (radius_step ev')).
  { apply Hpass. intros. unfold radius_step, cell_powers.
    rewrite Hix, Hiy. reflexivity. }
  destruct (compute_observables_spec ev Hwf)
    as (e & a & R & He1 & Ha1 & HR1 & Hobs).
  destruct (compute_observables_spec ev' Hwf')
    as (e' & a' & R' & He2 & Ha2 & HR2 & Hobs').
  assert (e' = e) by congruence. assert (a' = a) by congruence.
  assert (R' = R) by congruence. subst e' a' R'.
  exists (rev (map (fun ko => (fst ko, observable_value ev e a R (snd ko)))
                 observable_layout)).
  split; [reflexivity|]. split; [exact Hobs|].
  rewrite Hobs'. f_equal. f_equal. f_equal. f_equal.
  apply map_ext. intros [k o]. simpl. f_equal.
  destruct o as [|[] n]; simpl; rewrite ?Hd; reflexivity.
Qed.

End ComputeFacts.

(** X7.  On an event whose grid is not empty and whose fields have its
    extents, Event::compute returns.  It leaves the configuration
    (normalization, step, extents, half-width, mean) as it is and the
    fields with their extents, so the event can be used again.  The
    participant count is reset and then counts the participants of both
    nuclei; the reduced field is norm * mean of the two freshly deposited
    thickness fields, cell by cell; the multiplicity is dxy * dxy times its
    sum; slots 2 to 11 of the observable vector are written. *)
Theorem compute_event
  {D : Type} {AD : Arith D} {L : Libm D} (ev : Event D)
  (nucleusA nucleusB : Nucleus D) (nucleon_common : NucleonCommon D) :
  0 < nsteps_ ev -> event_wf ev ->
  exists ev' new,
    compute ev nucleusA nucleusB nucleon_common = Some ev' /\
    same_config ev ev' /\ event_wf ev' /\
    npart_ ev' = count_participants nucleusA + count_participants nucleusB /\
    (forall iy ix, in_grid (nsteps_ ev) iy ix ->
       let a := fold_left (deposited ev nucleon_common iy ix) nucleusA (#0)%D in
       let b := fold_left (deposited ev nucleon_common iy ix) nucleusB (#0)%D in
       grid_get (TA_ ev') iy ix = Some a /\
       grid_get (TB_ ev') iy ix = Some b /\
       grid_get (TR_ ev') iy ix = Some (norm_ ev * gen_mean_ ev a b)%D) /\
    multiplicity_ ev' = (dxy_ ev * dxy_ ev * grid_sum (TR_ ev'))%D /\
    eccentricity_ ev' = new ++ eccentricity_ ev /\
    map fst new = [11; 10; 9; 8; 7; 6; 5; 4; 3; 2].
Proof.
  intros Hn (HA & HB & HR). unfold compute.
  destruct (deposit_nucleus_spec (set_npart ev 0) nucleon_common nucleusA Hn
              (grid_fill (TA_ ev) (#0)%D) 0 (grid_fill_wf _ _ _ HA))
    as (TA & HTA & HwfA & HcA).
  unfold compute_nuclear_thickness. simpl TA_. simpl npart_.
  rewrite HTA.
  destruct (deposit_nucleus_spec
              (set_TA (set_npart ev 0) TA (0 + count_participants nucleusA))
              nucleon_common nucleusB Hn
              (grid_fill (TB_ ev) (#0)%D) (0 + count_participants nucleusA)
              (grid_fill_wf _ _ _ HB))
    as (TB & HTB & HwfB & HcB).
  simpl TB_. simpl npart_. rewrite HTB.
  set (ev2 := set_TB (set_TA (set_npart ev 0) TA
                        (0 + count_participants nucleusA)) TB
                (0 + count_participants nucleusA
                 + count_participants nucleusB)).
  destruct (reduced_loop_spec ev2 (gen_mean_ ev2) HwfA HwfB HR)
    as (acc & Hloop & HwfR & Hset & _ & Hsum & _).
  unfold compute_reduced_thickness. rewrite Hloop.
  set (ev3 := set_reduced ev2 (ra_TR acc) _ _ _).
  destruct (compute_observables_config ev3 ev3 eq_refl eq_refl eq_refl
              eq_refl eq_refl HwfR) as (new & Hkeys & Hobs & _).
  rewrite Hobs. eexists. exists new. split; [reflexivity|]. simpl.
  split; [repeat split|].
  split; [split; [exact HwfA | split; [exact HwfB | exact HwfR]]|].
  split; [lia|]. split; [|split; [|split; [reflexivity | exact Hkeys]]].
  - intros iy ix Hin.
    pose proof (grid_fill_get (nsteps_ ev) (TA_ ev) (#0)%D iy ix HA Hin) as H0A.
    pose proof (grid_fill_get (nsteps_ ev) (TB_ ev) (#0)%D iy ix HB Hin) as H0B.
    pose proof (HcA iy ix _ H0A) as HcellA.
    pose proof (HcB iy ix _ H0B) as HcellB.
    split; [exact HcellA|]. split; [exact HcellB|].
    rewrite (Hset iy ix Hin). unfold reduced_value, grid_at. simpl.
    rewrite HcellA, HcellB. reflexivity.
  - rewrite Hsum. reflexivity.
Qed.

Lemma compute_event_witness :
  0 < nsteps_ SampleR.event /\ event_wf SampleR.event /\
  exists ev',
    compute SampleR.event SampleR.nucleus SampleR.nucleus_reversed
      SampleR.common = Some ev' /\
    npart_ ev' = count_participants SampleR.nucleus
                 + count_participants SampleR.nucleus_reversed.
Proof.
  assert (Hn : 0 < nsteps_ SampleR.event) by reflexivity.
  assert (Hwf : event_wf SampleR.event)
    by (repeat split; simpl; repeat constructor).
  split; [exact Hn|]. split; [exact Hwf|].
  destruct (compute_event SampleR.event SampleR.nucleus
              SampleR.nucleus_reversed SampleR.common Hn Hwf)
    as (ev' & new & Hrun & _ & _ & Hnp & _).
  exists ev'. split; [exact Hrun | exact Hnp].
Defined.

(** X8.  Event::compute does not depend on what an earlier computation
    left in the event.  Two events of the same configuration, whatever
    their fields, counter, multiplicity and centroid hold, give for the
    same nuclei the same thickness fields, reduced field, participant
    count, multiplicity and centroid, and write the same values to slots 2
    to 11 of the observable vector (older entries stay underneath). *)
Theorem compute_forgets_previous_event
  {D : Type} {AD : Arith D} {L : Libm D} (ev ev' : Event D)
  (nucleusA nucleusB : Nucleus D) (nucleon_common : NucleonCommon D) :
  same_config ev ev' -> 0 < nsteps_ ev -> event_wf ev -> event_wf ev' ->
  exists r r' new,
    compute ev nucleusA nucleusB nucleon_common = Some r /\
    compute ev' nucleusA nucleusB nucleon_common = Some r' /\
    TA_ r = TA_ r' /\ TB_ r = TB_ r' /\ TR_ r = TR_ r' /\
    npart_ r = npart_ r' /\ multiplicity_ r = multiplicity_ r' /\
    ixcm_ r = ixcm_ r' /\ iycm_ r = iycm_ r' /\
    eccentricity_ r = new ++ eccentricity_ ev /\
    eccentricity_ r' = new ++ eccentricity_ ev' /\
    map fst new = [11; 10; 9; 8; 7; 6; 5; 4; 3; 2].
Proof.
  intros (Hnorm & Hd & Hns & Hx & Hgm) Hn (HA & HB & HR) (HA' & HB' & HR').
  rewrite <- Hns in HA', HB', HR'.
  unfold compute.
  (* nucleus A *)
  rewrite <- (compute_nuclear_thickness_config (set_npart ev 0)
                (set_npart ev' 0) nucleusA nucleon_common (TA_ ev) (TA_ ev') 0
                Hd Hx Hns HA HA').
  destruct (deposit_nucleus_spec (set_npart ev 0) nucleon_common nucleusA Hn
              (grid_fill (TA_ ev) (#0)%D) 0 (grid_fill_wf _ _ _ HA))
    as (TA & HTA & HwfA & _).
  unfold compute_nuclear_thickness at 1 3. simpl TA_. simpl npart_.
  rewrite HTA.
  (* nucleus B *)
  set (cA := 0 + count_participants nucleusA) in *.
  rewrite <- (compute_nuclear_thickness_config
                (set_TA (set_npart ev 0) TA cA)
                (set_TA (set_npart ev' 0) TA cA)
                nucleusB nucleon_common (TB_ ev) (TB_ ev') cA
                Hd Hx Hns HB HB').
  destruct (deposit_nucleus_spec (set_TA (set_npart ev 0) TA cA)
              nucleon_common nucleusB Hn
              (grid_fill (TB_ ev) (#0)%D) cA (grid_fill_wf _ _ _ HB))
    as (TB & HTB & HwfB & _).
  unfold compute_nuclear_thickness. simpl TB_. simpl npart_.
  rewrite HTB.
  set (cB := cA + count_participants nucleusB) in *.
  set (ev2 := set_TB (set_TA (set_npart ev 0) TA cA) TB cB).
  set (ev2' := set_TB (set_TA (set_npart ev' 0) TA cA) TB cB).
  (* the reduced field *)
  change (gen_mean_ ev2) with (gen_mean_ ev).
  change (gen_mean_ ev2') with (gen_mean_ ev'). rewrite <- Hgm.
  destruct (reduced_loop_config ev2 ev2' (gen_mean_ ev)
              Hnorm Hns eq_refl eq_refl HwfA HwfB HR HR') as [Hloop Hsome].
  unfold compute_reduced_thickness. rewrite <- Hloop.
  destruct (reduced_loop ev2 (gen_mean_ ev)) as [acc|] eqn:Hacc;
    [|contradiction].
  destruct (reduced_loop_spec ev2 (gen_mean_ ev) HwfA HwfB HR)
    as (acc0 & Hacc0 & HwfR & _).
  assert (acc0 = acc) by congruence. subst acc0.
  set (ev3 := set_reduced ev2 (ra_TR acc) _ _ _).
  set (ev3' := set_reduced ev2' (ra_TR acc) _ _ _).
  (* the observables *)
  assert (Hix : ixcm_ ev3 = ixcm_ ev3') by reflexivity.
  assert (Hiy : iycm_ ev3 = iycm_ ev3') by reflexivity.
  destruct (compute_observables_config ev3 ev3' Hd Hns eq_refl Hix Hiy HwfR)
    as (new & Hkeys & Hobs & Hobs').
  rewrite Hobs, Hobs'.
  eexists. eexists. exists new.
  split; [reflexivity|]. split; [reflexivity|]. simpl.
  repeat (split; [reflexivity|]).
  split.
  { change (dxy_ ev2) with (dxy_ ev). change (dxy_ ev2') with (dxy_ ev').
    rewrite Hd. reflexivity. }
  repeat (split; [reflexivity|]). exact Hkeys.
Qed.

Lemma compute_forgets_previous_event_witness :
  same_config SampleR.event SampleR.used_event /\
  0 < nsteps_ SampleR.event /\
  event_wf SampleR.event /\ event_wf SampleR.used_event /\
  exists r r',
    compute SampleR.event SampleR.nucleus SampleR.nucleus_reversed
      SampleR.common = Some r /\
    compute SampleR.used_event SampleR.nucleus SampleR.nucleus_reversed
      SampleR.common = Some r' /\
    TR_ r = TR_ r' /\ npart_ r = npart_ r' /\ ixcm_ r = ixcm_ r'.
Proof.
  assert (Hc : same_config SampleR.event SampleR.used_event)
    by (repeat split; reflexivity).
  assert (Hn : 0 < nsteps_ SampleR.event) by reflexivity.
  assert (Hwf : event_wf SampleR.event)
    by (repeat split; simpl; repeat constructor).
  assert (Hwf' : event_wf SampleR.used_event)
    by (repeat split; simpl; repeat constructor).
  split; [exact Hc|]. split; [exact Hn|]. split; [exact Hwf|].
  split; [exact Hwf'|].
  destruct (compute_forgets_previous_event SampleR.event SampleR.used_event
              SampleR.nucleus SampleR.nucleus_reversed SampleR.common
              Hc Hn Hwf Hwf')
    as (r & r' & new & H1 & H2 & _ & _ & H5 & H6 & _ & H8 & _).
  exists r, r'. repeat split; assumption.
Defined.

(** ** The observable vector as a store *)

Section StoreFacts.

Context {D : Type}.

(** Entries written on top hide the older ones with the same key only. *)
Lemma ecc_lookup_app (k : Z) (new old : list (Z * D)) :
  ecc_lookup k (new ++ old)
  = if existsb (Z.eqb k) (map fst new) then ecc_lookup k new
    else ecc_lookup k old.
Proof.
  unfold ecc_lookup. induction new as [|[k' v] new IH]; simpl.
  - reflexivity.
  - rewrite (Z.eqb_sym k k'). destruct (k' =? k) eqn:E; simpl.
    + reflexivity.
    + exact IH.
Qed.

Lemma ecc_lookup_in (k : Z) (new : list (Z * D)) :
  existsb (Z.eqb k) (map fst new) = true -> ecc_lookup k new <> None.
Proof.
  unfold ecc_lookup. induction new as [|[k' v] new IH]; simpl.
  - discriminate.
  - rewrite (Z.eqb_sym k k'). destruct (k' =? k) eqn:E; simpl.
    + discriminate.
    + exact IH.
Qed.

End StoreFacts.

(** X9.  compute_observables writes slots 2 to 11 of the observable
    vector and nothing else: every other slot keeps the value it had (or
    stays empty), the values written do not depend on what the vector held
    before, and no other member of the event changes. *)
Theorem compute_observables_writes_slots_2_to_11
  {D : Type} {AD : Arith D} {L : Libm D} (ev : Event D)
  (old : list (Z * D)) :
  grid_wf (nsteps_ ev) (TR_ ev) ->
  exists ev' ev'',
    compute_observables ev = Some ev' /\
    compute_observables (set_eccentricity ev old) = Some ev'' /\
    set_eccentricity ev' (eccentricity_ ev) = ev /\
    (forall k, k < 2 \/ 11 < k ->
       ecc_lookup k (eccentricity_ ev') = ecc_lookup k (eccentricity_ ev)) /\
    (forall k, 2 <= k <= 11 ->
       ecc_lookup k (eccentricity_ ev') <> None /\
       ecc_lookup k (eccentricity_ ev') = ecc_lookup k (eccentricity_ ev'')).
Proof.
  intros Hwf.
  destruct (compute_observables_config ev (set_eccentricity ev old)
              eq_refl eq_refl eq_refl eq_refl eq_refl Hwf)
    as (new & Hkeys & Hobs & Hobs').
  eexists. eexists. split; [exact Hobs|]. split; [exact Hobs'|].
  simpl. split; [destruct ev; reflexivity|]. split.
  - intros k Hk. rewrite ecc_lookup_app, Hkeys.
    replace (existsb (Z.eqb k) [11; 10; 9; 8; 7; 6; 5; 4; 3; 2]) with false;
      [reflexivity|].
    symmetry. simpl. rewrite !orb_false_iff.
    repeat split; apply Z.eqb_neq; lia.
  - intros k Hk. rewrite !ecc_lookup_app, Hkeys.
    replace (existsb (Z.eqb k) [11; 10; 9; 8; 7; 6; 5; 4; 3; 2]) with true.
    + split; [|reflexivity]. apply ecc_lookup_in. rewrite Hkeys.
      simpl. rewrite !orb_true_iff.
      assert (Hc : k = 11 \/ k = 10 \/ k = 9 \/ k = 8 \/ k = 7 \/ k = 6
                   \/ k = 5 \/ k = 4 \/ k = 3 \/ k = 2) by lia.
      repeat (destruct Hc as [-> | Hc]; [rewrite Z.eqb_refl; tauto|]).
      subst k. rewrite Z.eqb_refl. tauto.
    + symmetry. simpl. rewrite !orb_true_iff.
      assert (Hc : k = 11 \/ k = 10 \/ k = 9 \/ k = 8 \/ k = 7 \/ k = 6
                   \/ k = 5 \/ k = 4 \/ k = 3 \/ k = 2) by lia.
      repeat (destruct Hc as [-> | Hc]; [rewrite Z.eqb_refl; tauto|]).
      subst k. rewrite Z.eqb_refl. tauto.
Qed.

Lemma compute_observables_writes_slots_2_to_11_witness :
  grid_wf (nsteps_ SampleR.used_event) (TR_ SampleR.used_event) /\
  exists ev',
    compute_observables SampleR.used_event = Some ev' /\
    ecc_lookup 0 (eccentricity_ ev')
    = ecc_lookup 0 (eccentricity_ SampleR.used_event) /\
    ecc_lookup 3 (eccentricity_ ev') <> None.
Proof.
  assert (Hwf : grid_wf (nsteps_ SampleR.used_event)
                  (TR_ SampleR.used_event))
    by (split; simpl; repeat constructor).
  split; [exact Hwf|].
  destruct (compute_observables_writes_slots_2_to_11 SampleR.used_event []
              Hwf) as (ev' & ev'' & Hrun & _ & _ & Hout & Hin).
  exists ev'. split; [exact Hrun|]. split.
  - apply Hout. lia.
  - apply (Hin 3). lia.
Defined.

(** ** The generalized means, in real arithmetic

    Here pow is the real power a^p of a positive base ([Rlibm]). *)

Section Means.

Local Open Scope R_scope.

Lemma Rpow_positive (a p : R) :
  0 < a -> Rops.pow a p = Rpower a p /\ 0 < Rops.pow a p.
Proof.
  intros Ha. unfold Rops.pow. destruct (Rlt_dec 0 a) as [_|Hn]; [|lra].
  split; [reflexivity|]. unfold Rpower. apply exp_pos.
Qed.

Lemma Rpower_inverse (a p : R) :
  0 < a -> p <> 0 -> Rpower (Rpower a p) (1 / p) = a.
Proof.
  intros Ha Hp. rewrite Rpower_mult.
  replace (p * (1 / p)) with 1 by (field; exact Hp).
  apply Rpower_1. exact Ha.
Qed.

(** x |-> x^c is increasing for c >= 0 and decreasing for c <= 0. *)
Lemma Rpower_base_monotone (x y c : R) :
  0 < x <= y ->
  (0 <= c -> Rpower x c <= Rpower y c) /\
  (c <= 0 -> Rpower y c <= Rpower x c).
Proof.
  intros Hxy. split; intros Hc.
  - apply Rle_Rpower_l; assumption.
  - remember (- c) as d eqn:Hd.
    replace c with (- d) by lra.
    rewrite (Rpower_Ropp y d), (Rpower_Ropp x d).
    apply Rinv_le_contravar.
    + unfold Rpower. apply exp_pos.
    + apply Rle_Rpower_l; lra.
Qed.

Lemma pmean_real (p a b : R) :
  0 < a -> 0 < b ->
  positive_pmean p a b
  = Rpower (1 / 2 * (Rpower a p + Rpower b p)) (1 / p)
  /\ 0 < 1 / 2 * (Rpower a p + Rpower b p).
Proof.
  intros Ha Hb. unfold positive_pmean. simpl.
  destruct (Rpow_positive a p Ha) as [-> HA].
  destruct (Rpow_positive b p Hb) as [-> HB].
  assert (HM : 0 < 1 / 2 * (Rpower a p + Rpower b p)) by lra.
  destruct (Rpow_positive _ (1 / p) HM) as [-> _]. split; [reflexivity|].
  exact HM.
Qed.

Lemma pmean_between (p a b : R) :
  p <> 0 -> 0 < a <= b ->
  a <= positive_pmean p a b <= b.
Proof.
  intros Hp [Ha Hab].
  assert (Hb : 0 < b) by lra.
  destruct (pmean_real p a b Ha Hb) as [-> HM].
  set (A := Rpower a p) in *. set (B := Rpower b p) in *.
  assert (HA : 0 < A) by (unfold A, Rpower; apply exp_pos).
  assert (HB : 0 < B) by (unfold B, Rpower; apply exp_pos).
  assert (Hgoal : Rpower A (1 / p) <= Rpower (1 / 2 * (A + B)) (1 / p)
                  <= Rpower B (1 / p)).
  { destruct (Rlt_dec 0 p) as [Hpos|Hneg].
    - assert (HAB : A <= B).
      { apply (proj1 (Rpower_base_monotone a b p (conj Ha Hab))). lra. }
      assert (Hc : 0 <= 1 / p)
        by (left; apply Rdiv_lt_0_compat; lra).
      split.
      + apply (proj1 (Rpower_base_monotone A (1 / 2 * (A + B)) (1 / p)
                        ltac:(split; lra)) Hc).
      + apply (proj1 (Rpower_base_monotone (1 / 2 * (A + B)) B (1 / p)
                        ltac:(split; lra)) Hc).
    - assert (Hp' : p < 0) by lra.
      assert (HAB : B <= A).
      { apply (proj2 (Rpower_base_monotone a b p (conj Ha Hab))). lra. }
      assert (Hc : 1 / p <= 0).
      { left. unfold Rdiv. rewrite Rmult_1_l. apply Rinv_lt_0_compat.
        exact Hp'. }
      split.
      + apply (proj2 (Rpower_base_monotone (1 / 2 * (A + B)) A (1 / p)
                        ltac:(split; lra)) Hc).
      + apply (proj2 (Rpower_base_monotone B (1 / 2 * (A + B)) (1 / p)
                        ltac:(split; lra)) Hc). }
  assert (EA : Rpower A (1 / p) = a) by (apply Rpower_inverse; assumption).
  assert (EB : Rpower B (1 / p) = b) by (apply Rpower_inverse; assumption).
  rewrite EA, EB in Hgoal. exact Hgoal.
Qed.

Lemma geometric_between (a b : R) :
  0 <= a <= b -> a <= geometric_mean a b <= b.
Proof.
  intros [Ha Hab]. unfold geometric_mean. simpl.
  split.
  - rewrite <- (sqrt_square a) at 1 by exact Ha.
    apply sqrt_le_1_alt; nra.
  - apply Rle_trans with (sqrt (b * b)).
    + apply sqrt_le_1_alt; nra.
    + rewrite sqrt_square by lra. apply Rle_refl.
Qed.

(** The branch that the constructor takes. *)
Lemma select_mean_branch (p : R) :
  (Rabs p < TINY /\ select_mean p = geometric_mean) \/
  (TINY <= p /\ select_mean p = (fun a b => positive_pmean p a b)) \/
  (p <= - TINY /\ select_mean p = (fun a b => negative_pmean p a b)).
Proof.
  pose proof TINY_pos as HT. unfold select_mean.
  destruct (d_fabs p <? TINY)%D eqn:E1.
  - left. split; [|reflexivity]. apply Rltb_true in E1. exact E1.
  - right. apply Rltb_false in E1. change (TINY <= Rabs p) in E1.
    destruct (p >? #0)%D eqn:E2.
    + left. split; [|reflexivity]. apply Rltb_true in E2.
      change (0 < p) in E2.
      rewrite Rabs_pos_eq in E1 by lra. exact E1.
    + right. split; [|reflexivity]. apply Rltb_false in E2.
      change (p <= 0) in E2.
      rewrite Rabs_left1 in E1 by exact E2. lra.
Qed.

End Means.

Section MeansMore.

Local Open Scope R_scope.

Lemma select_mean_comm (p a b : R) :
  select_mean p a b = select_mean p b a.
Proof.
  destruct (select_mean_branch p) as [[_ ->]|[[_ ->]|[_ ->]]].
  - unfold geometric_mean. simpl. rewrite Rmult_comm. reflexivity.
  - unfold positive_pmean. simpl. rewrite Rplus_comm. reflexivity.
  - unfold negative_pmean, positive_pmean. simpl.
    rewrite orb_comm, Rplus_comm. reflexivity.
Qed.

End MeansMore.

(** X10.  Over the reals, the mean that the constructor selects is a mean:
    for every exponent [p] and thicknesses [TINY <= a <= b] the selected
    function returns a value between [a] and [b], and it does not depend on
    the order of its two arguments. *)
Theorem select_mean_between (p a b : R) :
  (TINY <= a)%R -> (a <= b)%R ->
  (a <= select_mean p a b <= b)%R /\
  select_mean p b a = select_mean p a b.
Proof.
  intros Ha Hab. pose proof TINY_pos as HT.
  split; [|apply select_mean_comm].
  destruct (select_mean_branch p) as [[_ ->]|[[Hp ->]|[Hp ->]]].
  - apply geometric_between. lra.
  - apply pmean_between; [lra | split; lra].
  - unfold negative_pmean.
    assert (E1 : (a <? TINY)%D = false) by (apply Rltb_false; exact Ha).
    assert (E2 : (b <? TINY)%D = false) by (apply Rltb_false; lra).
    rewrite E1, E2. simpl orb. cbv iota.
    apply pmean_between; [lra | split; lra].
Qed.

Lemma select_mean_between_witness :
  ((TINY <= 1)%R /\ (1 <= 2)%R) /\
  ((1 <= select_mean (-1) 1 2 <= 2)%R /\
   select_mean (-1)%R 2%R 1%R = select_mean (-1)%R 1%R 2%R).
Proof.
  assert (H1 : (TINY <= 1)%R) by (unfold TINY; simpl; lra).
  assert (H2 : (1 <= 2)%R) by lra.
  split; [split; assumption|].
  exact (select_mean_between (-1) 1 2 H1 H2).
Defined.

(** X11.  Over the reals, a cell where only one nucleus has thickness: with
    an exponent below [TINY] (geometric mean or negative exponent) the
    selected mean of [0] and [b] is [0] in either order, while with an
    exponent of at least [TINY] it is positive. *)
Theorem select_mean_one_sided (p b : R) :
  (0 < b)%R ->
  ((p < TINY)%R -> select_mean p 0%R b = 0%R /\ select_mean p b 0%R = 0%R) /\
  ((TINY <= p)%R -> (0 < select_mean p 0 b)%R).
Proof.
  intros Hb. pose proof TINY_pos as HT.
  assert (Hz : Rops.ltb 0 TINY = true)
    by (apply Rltb_true; exact HT).
  split; intros Hp.
  - rewrite (select_mean_comm p b 0). split; [|].
    all: destruct (select_mean_branch p) as [[_ ->]|[[Hq ->]|[_ ->]]];
      try lra.
    all: try (unfold geometric_mean; simpl; rewrite Rmult_0_l;
              apply sqrt_0).
    all: unfold negative_pmean;
      change ((0%R : R) <? TINY)%D with (Rops.ltb 0 TINY);
      rewrite Hz; reflexivity.
  - destruct (select_mean_branch p) as [[Hq ->]|[[_ ->]|[Hq ->]]].
    + apply Rabs_def2 in Hq. lra.
    + unfold positive_pmean. simpl.
      destruct (Rpow_positive b p Hb) as [-> HB].
      assert (E0 : Rops.pow 0 p = 0%R).
      { unfold Rops.pow. destruct (Rlt_dec 0 0); [lra | reflexivity]. }
      rewrite E0.
      assert (HM : (0 < 1 / 2 * (0 + Rpower b p))%R) by lra.
      destruct (Rpow_positive _ (1 / p) HM) as [_ H]. exact H.
    + lra.
Qed.

Lemma select_mean_one_sided_witness :
  (0 < 2)%R /\
  (((0 < TINY)%R -> select_mean 0%R 0%R 2%R = 0%R /\
                    select_mean 0%R 2%R 0%R = 0%R) /\
   ((TINY <= 1)%R -> (0 < select_mean 1 0 2)%R)).
Proof.
  assert (H : (0 < 2)%R) by lra.
  split; [exact H|]. split.
  - exact (proj1 (select_mean_one_sided 0 2 H)).
  - exact (proj2 (select_mean_one_sided 1 2 H)).
Defined.

(** ** The centroid of the reduced thickness, in real arithmetic *)

Section Centroid.

Local Open Scope R_scope.

Lemma cell_sum_map {A : Type} (f : Cell R -> R) (g : A -> Cell R)
  (l : list A) :
  cell_sum f (map g l) = fold_left (fun s p => s + f (g p)) l 0.
Proof.
  assert (H : forall s : R,
             fold_left (fun s c => s + f c) (map g l) s
             = fold_left (fun s p => s + f (g p)) l s).
  { induction l as [|p l IH]; intros s; simpl; [reflexivity | apply IH]. }
  apply H.
Qed.

Lemma Rfold_plus_map {A : Type} (v : A -> R) (l : list A) (s : R) :
  fold_left Rplus (map v l) s = fold_left (fun s p => s + v p) l s.
Proof.
  revert s. induction l as [|p l IH]; intros s; simpl;
    [reflexivity | apply IH].
Qed.

(** The first moment about [c] is the first moment about 0 minus [c] times
    the sum. *)
Lemma Rfold_moment {A : Type} (v w : A -> R) (c : R) (l : list A) (a b : R) :
  fold_left (fun s p => s + v p * (w p - c)) l (a - c * b)
  = fold_left (fun s p => s + v p * w p) l a
    - c * fold_left (fun s p => s + v p) l b.
Proof.
  revert a b. induction l as [|p l IH]; intros a b; simpl; [reflexivity|].
  rewrite <- IH. f_equal. ring.
Qed.

(** A weighted sum of values in [lo, hi] with non-negative weights lies
    between [lo] and [hi] times the sum of the weights. *)
Lemma Rfold_moment_bounds {A : Type} (v w : A -> R) (lo hi : R) (l : list A) :
  (forall p, In p l -> 0 <= v p /\ lo <= w p <= hi) ->
  forall a b, lo * b <= a <= hi * b ->
  lo * fold_left (fun s p => s + v p) l b
  <= fold_left (fun s p => s + v p * w p) l a
  <= hi * fold_left (fun s p => s + v p) l b.
Proof.
  induction l as [|p l IH]; intros Hl a b Hab; simpl; [exact Hab|].
  apply IH.
  - intros q Hq. apply Hl. right. exact Hq.
  - destruct (Hl p (or_introl eq_refl)) as [Hv Hw]. nra.
Qed.

Variable ev : Event R.
Variable gen_mean : R -> R -> R.
Hypothesis Hwf : event_wf ev.

(** What compute_reduced_thickness returns, cell by cell and as sums over
    the grid indices. *)
Lemma compute_reduced_thickness_sums :
  exists ev',
    compute_reduced_thickness gen_mean ev = Some ev' /\
    nsteps_ ev' = nsteps_ ev /\
    grid_cells (nsteps_ ev) (TR_ ev')
    = map (fun p => (p, reduced_value ev gen_mean p))
        (grid_indices (nsteps_ ev)) /\
    grid_sum (TR_ ev')
    = fold_left (fun s p => s + reduced_value ev gen_mean p)
        (grid_indices (nsteps_ ev)) 0 /\
    ixcm_ ev'
    = fold_left (fun s p => s + reduced_value ev gen_mean p * IZR (snd p))
        (grid_indices (nsteps_ ev)) 0 / grid_sum (TR_ ev') /\
    iycm_ ev'
    = fold_left (fun s p => s + reduced_value ev gen_mean p * IZR (fst p))
        (grid_indices (nsteps_ ev)) 0 / grid_sum (TR_ ev').
Proof.
  destruct Hwf as (HA & HB & HR).
  destruct (reduced_loop_spec ev gen_mean HA HB HR)
    as (acc & Hloop & Hwf' & Hset & Hcat & Hs & Hix & Hiy).
  unfold compute_reduced_thickness. rewrite Hloop.
  eexists. split; [reflexivity|]. simpl.
  split; [reflexivity|]. split; [|split; [|split]].
  - unfold grid_cells. apply map_ext_in. intros p Hp.
    unfold grid_at. rewrite (Hset (fst p) (snd p)).
    + destruct p; reflexivity.
    + apply grid_indices_in_grid. exact Hp.
  - unfold grid_sum. rewrite Hcat. apply Rfold_plus_map.
  - rewrite Hix, Hs. reflexivity.
  - rewrite Hiy, Hs. reflexivity.
Qed.

End Centroid.

(** X12.  Over the reals, the centroid that compute_reduced_thickness
    stores is the balance point of the reduced field: when the sum of the
    field is not zero, the first moments of the field about (ixcm, iycm),
    taken over all cells in index units, are both zero. *)
Theorem centroid_is_balance_point
  (ev ev' : Event R) (gen_mean : R -> R -> R) :
  event_wf ev ->
  compute_reduced_thickness gen_mean ev = Some ev' ->
  grid_sum (TR_ ev') <> 0%R ->
  cell_sum (fun c => (cell_value c * (IZR (snd (fst c)) - ixcm_ ev'))%R)
    (grid_cells (nsteps_ ev') (TR_ ev')) = 0%R /\
  cell_sum (fun c => (cell_value c * (IZR (fst (fst c)) - iycm_ ev'))%R)
    (grid_cells (nsteps_ ev') (TR_ ev')) = 0%R.
Proof.
  intros Hwf Hrun Hsum.
  destruct (compute_reduced_thickness_sums ev gen_mean Hwf)
    as (ev1 & Hrun1 & Hn & Hcells & Hs & Hix & Hiy).
  assert (ev1 = ev') by congruence. subst ev1.
  rewrite Hn, Hcells, !cell_sum_map.
  pose proof (Rfold_moment (reduced_value ev gen_mean)
                (fun p => IZR (snd p)) (ixcm_ ev')
                (grid_indices (nsteps_ ev)) 0 0) as Mx.
  pose proof (Rfold_moment (reduced_value ev gen_mean)
                (fun p => IZR (fst p)) (iycm_ ev')
                (grid_indices (nsteps_ ev)) 0 0) as My.
  replace (0 - ixcm_ ev' * 0)%R with 0%R in Mx by ring.
  replace (0 - iycm_ ev' * 0)%R with 0%R in My by ring.
  split.
  - etransitivity; [exact Mx|]. rewrite <- Hs, Hix. field. exact Hsum.
  - etransitivity; [exact My|]. rewrite <- Hs, Hiy. field. exact Hsum.
Qed.

Lemma centroid_is_balance_point_witness :
  exists ev',
    (event_wf SampleR.event /\
     compute_reduced_thickness geometric_mean SampleR.event = Some ev' /\
     grid_sum (TR_ ev') <> 0%R) /\
    cell_sum (fun c => (cell_value c * (IZR (snd (fst c)) - ixcm_ ev'))%R)
      (grid_cells (nsteps_ ev') (TR_ ev')) = 0%R /\
    cell_sum (fun c => (cell_value c * (IZR (fst (fst c)) - iycm_ ev'))%R)
      (grid_cells (nsteps_ ev') (TR_ ev')) = 0%R.
Proof.
  assert (Hwf : event_wf SampleR.event)
    by (repeat split; simpl; repeat constructor).
  destruct (compute_reduced_thickness_sums SampleR.event geometric_mean Hwf)
    as (ev' & Hrun & _ & _ & Hs & _).
  assert (Hsum : grid_sum (TR_ ev') <> 0%R).
  { rewrite Hs.
    change (grid_indices (nsteps_ SampleR.event))
      with [(0, 0); (0, 1); (1, 0); (1, 1)]%Z.
    cbn.
    pose proof (sqrt_lt_R0 (1 * 4) ltac:(lra)) as H0.
    match goal with
    | |- (0 + 1 * _ + 1 * sqrt ?b + 1 * sqrt ?c + 1 * sqrt ?d)%R <> _ =>
        pose proof (sqrt_pos b); pose proof (sqrt_pos c);
        pose proof (sqrt_pos d)
    end.
    lra. }
  exists ev'. split; [split; [exact Hwf | split; [exact Hrun | exact Hsum]]|].
  exact (centroid_is_balance_point SampleR.event ev' geometric_mean
           Hwf Hrun Hsum).
Defined.

(** X13.  Over the reals, when no cell of the reduced field is negative
    and the field's sum is positive, the centroid that
    compute_reduced_thickness stores lies inside the grid: both of its
    coordinates, in index units, are between 0 and nsteps - 1. *)
Theorem centroid_inside_grid
  (ev ev' : Event R) (gen_mean : R -> R -> R) :
  event_wf ev ->
  compute_reduced_thickness gen_mean ev = Some ev' ->
  (forall c, In c (grid_cells (nsteps_ ev') (TR_ ev')) ->
     (0 <= cell_value c)%R) ->
  (0 < grid_sum (TR_ ev'))%R ->
  (0 <= ixcm_ ev' <= IZR (nsteps_ ev') - 1)%R /\
  (0 <= iycm_ ev' <= IZR (nsteps_ ev') - 1)%R.
Proof.
  intros Hwf Hrun Hpos Hsum.
  destruct (compute_reduced_thickness_sums ev gen_mean Hwf)
    as (ev1 & Hrun1 & Hn & Hcells & Hs & Hix & Hiy).
  assert (ev1 = ev') by congruence. subst ev1.
  rewrite Hn, Hcells in Hpos. rewrite Hn.
  assert (Hv : forall p, In p (grid_indices (nsteps_ ev)) ->
                 (0 <= reduced_value ev gen_mean p)%R).
  { intros p Hp.
    apply (Hpos (p, reduced_value ev gen_mean p)).
    apply (in_map (fun p => (p, reduced_value ev gen_mean p))). exact Hp. }
  assert (Hb : forall p, In p (grid_indices (nsteps_ ev)) ->
                 (0 <= IZR (snd p) <= IZR (nsteps_ ev) - 1)%R /\
                 (0 <= IZR (fst p) <= IZR (nsteps_ ev) - 1)%R).
  { intros p Hp. apply grid_indices_in_grid in Hp.
    destruct Hp as [[Hy0 Hy1] [Hx0 Hx1]].
    replace (IZR (nsteps_ ev) - 1)%R with (IZR (nsteps_ ev - 1))
      by (rewrite minus_IZR; reflexivity).
    repeat split; apply IZR_le; lia. }
  pose proof (Rfold_moment_bounds (reduced_value ev gen_mean)
                (fun p => IZR (snd p)) 0 (IZR (nsteps_ ev) - 1)
                (grid_indices (nsteps_ ev))
                (fun p Hp => conj (Hv p Hp) (proj1 (Hb p Hp)))
                0%R 0%R ltac:(lra)) as Bx.
  pose proof (Rfold_moment_bounds (reduced_value ev gen_mean)
                (fun p => IZR (fst p)) 0 (IZR (nsteps_ ev) - 1)
                (grid_indices (nsteps_ ev))
                (fun p Hp => conj (Hv p Hp) (proj2 (Hb p Hp)))
                0%R 0%R ltac:(lra)) as By.
  cbv beta in Bx, By. rewrite <- Hs in Bx, By.
  rewrite Hix, Hiy.
  set (S := grid_sum (TR_ ev')) in *.
  set (Mx := fold_left _ _ _) in Bx |- *.
  set (My := fold_left _ _ _) in By |- *.
  assert (Hinv : (0 < / S)%R) by (apply Rinv_0_lt_compat; exact Hsum).
  assert (Ex : (Mx / S * S = Mx)%R) by (field; lra).
  assert (Ey : (My / S * S = My)%R) by (field; lra).
  split; split.
  - unfold Rdiv. apply Rmult_le_pos; lra.
  - apply Rmult_le_reg_r with S; [exact Hsum | lra].
  - unfold Rdiv. apply Rmult_le_pos; lra.
  - apply Rmult_le_reg_r with S; [exact Hsum | lra].
Qed.

Lemma centroid_inside_grid_witness :
  exists ev',
    (event_wf SampleR.event /\
     compute_reduced_thickness geometric_mean SampleR.event = Some ev' /\
     (forall c, In c (grid_cells (nsteps_ ev') (TR_ ev')) ->
        (0 <= cell_value c)%R) /\
     (0 < grid_sum (TR_ ev'))%R) /\
    (0 <= ixcm_ ev' <= IZR (nsteps_ ev') - 1)%R /\
    (0 <= iycm_ ev' <= IZR (nsteps_ ev') - 1)%R.
Proof.
  assert (Hwf : event_wf SampleR.event)
    by (repeat split; simpl; repeat constructor).
  destruct (compute_reduced_thickness_sums SampleR.event geometric_mean Hwf)
    as (ev' & Hrun & Hn & Hcells & Hs & _).
  assert (Hpos : forall c, In c (grid_cells (nsteps_ ev') (TR_ ev')) ->
                   (0 <= cell_value c)%R).
  { intros c Hc. rewrite Hn, Hcells in Hc. apply in_map_iff in Hc.
    destruct Hc as (p & <- & _). unfold cell_value, reduced_value.
    cbn.
    match goal with
    | |- (0 <= 1 * sqrt ?b)%R => pose proof (sqrt_pos b)
    end.
    lra. }
  assert (Hsum : (0 < grid_sum (TR_ ev'))%R).
  { rewrite Hs.
    change (grid_indices (nsteps_ SampleR.event))
      with [(0, 0); (0, 1); (1, 0); (1, 1)]%Z.
    cbn.
    pose proof (sqrt_lt_R0 (1 * 4) ltac:(lra)) as H0.
    match goal with
    | |- (0 < 0 + 1 * _ + 1 * sqrt ?b + 1 * sqrt ?c + 1 * sqrt ?d)%R =>
        pose proof (sqrt_pos b); pose proof (sqrt_pos c);
        pose proof (sqrt_pos d)
    end.
    lra. }
  exists ev'.
  split; [split; [exact Hwf | split; [exact Hrun | split;
                                      [exact Hpos | exact Hsum]]]|].
  exact (centroid_inside_grid SampleR.event ev' geometric_mean
           Hwf Hrun Hpos Hsum).
Defined.

(** ** The collision table: clear_TAB and compute_ncoll *)

Section NcollFacts.

Context {D : Type} {AD : Arith D}.
Local Open Scope dbl_scope.

Lemma grid_indices_NoDup (n : Z) : NoDup (grid_indices n).
Proof.
  unfold grid_indices. apply rect_indices_NoDup; apply range_incl_NoDup.
Qed.

(** The same update [f] applied once to each cell of a list of distinct
    cells. *)
Lemma grid_modify_fold (f : D -> D) (n : Z) (l : list (Z * Z)) :
  NoDup l ->
  (forall p, In p l -> in_grid n (fst p) (snd p)) ->
  forall g, grid_wf n g ->
  exists g',
    foldM (fun g p => grid_modify f g (fst p) (snd p)) l g = Some g' /\
    grid_wf n g' /\
    (forall p v, In p l -> grid_get g (fst p) (snd p) = Some v ->
       grid_get g' (fst p) (snd p) = Some (f v)) /\
    (forall p, ~ In p l ->
       grid_get g' (fst p) (snd p) = grid_get g (fst p) (snd p)).
Proof.
  induction l as [|q l IH]; intros Hnd Hin g Hwf.
  - exists g. split; [reflexivity|]. split; [exact Hwf|].
    split; [intros p v []|reflexivity].
  - inversion Hnd as [|q' l' Hq Hnd']; subst.
    assert (Hqin : in_grid n (fst q) (snd q))
      by (apply Hin; left; reflexivity).
    destruct (grid_modify_wf f n g _ _ Hwf Hqin)
      as (g1 & Hg1 & Hwf1 & Hsame & Hother).
    destruct (IH Hnd' (fun p Hp => Hin p (or_intror Hp)) g1 Hwf1)
      as (g' & Hfold & Hwf' & Hset & Hkeep).
    exists g'. rewrite foldM_cons, Hg1. split; [exact Hfold|].
    split; [exact Hwf'|]. split.
    + intros p v [Hp|Hp] Hv.
      * subst p. rewrite (Hkeep q Hq). apply Hsame. exact Hv.
      * apply (Hset p v Hp). rewrite Hother; [exact Hv|].
        intros E. apply Hq. replace q with p; [exact Hp|].
        destruct p, q; simpl in E; exact E.
    + intros p Hp. rewrite Hkeep by (intros H; apply Hp; right; exact H).
      apply Hother. intros E. apply Hp. left.
      destruct p, q; simpl in E; symmetry; exact E.
Qed.

(** The loop of compute_ncoll: the table and the running sum do not
    influence each other. *)
Lemma ncoll_fold (l : list (Z * Z)) (g : Grid D) (s : D) :
  foldM (fun (st : Grid D * D) p =>
           g <- grid_add (fst st) (fst p) (snd p) #1 ;;
           Some (g, snd st + #1)) l (g, s)
  = match foldM (fun g p => grid_modify (fun old => old + #1) g
                              (fst p) (snd p)) l g with
    | Some g' => Some (g', fold_left (fun s (_ : Z * Z) => s + #1) l s)
    | None => None
    end.
Proof.
  revert g s. induction l as [|p l IH]; intros g s.
  - reflexivity.
  - rewrite !foldM_cons. simpl fst. simpl snd. unfold grid_add.
    destruct (grid_modify (fun old => old + #1) g (fst p) (snd p)) as [g1|];
      [|reflexivity].
    simpl. apply IH.
Qed.

Variable ev : Event D.

Lemma clear_TAB_spec (tb : NcollTable D) :
  grid_wf (nsteps_ ev) (TAB_ tb) ->
  exists tb',
    clear_TAB ev tb = Some tb' /\
    grid_wf (nsteps_ ev) (TAB_ tb') /\
    (forall iy ix, in_grid (nsteps_ ev) iy ix ->
       grid_get (TAB_ tb') iy ix = Some #1) /\
    ncoll_ tb' = 0%Z /\ Tab_integr_ tb' = Tab_integr_ tb.
Proof.
  intros Hwf. unfold clear_TAB. rewrite loop2_flat.
  destruct (grid_modify_fold (fun _ => #1) (nsteps_ ev)
              (grid_indices (nsteps_ ev)) (grid_indices_NoDup _)
              (fun p Hp => proj1 (grid_indices_in_grid _ p) Hp)
              (TAB_ tb) Hwf) as (g' & Hfold & Hwf' & Hset & _).
  unfold grid_set. fold (grid_indices (nsteps_ ev)). rewrite Hfold.
  eexists. split; [reflexivity|]. simpl.
  split; [exact Hwf'|]. split; [|split; reflexivity].
  intros iy ix Hin.
  destruct (grid_get_wf _ _ _ _ Hwf Hin) as [v Hv].
  apply (Hset (iy, ix) v); [|exact Hv].
  apply grid_indices_in_grid. exact Hin.
Qed.

Lemma compute_ncoll_spec (tb : NcollTable D) :
  grid_wf (nsteps_ ev) (TAB_ tb) ->
  exists tb',
    compute_ncoll ev tb = Some tb' /\
    grid_wf (nsteps_ ev) (TAB_ tb') /\
    (forall iy ix v, grid_get (TAB_ tb) iy ix = Some v ->
       grid_get (TAB_ tb') iy ix = Some (v + #1)) /\
    ncoll_ tb' = (ncoll_ tb + 1)%Z /\
    Tab_integr_ tb'
    = dxy_ ev * dxy_ ev
      * fold_left (fun s (_ : Z * Z) => s + #1) (grid_indices (nsteps_ ev)) #0.
Proof.
  intros Hwf. unfold compute_ncoll. rewrite loop2_flat.
  fold (grid_indices (nsteps_ ev)). rewrite ncoll_fold.
  destruct (grid_modify_fold (fun old => old + #1) (nsteps_ ev)
              (grid_indices (nsteps_ ev)) (grid_indices_NoDup _)
              (fun p Hp => proj1 (grid_indices_in_grid _ p) Hp)
              (TAB_ tb) Hwf) as (g' & Hfold & Hwf' & Hset & _).
  rewrite Hfold. eexists. split; [reflexivity|]. simpl.
  split; [exact Hwf'|]. split; [|split; reflexivity].
  intros iy ix v Hv.
  apply (Hset (iy, ix) v); [|exact Hv].
  apply grid_indices_in_grid.
  apply (grid_get_in_grid _ _ _ _ _ Hwf Hv).
Qed.

End NcollFacts.

Section NcollTimes.

Context {D : Type} {AD : Arith D}.
Local Open Scope dbl_scope.

Variable ev : Event D.

Lemma compute_ncoll_times_spec (k : nat) :
  forall tb : NcollTable D,
  grid_wf (nsteps_ ev) (TAB_ tb) ->
  exists tb',
    compute_ncoll_times k ev tb = Some tb' /\
    grid_wf (nsteps_ ev) (TAB_ tb') /\
    (forall iy ix v, grid_get (TAB_ tb) iy ix = Some v ->
       grid_get (TAB_ tb') iy ix = Some (Nat.iter k (fun w => w + #1) v)) /\
    ncoll_ tb' = (ncoll_ tb + Z.of_nat k)%Z.
Proof.
  induction k as [|k IH]; intros tb Hwf.
  - exists tb. split; [reflexivity|]. split; [exact Hwf|].
    split; [intros iy ix v Hv; exact Hv | simpl; lia].
  - destruct (compute_ncoll_spec ev tb Hwf)
      as (tb1 & Hrun1 & Hwf1 & Hcell1 & Hn1 & _).
    destruct (IH tb1 Hwf1) as (tb' & Hrun & Hwf' & Hcell & Hn).
    exists tb'. cbn [compute_ncoll_times]. rewrite Hrun1.
    split; [exact Hrun|]. split; [exact Hwf'|]. split.
    + intros iy ix v Hv. rewrite Nat.iter_succ_r.
      apply Hcell. apply Hcell1. exact Hv.
    + rewrite Hn, Hn1. lia.
Qed.

End NcollTimes.

Section NcollReal.

Local Open Scope R_scope.

Lemma rect_indices_length (ys xs : list Z) :
  length (rect_indices ys xs) = (length ys * length xs)%nat.
Proof.
  unfold rect_indices. induction ys as [|iy ys IH]; simpl; [reflexivity|].
  rewrite length_app, length_map, IH. reflexivity.
Qed.

Lemma grid_indices_length (n : Z) :
  length (grid_indices n) = (Z.to_nat n * Z.to_nat n)%nat.
Proof.
  unfold grid_indices. rewrite rect_indices_length.
  unfold range_upto, range_incl. rewrite length_map, length_seq.
  replace (n - 1 - 0 + 1)%Z with n by lia. reflexivity.
Qed.

Lemma Rfold_count {A : Type} (l : list A) (s : R) :
  fold_left (fun s (_ : A) => s + 1) l s = s + INR (length l).
Proof.
  revert s. induction l as [|a l IH]; intros s.
  - simpl. lra.
  - cbn [fold_left]. rewrite IH.
    change (length (a :: l)) with (S (length l)). rewrite S_INR. lra.
Qed.

Lemma Riter_succ (k : nat) (v : R) :
  Nat.iter k (fun w => w + 1) v = v + INR k.
Proof.
  induction k as [|k IH].
  - simpl. lra.
  - rewrite S_INR.
    change (Nat.iter (S k) (fun w => w + 1) v)
      with (Nat.iter k (fun w => w + 1) v + 1).
    rewrite IH. lra.
Qed.

End NcollReal.

(** X14.  On a table of the event's extents, clear_TAB followed by [k]
    calls of compute_ncoll ([k] within the range of int) always returns;
    the collision counter then holds [k], whatever it and the table held
    before, the table keeps its extents and every cell holds 1 with 1
    added [k] times. *)
Theorem ncoll_counts_calls
  {D : Type} {AD : Arith D} (ev : Event D) (tb : NcollTable D) (k : nat) :
  Z.of_nat k <= 2147483647 ->
  grid_wf (nsteps_ ev) (TAB_ tb) ->
  exists tb0 tbk,
    clear_TAB ev tb = Some tb0 /\
    compute_ncoll_times k ev tb0 = Some tbk /\
    ncoll_ tbk = Z.of_nat k /\
    grid_wf (nsteps_ ev) (TAB_ tbk) /\
    (forall iy ix, in_grid (nsteps_ ev) iy ix ->
       grid_get (TAB_ tbk) iy ix
       = Some (Nat.iter k (fun w => w + #1) (#1))%D).
Proof.
  intros _ Hwf.
  destruct (clear_TAB_spec ev tb Hwf) as (tb0 & Hclear & Hwf0 & Hone & Hn0 & _).
  destruct (compute_ncoll_times_spec ev k tb0 Hwf0)
    as (tbk & Hrun & Hwfk & Hcell & Hnk).
  exists tb0, tbk. split; [exact Hclear|]. split; [exact Hrun|].
  split; [rewrite Hnk, Hn0; lia|]. split; [exact Hwfk|].
  intros iy ix Hin. apply Hcell. apply Hone. exact Hin.
Qed.

Lemma ncoll_counts_calls_witness :
  (Z.of_nat 3 <= 2147483647 /\
   grid_wf (nsteps_ SampleR.event) (TAB_ SampleR.table)) /\
  exists tb0 tbk,
    clear_TAB SampleR.event SampleR.table = Some tb0 /\
    compute_ncoll_times 3 SampleR.event tb0 = Some tbk /\
    ncoll_ tbk = 3.
Proof.
  assert (Hwf : grid_wf (nsteps_ SampleR.event) (TAB_ SampleR.table))
    by (split; simpl; repeat constructor).
  assert (Hk : Z.of_nat 3 <= 2147483647) by (simpl; lia).
  split; [split; [exact Hk | exact Hwf]|].
  destruct (ncoll_counts_calls SampleR.event SampleR.table 3 Hk Hwf)
    as (tb0 & tbk & Hclear & Hrun & Hn & _).
  exists tb0, tbk. split; [exact Hclear|]. split; [exact Hrun | exact Hn].
Defined.

(** X15.  Over the reals, on a table of the event's extents, after
    clear_TAB and [k + 1] calls of compute_ncoll ([k + 1] within the range
    of int) every cell of the table holds 1 + (k + 1), while the stored
    integral is (dxy * nsteps)^2, the area of the grid: it is the same
    after every call and does not depend on the table. *)
Theorem ncoll_integral_is_grid_area
  (ev : Event R) (tb : NcollTable R) (k : nat) :
  Z.of_nat k < 2147483647 ->
  0 <= nsteps_ ev -> grid_wf (nsteps_ ev) (TAB_ tb) ->
  exists tb0 tbk tbk',
    clear_TAB ev tb = Some tb0 /\
    compute_ncoll_times k ev tb0 = Some tbk /\
    compute_ncoll ev tbk = Some tbk' /\
    (forall iy ix, in_grid (nsteps_ ev) iy ix ->
       grid_get (TAB_ tbk') iy ix = Some (1 + INR (S k))%R) /\
    Tab_integr_ tbk'
    = (dxy_ ev * IZR (nsteps_ ev) * (dxy_ ev * IZR (nsteps_ ev)))%R.
Proof.
  intros _ Hn Hwf.
  destruct (clear_TAB_spec ev tb Hwf) as (tb0 & Hclear & Hwf0 & Hone & _).
  destruct (compute_ncoll_times_spec ev k tb0 Hwf0)
    as (tbk & Hrun & Hwfk & Hcell & _).
  destruct (compute_ncoll_spec ev tbk Hwfk)
    as (tbk' & Hlast & _ & Hcell' & _ & Hint).
  exists tb0, tbk, tbk'.
  split; [exact Hclear|]. split; [exact Hrun|]. split; [exact Hlast|].
  split.
  - intros iy ix Hin.
    rewrite (Hcell' iy ix _ (Hcell iy ix _ (Hone iy ix Hin))).
    f_equal.
    change (Nat.iter k (fun w : R => (w + 1)%R) 1%R + 1 = 1 + INR (S k))%R.
    rewrite Riter_succ, S_INR. ring.
  - rewrite Hint.
    change (dxy_ ev * dxy_ ev
            * fold_left (fun s (_ : Z * Z) => s + 1)
                (grid_indices (nsteps_ ev)) 0
            = dxy_ ev * IZR (nsteps_ ev) * (dxy_ ev * IZR (nsteps_ ev)))%R.
    rewrite Rfold_count, grid_indices_length, mult_INR.
    rewrite INR_IZR_INZ, Z2Nat.id by exact Hn. ring.
Qed.

Lemma ncoll_integral_is_grid_area_witness :
  (Z.of_nat 2 < 2147483647 /\
   0 <= nsteps_ SampleR.event /\
   grid_wf (nsteps_ SampleR.event) (TAB_ SampleR.table)) /\
  exists tb0 tbk tbk',
    clear_TAB SampleR.event SampleR.table = Some tb0 /\
    compute_ncoll_times 2 SampleR.event tb0 = Some tbk /\
    compute_ncoll SampleR.event tbk = Some tbk' /\
    Tab_integr_ tbk'
    = (dxy_ SampleR.event * IZR (nsteps_ SampleR.event)
       * (dxy_ SampleR.event * IZR (nsteps_ SampleR.event)))%R.
Proof.
  assert (Hn : 0 <= nsteps_ SampleR.event) by (simpl; lia).
  assert (Hwf : grid_wf (nsteps_ SampleR.event) (TAB_ SampleR.table))
    by (split; simpl; repeat constructor).
  assert (Hk : Z.of_nat 2 < 2147483647) by (simpl; lia).
  split; [split; [exact Hk | split; [exact Hn | exact Hwf]]|].
  destruct (ncoll_integral_is_grid_area SampleR.event SampleR.table 2
              Hk Hn Hwf)
    as (tb0 & tbk & tbk' & Hclear & Hrun & Hlast & _ & Hint).
  exists tb0, tbk, tbk'.
  split; [exact Hclear|]. split; [exact Hrun|].
  split; [exact Hlast | exact Hint].
Defined.

(** ** The event-plane angles and the radii, in real arithmetic *)

Section AngleRange.

Local Open Scope R_scope.


Variable ev : Event R.



End AngleRange.



Section RadiusFacts.

Local Open Scope R_scope.


Variable ev : Event R.



End RadiusFacts.



(** ** A collision in which one nucleus does not take part *)

Section OneSided.

Local Open Scope R_scope.

Lemma select_mean_zero (p a : R) :
  p < TINY -> select_mean p a 0 = 0 /\ select_mean p 0 a = 0.
Proof.
  intros Hp. pose proof TINY_pos as HT.
  assert (Hz : Rops.ltb 0 TINY = true) by (apply Rltb_true; exact HT).
  rewrite (select_mean_comm p 0 a). split.
  all: destruct (select_mean_branch p) as [[_ ->]|[[Hq ->]|[_ ->]]];
    try lra.
  all: try (unfold geometric_mean; simpl; rewrite Rmult_0_r; apply sqrt_0).
  all: unfold negative_pmean;
    change ((0%R : R) <? TINY)%D with (Rops.ltb 0 TINY);
    rewrite Hz, orb_true_r; reflexivity.
Qed.

Lemma deposited_fold_none (ev : Event R) (nucleon_common : NucleonCommon R)
  (iy ix : Z) (nucleus : Nucleus R) (v : R) :
  (forall nucleon, In nucleon nucleus -> is_participant nucleon = false) ->
  fold_left (deposited ev nucleon_common iy ix) nucleus v = v.
Proof.
  revert v. induction nucleus as [|nucleon nucleus IH]; intros v Hnone.
  - reflexivity.
  - cbn [fold_left]. unfold deposited at 2.
    rewrite (Hnone nucleon (or_introl eq_refl)). simpl andb. cbv iota.
    apply IH. intros n Hn. apply Hnone. right. exact Hn.
Qed.

Lemma Rfold_zero {A : Type} (v : A -> R) (l : list A) (s : R) :
  (forall p, In p l -> v p = 0) ->
  fold_left (fun s p => s + v p) l s = s.
Proof.
  revert s. induction l as [|p l IH]; intros s Hl.
  - reflexivity.
  - cbn [fold_left]. rewrite (Hl p (or_introl eq_refl)), Rplus_0_r.
    apply IH. intros q Hq. apply Hl. right. exact Hq.
Qed.

Lemma filter_none {A : Type} (f : A -> bool) (l : list A) :
  (forall x, In x l -> f x = false) -> filter f l = [].
Proof.
  induction l as [|x l IH]; intros Hl.
  - reflexivity.
  - simpl. rewrite (Hl x (or_introl eq_refl)).
    apply IH. intros y Hy. apply Hl. right. exact Hy.
Qed.

End OneSided.

(** X18.  Over the reals, with a mean selected by an exponent below TINY
    (geometric mean or negative exponent), an event in which one of the two
    nuclei has no participant produces nothing: Event::compute returns,
    every cell of the reduced field is 0, the multiplicity is 0 and the
    passes of compute_observables include no cell. *)
Theorem one_sided_event_is_empty
  (ev : Event R) (p : R) (nucleusA nucleusB : Nucleus R)
  (nucleon_common : NucleonCommon R) :
  0 < nsteps_ ev -> event_wf ev ->
  gen_mean_ ev = select_mean p -> (p < TINY)%R ->
  (forall nucleon, In nucleon nucleusA -> is_participant nucleon = false) \/
  (forall nucleon, In nucleon nucleusB -> is_participant nucleon = false) ->
  exists ev',
    compute ev nucleusA nucleusB nucleon_common = Some ev' /\
    (forall iy ix, in_grid (nsteps_ ev) iy ix ->
       grid_get (TR_ ev') iy ix = Some 0%R) /\
    multiplicity_ ev' = 0%R /\
    included_cells ev' = [].
Proof.
  intros Hn (HA & HB & HR) Hmean Hp Hnone. unfold compute.
  destruct (deposit_nucleus_spec (set_npart ev 0) nucleon_common nucleusA Hn
              (grid_fill (TA_ ev) (#0)%D) 0 (grid_fill_wf _ _ _ HA))
    as (TA & HTA & HwfA & HcA).
  unfold compute_nuclear_thickness. simpl TA_. simpl npart_.
  rewrite HTA.
  destruct (deposit_nucleus_spec
              (set_TA (set_npart ev 0) TA (0 + count_participants nucleusA))
              nucleon_common nucleusB Hn
              (grid_fill (TB_ ev) (#0)%D) (0 + count_participants nucleusA)
              (grid_fill_wf _ _ _ HB))
    as (TB & HTB & HwfB & HcB).
  simpl TB_. simpl npart_. rewrite HTB.
  set (ev2 := set_TB (set_TA (set_npart ev 0) TA
                        (0 + count_participants nucleusA)) TB
                (0 + count_participants nucleusA
                 + count_participants nucleusB)).
  destruct (reduced_loop_spec ev2 (gen_mean_ ev2) HwfA HwfB HR)
    as (acc & Hloop & HwfR & Hset & Hcat & Hsum & _).
  unfold compute_reduced_thickness. rewrite Hloop.
  set (ev3 := set_reduced ev2 (ra_TR acc) _ _ _).
  destruct (compute_observables_spec ev3 HwfR)
    as (e & a & R & _ & _ & _ & Hobs).
  rewrite Hobs. eexists. split; [reflexivity|].
  assert (Hzero : forall q, In q (grid_indices (nsteps_ ev)) ->
                    reduced_value ev2 (gen_mean_ ev2) q = 0%R).
  { intros q Hq. apply grid_indices_in_grid in Hq.
    pose proof (grid_fill_get (nsteps_ ev) (TA_ ev) (#0)%D _ _ HA Hq) as H0A.
    pose proof (grid_fill_get (nsteps_ ev) (TB_ ev) (#0)%D _ _ HB Hq) as H0B.
    pose proof (HcA _ _ _ H0A) as HcellA.
    pose proof (HcB _ _ _ H0B) as HcellB.
    unfold reduced_value, grid_at.
    change (TA_ ev2) with TA. change (TB_ ev2) with TB.
    change (gen_mean_ ev2) with (gen_mean_ ev). change (norm_ ev2) with (norm_ ev).
    rewrite HcellA, HcellB, Hmean.
    destruct Hnone as [HnA | HnB].
    - rewrite (deposited_fold_none _ _ _ _ nucleusA _ HnA).
      change (#0)%D with 0%R.
      rewrite (proj2 (select_mean_zero p _ Hp)).
      apply Rmult_0_r.
    - rewrite (deposited_fold_none _ _ _ _ nucleusB _ HnB).
      change (#0)%D with 0%R.
      rewrite (proj1 (select_mean_zero p _ Hp)).
      apply Rmult_0_r. }
  change (nsteps_ ev2) with (nsteps_ ev) in Hset, Hcat, HwfR.
  split; [|split].
  - intros iy ix Hin. simpl TR_. rewrite (Hset iy ix Hin). f_equal.
    apply (Hzero (iy, ix)). apply grid_indices_in_grid. exact Hin.
  - simpl multiplicity_. rewrite Hsum. unfold grid_sum. rewrite Hcat.
    change (fold_left d_add ?l (#0)%D) with (fold_left Rplus l 0%R).
    rewrite Rfold_plus_map, (Rfold_zero _ _ _ Hzero).
    apply Rmult_0_r.
  - unfold included_cells. simpl TR_. simpl nsteps_.
    apply filter_none. intros c Hc. unfold grid_cells in Hc.
    apply in_map_iff in Hc. destruct Hc as (q & <- & Hq).
    unfold included, cell_value. simpl snd.
    apply negb_false_iff. apply Rltb_true.
    unfold grid_at. rewrite (Hset (fst q) (snd q)).
    + replace (fst q, snd q) with q by (destruct q; reflexivity).
      rewrite (Hzero q Hq). apply TINY_pos.
    + apply grid_indices_in_grid. exact Hq.
Qed.

Lemma one_sided_event_is_empty_witness :
  (0 < nsteps_ SampleR.harmonic_event /\
   event_wf SampleR.harmonic_event /\
   gen_mean_ SampleR.harmonic_event = select_mean (-1)%R /\
   (-1 < TINY)%R /\
   (forall nucleon, In nucleon SampleR.spectators ->
      is_participant nucleon = false)) /\
  exists ev',
    compute SampleR.harmonic_event SampleR.nucleus SampleR.spectators
      SampleR.common = Some ev' /\
    multiplicity_ ev' = 0%R /\
    included_cells ev' = [].
Proof.
  assert (Hn : 0 < nsteps_ SampleR.harmonic_event) by reflexivity.
  assert (Hwf : event_wf SampleR.harmonic_event)
    by (repeat split; simpl; repeat constructor).
  assert (Hm : gen_mean_ SampleR.harmonic_event = select_mean (-1)%R)
    by reflexivity.
  assert (Hp : (-1 < TINY)%R) by (pose proof TINY_pos; lra).
  assert (Hs : forall nucleon, In nucleon SampleR.spectators ->
                 is_participant nucleon = false).
  { intros nucleon [<- | []]. reflexivity. }
  split; [split; [exact Hn | split; [exact Hwf | split; [exact Hm | split;
            [exact Hp | exact Hs]]]]|].
  destruct (one_sided_event_is_empty SampleR.harmonic_event (-1)
              SampleR.nucleus SampleR.spectators SampleR.common
              Hn Hwf Hm Hp (or_intror Hs))
    as (ev' & Hrun & _ & Hmult & Hinc).
  exists ev'. split; [exact Hrun|]. split; [exact Hmult | exact Hinc].
Defined.

(** ** The entropy sum *)

Section EntropyFacts.

Local Open Scope R_scope.


Variable ev : Event R.


End EntropyFacts.


